(** * filedspreproc: a shallow embedding of [FileDatasetPreprocessor]

    The development follows [src/filedspreproc.py]: the constructor and
    [save_locals_to_self], the enumerator, the per-item body of [worker_fn],
    [write_metadata], and the dispatcher loop of [run] together with its
    worker processes, the latter as an executable transition system over an
    explicit world (files, console, log lock, bounded queue); and the
    capability and the constructor call of [src/usage_example.py]. *)

From Stdlib Require Import ZArith Ascii String DecimalString.
From stdpp Require Import gmap strings list.

Local Open Scope Z_scope.
#[local] Set Warnings "-clear-no-such-hyp".

(** ** Python strings

    A [str] is a [string] of bytes; indices are [nat], and [-1] answers of
    [rfind] are options. *)

Fixpoint str_take (n : nat) (s : string) : string :=
  match n, s with
  | S n', String a s' => String a (str_take n' s')
  | _, _ => ""
  end.

Fixpoint str_drop (n : nat) (s : string) : string :=
  match n, s with
  | S n', String _ s' => str_drop n' s'
  | _, _ => s
  end.

(** [s.startswith(pre)] *)
Fixpoint startswith (s pre : string) {struct pre} : bool :=
  match pre, s with
  | "", _ => true
  | String a pre', String b s' => bool_decide (a = b) && startswith s' pre'
  | String _ _, "" => false
  end.

(** [s.endswith(c)] for a one-character [c] *)
Fixpoint endswith_char (s : string) (c : ascii) : bool :=
  match s with
  | "" => false
  | String a "" => bool_decide (a = c)
  | String _ s' => endswith_char s' c
  end.

(** [s.rfind(c)], [None] standing for [-1] *)
Fixpoint rfind (c : ascii) (s : string) : option nat :=
  match s with
  | "" => None
  | String a s' =>
      match rfind c s' with
      | Some i => Some (S i)
      | None => if bool_decide (a = c) then Some 0%nat else None
      end
  end.

(** [s.rstrip(c)] *)
Fixpoint rstrip_char (c : ascii) (s : string) : string :=
  match s with
  | "" => ""
  | String a s' =>
      match rstrip_char c s' with
      | "" => if bool_decide (a = c) then "" else String a ""
      | r => String a r
      end
  end.

(** every character of [s] is [c] *)
Fixpoint all_char (c : ascii) (s : string) : bool :=
  match s with
  | "" => true
  | String a s' => bool_decide (a = c) && all_char c s'
  end.

Definition lower_char (a : ascii) : ascii :=
  let n := nat_of_ascii a in
  if bool_decide (65 ≤ n ≤ 90)%nat then ascii_of_nat (n + 32) else a.

(** [s.lower()] on byte strings: only [A]..[Z] change. *)
Fixpoint str_lower (s : string) : string :=
  match s with
  | "" => ""
  | String a s' => String (lower_char a) (str_lower s')
  end.

(** ** [os.path] (posixpath) *)

Module os_path.

Definition sep : ascii := "/"%char.
Definition extsep : ascii := "."%char.

(** [posixpath.join(a, b)] *)
Definition join (a b : string) : string :=
  if startswith b "/" then b
  else if bool_decide (a = "") || endswith_char a sep then a +:+ b
  else a +:+ "/" +:+ b.

(** [posixpath.split(p)] *)
Definition split (p : string) : string * string :=
  let i := match rfind sep p with Some k => S k | None => 0%nat end in
  let head := str_take i p in
  let tail := str_drop i p in
  let head :=
    if negb (bool_decide (head = "")) && negb (all_char sep head)
    then rstrip_char sep head else head in
  (head, tail).

(** [genericpath._splitext(p, '/', None, '.')] *)
Definition splitext (p : string) : string * string :=
  let sepIndex : Z := match rfind sep p with Some k => Z.of_nat k | None => -1 end in
  let dotIndex : Z := match rfind extsep p with Some k => Z.of_nat k | None => -1 end in
  if bool_decide (dotIndex > sepIndex) then
    (* skip all leading dots *)
    let leading :=
      str_take (Z.to_nat (dotIndex - (sepIndex + 1)))
               (str_drop (Z.to_nat (sepIndex + 1)) p) in
    if negb (all_char extsep leading)
    then (str_take (Z.to_nat dotIndex) p, str_drop (Z.to_nat dotIndex) p)
    else (p, "")
  else (p, "").

End os_path.

(** ** Python values, dictionaries, exceptions *)

Inductive pyval : Type :=
  | PyNone
  | PyInt (z : Z)
  | PyStr (s : string).

Global Instance pyval_eq_dec : EqDecision pyval.
Proof. solve_decision. Defined.

Abbreviation dict := (gmap string pyval).

Inductive exn : Type :=
  | IndexError
  | AssertionError
  | TypeError
  | KeyError (k : string).

Global Instance exn_eq_dec : EqDecision exn.
Proof. solve_decision. Defined.

(** [l.remove(k)]: the first occurrence goes, [None] is Python's
    [ValueError]. *)
Fixpoint list_remove (k : string) (l : list string) : option (list string) :=
  match l with
  | [] => None
  | x :: l' =>
      if bool_decide (x = k) then Some l'
      else cons x <$> list_remove k l'
  end.

(** [if k in l: l.remove(k)] *)
Definition remove_if_in (l : list string) (k : string) : list string :=
  if bool_decide (k ∈ l) then default l (list_remove k l) else l.

Definition reserved_columns : list string := ["path"; "success"; "message"].

(** ** The world a run acts on

    Files are identified by their path string.  Opening a regular file for
    writing or appending always succeeds: permission and missing-directory
    errors of the operating system are outside the model. *)

(** The name under which a directory is kept: trailing separators do not
    count ([/out/a/] is [/out/a]). *)
Definition fs_key (p : string) : string :=
  if all_char os_path.sep p then p else rstrip_char os_path.sep p.

(** The prefixes of [s] that end before a separator, and [s] itself, each
    after [acc]. *)

Fixpoint prefixes_at_sep (acc s : string) : list string :=
  match s with
  | "" => [acc]
  | String a s' =>
      (if bool_decide (a = os_path.sep) then [acc] else [])
        ++ prefixes_at_sep (acc +:+ String a "") s'
  end.

Record FS : Type := mkFS {
  files : gmap string string;   (* regular files and their content *)
  dirs : gset string            (* directories *)
}.

(** [os.path.exists(p)] *)
Definition fs_exists (f : FS) (p : string) : bool :=
  bool_decide (p ∈ dom (files f)) || bool_decide (fs_key p ∈ dirs f).

(** [os.makedirs(p)]: the directory and every missing ancestor. *)
Definition fs_makedirs (f : FS) (p : string) : FS :=
  mkFS (files f)
       (dirs f ∪ list_to_set
          (filter (λ d, d ≠ "") (fs_key <$> prefixes_at_sep "" (fs_key p)))).

Inductive console_msg : Type :=
  | MsgCsvColumns (column_order : list string)
  | MsgProgress (count : nat)
  | MsgWillCreateDir (cur_dest_dir : string)
  | MsgSkipping (dest_filename : string)
  | MsgProcessDead (pid : nat)
  | MsgDone
  | MsgGotTermination (pid : nat)
  | MsgWillProcess (pid : nat) (src_path : string)
  | MsgReportedFailure (src_path message : string)
  | MsgErrorHappened (src_path : string)
  | MsgTraceback (tb : string).

Global Instance console_msg_eq_dec : EqDecision console_msg.
Proof. solve_decision. Defined.

Record World : Type := mkWorld {
  fs : FS;
  stdout : list console_msg;    (* what was printed, oldest first *)
  csv_lock : bool;              (* [true]: the log lock is held *)
  open_handles : list string    (* files opened and not yet closed *)
}.

Definition set_fs (f : FS → FS) (w : World) : World :=
  mkWorld (f (fs w)) (stdout w) (csv_lock w) (open_handles w).
Definition set_stdout (f : list console_msg → list console_msg) (w : World) : World :=
  mkWorld (fs w) (f (stdout w)) (csv_lock w) (open_handles w).
Definition set_csv_lock (b : bool) (w : World) : World :=
  mkWorld (fs w) (stdout w) b (open_handles w).
Definition set_open_handles (f : list string → list string) (w : World) : World :=
  mkWorld (fs w) (stdout w) (csv_lock w) (f (open_handles w)).

(** ** Computations: state, exceptions, and blocking on a lock *)

Inductive res (A : Type) : Type :=
  | Ok (a : A)
  | Raise (e : exn)
  | Block.                      (* waits for a lock that is held *)
Arguments Ok {A} a.
Arguments Raise {A} e.
Arguments Block {A}.

Definition M (A : Type) : Type := World → res A * World.

Global Instance M_ret : MRet M := λ A a w, (Ok a, w).
Global Instance M_bind : MBind M := λ A B k m w,
  match m w with
  | (Ok a, w') => k a w'
  | (Raise e, w') => (Raise e, w')
  | (Block, w') => (Block, w')
  end.

Definition raise {A} (e : exn) : M A := λ w, (Raise e, w).
Definition modify (f : World → World) : M unit := λ w, (Ok tt, f w).

(** [print(msg)] *)
Definition print (m : console_msg) : M unit :=
  modify (set_stdout (λ out, out ++ [m])).

(** [_print_with_lock(lock, msg)]: the console lock is taken and released
    around one [print], which cannot fail. *)
Definition print_with_lock (m : console_msg) : M unit := print m.

(** [lock.acquire()] and [lock.release()] on the log lock. *)
Definition csv_lock_acquire : M unit := λ w,
  if csv_lock w then (Block, w) else (Ok tt, set_csv_lock true w).
Definition csv_lock_release : M unit := modify (set_csv_lock false).

(** [f = open(p, mode)], [f.write(text)], [f.close()] *)
Definition file_open_w (p : string) : M unit :=
  modify (λ w, set_open_handles (cons p)
                 (set_fs (λ f, mkFS (<[p := ""]> (files f)) (dirs f)) w)).
Definition file_open_a (p : string) : M unit :=
  modify (λ w, set_open_handles (cons p)
                 (set_fs (λ f, mkFS (<[p := default "" (files f !! p)]> (files f)) (dirs f)) w)).
Definition file_write (p text : string) : M unit :=
  modify (set_fs (λ f, mkFS (<[p := default "" (files f !! p) +:+ text]> (files f)) (dirs f))).
Definition file_close (p : string) : M unit :=
  modify (set_open_handles (λ hs, default hs (list_remove p hs))).

(** ** The [csv] writer with [delimiter='\t'] (minimal quoting) *)

Module csv.

Definition delimiter : ascii := "009"%char.
Definition quotechar : ascii := "034"%char.
Definition lineterminator : string := String "013"%char (String "010"%char "").

Fixpoint needs_quote (s : string) : bool :=
  match s with
  | "" => false
  | String a s' =>
      bool_decide (a = delimiter) || bool_decide (a = quotechar)
      || bool_decide (a = "013"%char) || bool_decide (a = "010"%char)
      || needs_quote s'
  end.

Fixpoint double_quotes (s : string) : string :=
  match s with
  | "" => ""
  | String a s' =>
      if bool_decide (a = quotechar)
      then String a (String a (double_quotes s'))
      else String a (double_quotes s')
  end.

Definition quoted (s : string) : string :=
  String quotechar (double_quotes s +:+ String quotechar "").

(** [None] is written as the empty field, numbers through [str()]. *)
Definition field (v : pyval) : string :=
  match v with
  | PyNone => ""
  | PyInt z => NilZero.string_of_int (Z.to_int z)
  | PyStr s => if needs_quote s then quoted s else s
  end.

Fixpoint join_fields (l : list string) : string :=
  match l with
  | [] => ""
  | [x] => x
  | x :: l' => x +:+ String delimiter (join_fields l')
  end.

(** [writer.writerow(row)]: the text that reaches the file.  A record
    made of one empty field is written quoted. *)
Definition writerow (row : list pyval) : string :=
  let fields := field <$> row in
  (if bool_decide (fields = [""]) then quoted "" else join_fields fields)
    +:+ lineterminator.

End csv.

(** ** The preprocessor object *)

(** What [preprocess_fn(src_path, dest_path)] does: it returns
    [(success, message, metadata)] or raises, and may change the file
    system on the way. *)
Inductive outcome : Type :=
  | Returned (success : bool) (message : string) (metadata : dict)
  | Raised (traceback : string).

Definition capability : Type := string → string → FS → outcome * FS.

Record Args : Type := mkArgs {
  arg_src_dir : string;
  arg_dest_dir : string;
  arg_preprocess_fn : capability;
  arg_input_extension : string;
  arg_output_extension : option string;
  arg_metadata_filename : option string;
  arg_metadata_columns : option (list string);
  arg_num_processes : nat
}.

Record Self : Type := mkSelf {
  src_dir : string;
  dest_dir : string;
  preprocess_fn : capability;
  input_extension : string;
  output_extension : string;
  metadata_filename : option string;
  metadata_columns : option (list string);
  num_processes : nat;
  column_order : option (list string);
  csv_file_path : option string
}.

(** [save_locals_to_self(obj, dct, omit)], where [omit] defaults to
    [['self']]: [obj] stands for [obj.__dict__]; the result is that
    dictionary and [dct] as the call leaves them, both being changed in
    place. *)
Definition save_locals_to_self {V} (obj dct : gmap string V) (omit : list string)
  : gmap string V * gmap string V :=
  let dct :=
    foldl (λ dct k, if bool_decide (k ∈ dom dct) then delete k dct else dct)
          dct omit in
  (dct ∪ obj, dct).

(** [s[0]] *)
Definition str_head (s : string) : M ascii :=
  match s with
  | "" => raise IndexError
  | String a _ => mret a
  end.

(** [FileDatasetPreprocessor.__init__]; [abspath] is [os.path.abspath],
    which depends on the working directory of the process. *)
Definition __init__ (abspath : string → string) (a : Args) : M Self :=
  (* normalize input/output extensions *)
  c ← str_head (arg_input_extension a);
  let self_input_extension :=
    if bool_decide (c ≠ "."%char) then "." +:+ arg_input_extension a
    else arg_input_extension a in
  let self_output_extension :=
    match arg_output_extension a with
    | None => self_input_extension
    | Some e => e
    end in
  c ← str_head self_output_extension;
  let self_output_extension :=
    if bool_decide (c ≠ "."%char) then "." +:+ self_output_extension
    else self_output_extension in
  (* normalize paths, should remove trailing slashes too *)
  let self_src_dir := abspath (arg_src_dir a) in
  let self_dest_dir := abspath (arg_dest_dir a) in
  match arg_metadata_filename a with
  | None =>
      mret (mkSelf self_src_dir self_dest_dir (arg_preprocess_fn a)
              self_input_extension self_output_extension
              None (arg_metadata_columns a) (arg_num_processes a) None None)
  | Some metadata_filename =>
      match arg_metadata_columns a with
      | None => raise AssertionError
      | Some metadata_columns =>
          (* copy, then drop the reserved names from the copy *)
          let self_metadata_columns :=
            foldl remove_if_in metadata_columns reserved_columns in
          let self_column_order := reserved_columns ++ metadata_columns in
          print (MsgCsvColumns self_column_order);;
          mret (mkSelf self_src_dir self_dest_dir (arg_preprocess_fn a)
                  self_input_extension self_output_extension
                  (Some metadata_filename) (Some self_metadata_columns)
                  (arg_num_processes a) (Some self_column_order)
                  (Some (os_path.join (arg_dest_dir a) metadata_filename)))
      end
  end.

(** ** [write_metadata] *)

(** [[metadata[k] for k in column_order]] *)
Fixpoint getitems (metadata : dict) (ks : list string) : M (list pyval) :=
  match ks with
  | [] => mret []
  | k :: ks' =>
      match metadata !! k with
      | None => raise (KeyError k)
      | Some v => vs ← getitems metadata ks'; mret (v :: vs)
      end
  end.

(** [x] where Python needs a value that is not [None] *)
Definition not_none {A} (o : option A) : M A :=
  match o with
  | Some x => mret x
  | None => raise TypeError
  end.

Definition write_metadata (self : Self) (metadata : dict) : M unit :=
  match metadata_filename self with
  | None => mret tt
  | Some _ =>
      (* [metadata] is a dict by its type *)
      column_order ← not_none (column_order self);
      (* all columns must be present *)
      if bool_decide (dom metadata = (list_to_set column_order : gset string)) then
        row ← getitems metadata column_order;
        csv_file_path ← not_none (csv_file_path self);
        file_open_a csv_file_path;;
        file_write csv_file_path (csv.writerow row);;
        file_close csv_file_path
      else raise AssertionError
  end.

(** ** The body of the worker loop for one work item *)

(** pad with empty values *)
Definition pad (cols : list string) (metadata : dict) : dict :=
  foldl (λ md c, if bool_decide (c ∈ dom md) then md else <[c := PyNone]> md)
        metadata cols.

(** The [try] block: call the capability; on a reported failure create the
    empty file; on an exception report it and keep the defaults. *)
Definition try_preprocess (self : Self) (src_path dest_path : string)
  : M (bool * string * dict) := λ w,
  match preprocess_fn self src_path dest_path (fs w) with
  | (Returned success message metadata, f') =>
      ((if success then mret tt
        else
          (* create empty file *)
          file_open_w dest_path;; file_close dest_path;;
          print_with_lock (MsgReportedFailure src_path message));;
       mret (success, message, metadata)) (set_fs (λ _, f') w)
  | (Raised tb, f') =>
      (print_with_lock (MsgErrorHappened src_path);;
       print_with_lock (MsgTraceback tb);;
       mret (false, "", (∅ : dict))) (set_fs (λ _, f') w)
  end.

(** The lines after the [try] block that finish the [metadata] dictionary. *)
Definition finish_row (self : Self) (cols : list string) (src_path : string)
    (r : bool * string * dict) : dict :=
  let '(success, message, metadata) := r in
  let metadata := pad cols metadata in
  let src_path_without_prefix :=
    str_drop (String.length (src_dir self) + 1)%nat src_path in
  let metadata := <["path" := PyStr src_path_without_prefix]> metadata in
  let metadata := <["success" := PyInt (if success : bool then 1 else 0)]> metadata in
  <["message" := PyStr message]> metadata.

(** From the dequeued pair to the finished [metadata] dictionary. *)
Definition build_row (self : Self) (pid : nat) (next_obj : string * string)
  : M dict :=
  let '(src_path, dest_path) := next_obj in
  print_with_lock (MsgWillProcess pid src_path);;
  r ← try_preprocess self src_path dest_path;
  (* [for c in self.metadata_columns] *)
  cols ← not_none (metadata_columns self);
  mret (finish_row self cols src_path r).

Definition worker_item (self : Self) (pid : nat) (next_obj : string * string)
  : M unit :=
  metadata ← build_row self pid next_obj;
  csv_lock_acquire;;
  write_metadata self metadata;;
  csv_lock_release.

(** ** [enumerate_files] *)

#[local] Unset Elimination Schemes.
(** A directory: its regular files and its sub-directories, as listed. *)
Inductive tree : Type :=
  | Dir (filenames : list string) (subdirs : list (string * tree)).
#[local] Set Elimination Schemes.

(** [os.walk(top)], top-down *)
Fixpoint os_walk (top : string) (t : tree)
  : list (string * list string * list string) :=
  match t with
  | Dir filenames subdirs =>
      (top, fst <$> subdirs, filenames)
        :: concat (map (λ d, os_walk (os_path.join top (fst d)) (snd d)) subdirs)
  end.

(** What a generator does next: yield a value or raise. *)
Inductive gen_event : Type :=
  | Yield (src_path : string)
  | GenRaise (e : exn).

Definition ext_matches (extension filename : string) : bool :=
  bool_decide (str_lower (snd (os_path.splitext filename)) = extension).

Fixpoint walk_files (self : Self)
    (entries : list (string * list string * list string)) : list gen_event :=
  match entries with
  | [] => []
  | (src_root, _, filenames) :: rest =>
      if startswith src_root (src_dir self) then
        (Yield ∘ os_path.join src_root
           <$> filter (λ f : string, ext_matches (input_extension self) f = true)
                 filenames)
          ++ walk_files self rest
      else [GenRaise AssertionError]
  end.

Definition enumerate_files (self : Self) (t : tree) : list gen_event :=
  walk_files self (os_walk (src_dir self) t).

(** The paths a generator yields before it ends or raises. *)
Fixpoint yielded (g : list gen_event) : list string :=
  match g with
  | Yield p :: g' => p :: yielded g'
  | _ => []
  end.

(** ** [run]: the dispatcher and its worker processes

    The dispatcher and the workers are separate processes that meet at the
    bounded queue, the console and the log.  A worker's handling of one
    dequeued entry is one atomic step; so is every dispatcher action between
    two queue operations, and one pass of the liveness poll, which reads the
    state of the workers at the moment the queue is found full.  Any
    interleaving of these steps is a run: no scheduler, and no fairness, is
    assumed.  Process [i] of the pool reports [i] as its pid.  The source
    tree is a value of its own, read by the enumerator and changed by
    nobody; the destination side lives in the file system of the world. *)

Abbreviation item := (string * string)%type.

(** [multiproc.Queue(maxsize=10)] *)
Definition maxsize : nat := 10.

Definition queue_full (q : list (option item)) : bool :=
  bool_decide (maxsize ≤ length q)%nat.

Inductive wstatus : Type :=
  | Running                     (* in the loop, at [input_queue.get] *)
  | Blocked                     (* waits for the log lock of a dead holder *)
  | Exited                      (* left the loop on a termination signal *)
  | Crashed (e : exn).          (* died of an uncaught exception *)

Global Instance wstatus_eq_dec : EqDecision wstatus.
Proof. solve_decision. Defined.

(** [p.is_alive()] *)
Definition is_alive (st : wstatus) : bool :=
  match st with
  | Running | Blocked => true
  | Exited | Crashed _ => false
  end.

(** Where the dispatcher stands in [run]. *)
Inductive dispatcher_pc : Type :=
  | Enumerating (gen : list gen_event)      (* at the head of the [for] loop *)
  | Putting (next : item) (gen : list gen_event)   (* at [queue.put(...)] *)
  | Draining (processes_alive : list nat)   (* in the stopping loop *)
  | Done                                    (* after [print("Done.")] *)
  | Aborted (e : exn).                      (* [run] raised *)

Record RunState : Type := mkRun {
  world : World;
  queue : list (option item);               (* [None] is the termination signal *)
  pc : dispatcher_pc;
  cur_dirs : option (string * string);      (* [cur_src_dir], [cur_dest_dir] *)
  count : nat;
  procs : list wstatus;                     (* worker [i] is process [i] *)
  (* history of the run, for stating properties *)
  enqueued : list item;
  handled : list (nat * item);
  skipped : list string
}.

(** [os.path.exists(p)] as a computation *)
Definition path_exists (p : string) : M bool := λ w, (Ok (fs_exists (fs w) p), w).

(** [os.makedirs(p)] as a computation *)
Definition makedirs (p : string) : M unit := modify (set_fs (λ f, fs_makedirs f p)).

(** The directory under [dest_dir] that mirrors [dir]. *)
Definition mirror_dir (self : Self) (dir : string) : string :=
  let dir_without_prefix := str_drop (String.length (src_dir self) + 1)%nat dir in
  os_path.join (dest_dir self) dir_without_prefix.

(** A new directory is entered: mirror it under [dest_dir], creating it when
    it does not exist. *)
Definition enter_dir (self : Self) (dir : string) : M (string * string) :=
  let cur_dest_dir := mirror_dir self dir in
  ex ← path_exists cur_dest_dir;
  (if negb ex then
     print_with_lock (MsgWillCreateDir cur_dest_dir);;
     makedirs cur_dest_dir
   else mret tt);;
  mret (dir, cur_dest_dir).

(** The body of the [for src_path in self.enumerate_files()] loop up to the
    [queue.put]: [Some] pair is the item to put, [None] is a skip. *)
Definition examine (self : Self) (cur : option (string * string)) (count : nat)
    (src_path : string) : M (string * string * option item) :=
  (if bool_decide (0 < count)%nat && bool_decide (count `mod` 1000 = 0)%nat
   then print_with_lock (MsgProgress count) else mret tt);;
  let '(dir, filename) := os_path.split src_path in
  cur ← match cur with
        | Some (cur_src_dir, cur_dest_dir) =>
            if bool_decide (cur_src_dir ≠ dir) then enter_dir self dir
            else mret (cur_src_dir, cur_dest_dir)
        | None => enter_dir self dir
        end;
  let '(filebase, ext) := os_path.splitext filename in
  let dest_filename := filebase +:+ output_extension self in
  let dest_path := os_path.join (snd cur) dest_filename in
  ex ← path_exists dest_path;
  if ex : bool then
    print_with_lock (MsgSkipping dest_filename);;
    mret (cur, None)
  else mret (cur, Some (src_path, dest_path)).

(** One pass of [for p in processes_alive: if not p.is_alive(): remove, join].
    Removing the element under the iterator shifts the rest of the list, so
    the element that follows a removed one is not visited in this pass.  The
    result is the list that remains and the processes removed, in order. *)
Fixpoint poll_pass (dead : nat → bool) (rest : list nat) : list nat * list nat :=
  match rest with
  | [] => ([], [])
  | p :: rest' =>
      if dead p then
        match rest' with
        | [] => ([], [p])
        | q :: rest'' =>
            let '(kept, removed) := poll_pass dead rest'' in
            (q :: kept, p :: removed)
        end
      else
        let '(kept, removed) := poll_pass dead rest' in
        (p :: kept, removed)
  end.

Definition set_world (w : World) (s : RunState) : RunState :=
  mkRun w (queue s) (pc s) (cur_dirs s) (count s) (procs s)
        (enqueued s) (handled s) (skipped s).
Definition set_pc (c : dispatcher_pc) (s : RunState) : RunState :=
  mkRun (world s) (queue s) c (cur_dirs s) (count s) (procs s)
        (enqueued s) (handled s) (skipped s).
Definition set_queue (q : list (option item)) (s : RunState) : RunState :=
  mkRun (world s) q (pc s) (cur_dirs s) (count s) (procs s)
        (enqueued s) (handled s) (skipped s).
Definition set_procs (ps : list wstatus) (s : RunState) : RunState :=
  mkRun (world s) (queue s) (pc s) (cur_dirs s) (count s) ps
        (enqueued s) (handled s) (skipped s).

(** The test of [while len(processes_alive) > 0], and [print("Done.")]. *)
Definition drain_next (alive : list nat) (s : RunState) : RunState :=
  match alive with
  | [] => set_pc Done (set_world (set_stdout (λ out, out ++ [MsgDone]) (world s)) s)
  | _ :: _ => set_pc (Draining alive) s
  end.

Definition worker_dead (s : RunState) (i : nat) : bool :=
  match procs s !! i with
  | Some st => negb (is_alive st)
  | None => true
  end.

(** One step of the dispatcher; [None] when it waits (full queue at
    [queue.put]) or has finished. *)
Definition dispatcher_step (self : Self) (s : RunState) : option RunState :=
  match pc s with
  | Enumerating [] =>
      (* processes_alive = [p for p in processes] *)
      Some (drain_next (seq 0 (length (procs s))) s)
  | Enumerating (GenRaise e :: _) => Some (set_pc (Aborted e) s)
  | Enumerating (Yield src_path :: gen) =>
      match examine self (cur_dirs s) (count s) src_path (world s) with
      | (Ok (cur, None), w) =>
          Some (mkRun w (queue s) (Enumerating gen) (Some cur) (count s)
                  (procs s) (enqueued s) (handled s) (skipped s ++ [src_path]))
      | (Ok (cur, Some next), w) =>
          Some (mkRun w (queue s) (Putting next gen) (Some cur) (count s)
                  (procs s) (enqueued s) (handled s) (skipped s))
      | (Raise e, w) => Some (set_pc (Aborted e) (set_world w s))
      | (Block, _) => None
      end
  | Putting next gen =>
      (* blocking operation *)
      if queue_full (queue s) then None
      else Some (mkRun (world s) (queue s ++ [Some next]) (Enumerating gen)
                   (cur_dirs s) (S (count s)) (procs s)
                   (enqueued s ++ [next]) (handled s) (skipped s))
  | Draining processes_alive =>
      if queue_full (queue s) then
        let '(kept, removed) := poll_pass (worker_dead s) processes_alive in
        Some (drain_next kept
                (set_world (set_stdout (λ out, out ++ (MsgProcessDead <$> removed))
                              (world s)) s))
      else Some (set_queue (queue s ++ [None]) s)
  | Done => None
  | Aborted _ => None
  end.

(** What becomes of a worker after the body of its loop: it loops again,
    dies of the exception, or stays blocked on the lock. *)
Definition status_after (r : res unit) : wstatus :=
  match r with
  | Ok _ => Running
  | Raise e => Crashed e
  | Block => Blocked
  end.

(** One iteration of the loop of [worker_fn] in process [i]; [None] when the
    worker is not in the loop or waits at [input_queue.get]. *)
Definition worker_step (self : Self) (i : nat) (s : RunState) : option RunState :=
  match procs s !! i, queue s with
  | Some Running, next_obj :: q =>
      match next_obj with
      | None =>
          (* termination signal *)
          let w := set_stdout (λ out, out ++ [MsgGotTermination i]) (world s) in
          Some (mkRun w q (pc s) (cur_dirs s) (count s)
                  (<[i := Exited]> (procs s))
                  (enqueued s) (handled s) (skipped s))
      | Some next =>
          let '(r, w) := worker_item self i next (world s) in
          Some (mkRun w q (pc s) (cur_dirs s) (count s)
                  (<[i := status_after r]> (procs s))
                  (enqueued s) (handled s ++ [(i, next)]) (skipped s))
      end
  | _, _ => None
  end.

Inductive action : Type :=
  | Dispatch
  | Work (i : nat).

Definition step (self : Self) (a : action) (s : RunState) : option RunState :=
  match a with
  | Dispatch => dispatcher_step self s
  | Work i => worker_step self i s
  end.

Fixpoint exec (self : Self) (acts : list action) (s : RunState) : option RunState :=
  match acts with
  | [] => Some s
  | a :: acts' =>
      match step self a s with
      | Some s' => exec self acts' s'
      | None => None
      end
  end.

(** [init_metadata]: the header is not written. *)
Definition init_metadata (self : Self) : M unit := mret tt.

(** [run] after [self.init_metadata()], which changes nothing, the creation
    of the queue and of the locks, and [p.start()] for every process. *)
Definition init_state (self : Self) (w : World) (gen : list gen_event) : RunState :=
  mkRun (set_csv_lock false w) [] (Enumerating gen) None 0
        (replicate (num_processes self) Running) [] [] [].

(** [s] is a state of some run of [self] over the source tree [t] started
    in the world [w]. *)
Definition run_reaches (self : Self) (w : World) (t : tree) (s : RunState) : Prop :=
  ∃ acts, exec self acts (init_state self w (enumerate_files self t)) = Some s.

(** ** [usage_example.py] *)




(** ** Objects the constructor can return *)

Definition constructed (self : Self) : Prop :=
  ∃ abspath a w w', __init__ abspath a w = (Ok self, w').

(** ** Notions used in the statements *)

Definition reserved_set : gset string := list_to_set reserved_columns.

(** The file system after [text] is appended to the file at [p]. *)
Definition append_text (p text : string) (f : FS) : FS :=
  mkFS (<[p := default "" (files f !! p) +:+ text]> (files f)) (dirs f).

(** What the worker holds after the [try] block: the returned triple, or
    the defaults when the capability raised. *)
Definition observed (o : outcome) : bool * string * dict :=
  match o with
  | Returned success message metadata => (success, message, metadata)
  | Raised _ => (false, "", ∅)
  end.

(** The world after the [try] block, given what the capability did. *)
Definition after_try (src_path dest_path : string) (o : outcome) (f' : FS)
    (w : World) : World :=
  match o with
  | Returned true _ _ => set_fs (λ _, f') w
  | Returned false message _ =>
      set_stdout (λ out, out ++ [MsgReportedFailure src_path message])
        (set_fs (λ _, mkFS (<[dest_path := ""]> (files f')) (dirs f')) w)
  | Raised tb =>
      set_stdout (λ out, out ++ [MsgErrorHappened src_path; MsgTraceback tb])
        (set_fs (λ _, f') w)
  end.

(** The value the row of a faulted item holds in column [k]. *)
Definition fault_value (self : Self) (src_path k : string) : pyval :=
  if bool_decide (k = "path")
  then PyStr (str_drop (String.length (src_dir self) + 1)%nat src_path)
  else if bool_decide (k = "success") then PyInt 0
  else if bool_decide (k = "message") then PyStr ""
  else PyNone.

(** The destination [run] maps a source path to (the path mapper). *)
Definition dest_filename_of (self : Self) (src_path : string) : string :=
  (os_path.splitext (os_path.split src_path).2).1 +:+ output_extension self.

Definition dest_path_of (self : Self) (src_path : string) : string :=
  os_path.join (mirror_dir self (os_path.split src_path).1)
               (dest_filename_of self src_path).

(** A directory entry: not empty, no separator in it. *)
Definition valid_name (n : string) : Prop :=
  n ≠ "" ∧ rfind os_path.sep n = None.

(** Every name in the tree is a directory entry. *)
Fixpoint tree_valid (t : tree) : Prop :=
  match t with
  | Dir filenames subdirs =>
      Forall valid_name filenames
      ∧ (fix go (ds : list (string * tree)) : Prop :=
           match ds with
           | [] => True
           | d :: ds' => valid_name d.1 ∧ tree_valid d.2 ∧ go ds'
           end) subdirs
  end.

(** Every regular file of the tree under [top], as (directory, name), in
    the order of the walk. *)
Fixpoint tree_files (top : string) (t : tree) : list (string * string) :=
  match t with
  | Dir filenames subdirs =>
      ((λ f, (top, f)) <$> filenames)
        ++ concat (map (λ d, tree_files (os_path.join top d.1) d.2) subdirs)
  end.

(** What the dispatcher may change in the world before it checks the
    destination: it prints and creates directories. *)
Definition dispatcher_frame (w w1 : World) : Prop :=
  files (fs w1) = files (fs w)
  ∧ dirs (fs w) ⊆ dirs (fs w1)
  ∧ csv_lock w1 = csv_lock w
  ∧ open_handles w1 = open_handles w
  ∧ ∃ msgs, stdout w1 = stdout w ++ msgs.

(** [cur_dest_dir] is the mirror of [cur_src_dir]. *)
Definition cur_dirs_ok (self : Self) (cur : option (string * string)) : Prop :=
  ∀ d dd, cur = Some (d, dd) → dd = mirror_dir self d.

(** The source path the dispatcher holds at [queue.put], and the paths the
    generator has yet to yield. *)
Definition pending_src (c : dispatcher_pc) : list string :=
  match c with
  | Putting next _ => [next.1]
  | _ => []
  end.

Definition remaining (c : dispatcher_pc) : list string :=
  match c with
  | Enumerating g | Putting _ g => yielded g
  | _ => []
  end.

(** The capability returns declared attributes only: with a log
    configured, every key it returns is a configured column. *)
Definition declared_attributes (self : Self) : Prop :=
  ∀ co src_path dest_path f success message (attrs : dict) f',
    column_order self = Some co →
    preprocess_fn self src_path dest_path f = (Returned success message attrs, f') →
    dom attrs ⊆ list_to_set co.

(** A bound on the steps the stopping loop still has to take. *)
Definition count_items (q : list (option item)) : nat :=
  length (filter (λ e : option item, is_Some e) q).

Definition count_running (ps : list wstatus) : nat :=
  length (filter (λ st, st = Running) ps).

Definition drain_measure (s : RunState) : nat :=
  match pc s with
  | Draining alive =>
      1 + 2 * count_items (queue s) + 2 * count_running (procs s)
      + length alive + (maxsize - length (queue s))
  | _ => 0
  end.

(** What holds of the workers and the queue throughout a run whose workers
    never die inside [write_metadata]. *)
Definition drain_inv (self : Self) (s : RunState) : Prop :=
  csv_lock (world s) = false
  ∧ (∀ i st, procs s !! i = Some st →
       st = Running ∨ st = Exited
       ∨ (st = Crashed TypeError ∧ metadata_columns self = None))
  ∧ (length (queue s) ≤ maxsize)%nat
  ∧ length (procs s) = num_processes self
  ∧ match pc s with
    | Draining alive =>
        alive ≠ [] ∧ NoDup alive
        ∧ ∀ i, procs s !! i = Some Running → i ∈ alive
    | Done => ∀ i, procs s !! i ≠ Some Running
    | _ => True
    end.





(** The dispatcher is in, or past, the stopping loop. *)
Definition stopping (c : dispatcher_pc) : Prop :=
  match c with
  | Draining _ | Done => True
  | _ => False
  end.


(** The capability writes no regular file but its destination and removes
    no directory. *)
Definition capability_writes_dest_only (self : Self) : Prop :=
  ∀ src_path dest_path f o f',
    preprocess_fn self src_path dest_path f = (o, f') →
    (∀ q, q ≠ dest_path → files f' !! q = files f !! q)
    ∧ dirs f ⊆ dirs f'.

(** An extension with its dot in front: what the constructor makes of an
    extension that is not empty. *)
Definition with_dot (e : string) : string :=
  if startswith e "." then e else "." +:+ e.

(** The directory [rel] below [root]; [rel] empty is [root] itself. *)
Definition under (root rel : string) : string :=
  if bool_decide (rel = "") then root else root +:+ "/" +:+ rel.

(** A relative path as the walk builds it: no separator at either end. *)
Definition rel_path (rel : string) : Prop :=
  startswith rel "/" = false ∧ endswith_char rel os_path.sep = false.

(** A directory path as [os.path.abspath] and the walk give it: not empty,
    no separator at its end. *)
Definition proper_dir (d : string) : Prop :=
  d ≠ "" ∧ endswith_char d os_path.sep = false.

(** The work items among the entries of the queue, in order. *)
Definition queue_items (q : list (option item)) : list item := omap id q.

(** What the dispatcher's counters and the queue keep throughout a run. *)
Definition dispatch_inv (gen0 : list gen_event) (s : RunState) : Prop :=
  count s = length (enqueued s)
  ∧ yielded gen0
    ≡ₚ skipped s ++ (enqueued s).*1 ++ pending_src (pc s) ++ remaining (pc s)
  ∧ enqueued s = (handled s).*2 ++ queue_items (queue s)
  ∧ (length (queue s) ≤ maxsize)%nat.

(** The value the row of an item holds in column [k], given what the
    worker holds after the [try] block. *)
Definition row_value (self : Self) (src_path : string)
    (r : bool * string * dict) (k : string) : pyval :=
  if bool_decide (k = "message") then PyStr r.1.2
  else if bool_decide (k = "success") then PyInt (if r.1.1 then 1 else 0)
  else if bool_decide (k = "path")
  then PyStr (str_drop (String.length (src_dir self) + 1)%nat src_path)
  else default PyNone (r.2 !! k).

(** What the worker prints for one item after the capability is done. *)
Definition outcome_msgs (src_path : string) (o : outcome) : list console_msg :=
  match o with
  | Returned true _ _ => []
  | Returned false message _ => [MsgReportedFailure src_path message]
  | Raised tb => [MsgErrorHappened src_path; MsgTraceback tb]
  end.

(** The file system after the [try] block. *)
Definition outcome_fs (dest_path : string) (o : outcome) (f' : FS) : FS :=
  match o with
  | Returned false _ _ => mkFS (<[dest_path := ""]> (files f')) (dirs f')
  | _ => f'
  end.

(** The pids the dispatcher has reported dead on the console. *)
Definition dead_reports (out : list console_msg) : list nat :=
  omap (λ m, match m with MsgProcessDead pid => Some pid | _ => None end) out.

(** A message that is neither a death report nor the final [Done.]. *)
Definition quiet (m : console_msg) : Prop :=
  match m with
  | MsgProcessDead _ | MsgDone => False
  | _ => True
  end.

(** A computation that only adds messages of one kind to the console. *)
Definition prints_only (P : console_msg → Prop) {A} (c : M A) : Prop :=
  ∀ w, ∃ msgs, stdout (c w).2 = stdout w ++ msgs ∧ Forall P msgs.

(** What the console and the list of pending processes keep throughout a
    run started in the world [w0]. *)
Definition console_inv (w0 : World) (s : RunState) : Prop :=
  ∃ msgs,
    stdout (world s) = stdout w0 ++ msgs
    ∧ Forall (λ i, worker_dead s i = true) (dead_reports msgs)
    ∧ match pc s with
      | Draining alive =>
          dead_reports msgs ++ alive ≡ₚ seq 0 (length (procs s))
          ∧ (MsgDone ∉ msgs)
          ∧ ∀ i, worker_dead s i = false → i ∈ alive
      | Done =>
          dead_reports msgs ≡ₚ seq 0 (length (procs s))
          ∧ (∃ pre, msgs = pre ++ [MsgDone] ∧ MsgDone ∉ pre)
          ∧ ∀ i, worker_dead s i = true
      | _ => dead_reports msgs = [] ∧ (MsgDone ∉ msgs)
      end.

(** The events a dispatcher still has to read from its generator. *)
Definition pending_events (c : dispatcher_pc) : list gen_event :=
  match c with
  | Enumerating g | Putting _ g => g
  | _ => []
  end.

(** The generator never raises from here on, and [run] has not raised. *)
Definition raise_free (c : dispatcher_pc) : Prop :=
  (∀ e, c ≠ Aborted e) ∧ ∀ e, GenRaise e ∉ pending_events c.








(** No directory of the tree lists a name twice. *)
Fixpoint tree_nodup (t : tree) : Prop :=
  match t with
  | Dir filenames subdirs =>
      NoDup filenames ∧ NoDup subdirs.*1
      ∧ (fix go (ds : list (string * tree)) : Prop :=
           match ds with
           | [] => True
           | d :: ds' => tree_nodup d.2 ∧ go ds'
           end) subdirs
  end.

(** [d] is [root] or lies below it. *)
Definition inside (d root : string) : Prop :=
  d = root ∨ startswith d (root +:+ "/") = true.

(** The test at the head of the loop body of [run]: [count] is a positive
    multiple of 1000. *)
Definition progress_due (count : nat) : bool :=
  bool_decide (0 < count)%nat && bool_decide (count `mod` 1000 = 0)%nat.

(** A message that is not a progress line. *)
Definition no_progress (m : console_msg) : Prop :=
  match m with
  | MsgProgress _ => False
  | _ => True
  end.

(** The progress lines printed since the start are for positive multiples
    of 1000 that [count] has reached. *)
Definition progress_inv (w0 : World) (s : RunState) : Prop :=
  ∃ msgs,
    stdout (world s) = stdout w0 ++ msgs
    ∧ ∀ c, MsgProgress c ∈ msgs →
           (0 < c)%nat ∧ (c `mod` 1000 = 0)%nat ∧ (c ≤ count s)%nat.

(** The shape of the queue: items first, termination signals after them,
    the latter in the stopping loop only; once a worker has left on a
    termination signal no item is in the queue. *)
Definition queue_shape (s : RunState) : Prop :=
  ∃ its k,
    queue s = (Some <$> its) ++ replicate k None
    ∧ (k ≠ 0%nat → stopping (pc s))
    ∧ ((∃ i, procs s !! i = Some Exited) → its = [] ∧ stopping (pc s)).

(** Some continuation of the run from [s] ends with [Done.]. *)
Definition can_complete (self : Self) (s : RunState) : Prop :=
  ∃ acts s1, exec self acts s = Some s1 ∧ pc s1 = Done.

(** What a run keeps when its workers do not die in [write_metadata] and
    its generator does not raise. *)
Definition live_inv (self : Self) (s : RunState) : Prop :=
  cur_dirs_ok self (cur_dirs s) ∧ drain_inv self s
  ∧ raise_free (pc s) ∧ queue_shape s.

(** ** Concrete configurations *)

Definition empty_world : World := mkWorld (mkFS ∅ ∅) [] false [].

(** A capability that raises and touches nothing. *)
Definition cap_raises : capability := λ _ _ f, (Raised "boom", f).

(** The capability of [usage_example.py], on an image of fixed size: it
    writes the destination and returns its width and height. *)
Definition cap_grayscale : capability := λ _ dest f,
  (Returned true "" (<["width" := PyInt 10]> (<["height" := PyInt 20]> ∅)),
   mkFS (<[dest := "L"]> (files f)) (dirs f)).

Definition args_usage_example : Args :=
  mkArgs "/data/testimgs" "/data/testimgs_out" cap_grayscale "jpg" None
         (Some "preprocessed.csv") (Some ["width"; "height"]) 4.

Definition self_usage_example : Self :=
  mkSelf "/data/testimgs" "/data/testimgs_out" cap_grayscale ".jpg" ".jpg"
         (Some "preprocessed.csv") (Some ["width"; "height"]) 4
         (Some ["path"; "success"; "message"; "width"; "height"])
         (Some "/data/testimgs_out/preprocessed.csv").

(** A column list that names a reserved column. *)
Definition args_reserved_column : Args :=
  mkArgs "/src" "/out" cap_raises "jpg" None
         (Some "meta.csv") (Some ["path"; "width"]) 4.

(** A capability that returns an attribute nobody declared. *)
Definition cap_extra : capability := λ _ dest f,
  (Returned true "" (<["height" := PyInt 20]> ∅),
   mkFS (<[dest := "L"]> (files f)) (dirs f)).

(** The object [__init__] builds for source [/src], destination [/out] and
    the extensions [jpg] and [png]. *)
Definition args_with (cap : capability) (fn : option string)
    (cols : option (list string)) (n : nat) : Args :=
  mkArgs "/src" "/out" cap "jpg" (Some "png") fn cols n.

Definition self_with (cap : capability) (fn : option string)
    (cols : option (list string)) (n : nat) : Self :=
  mkSelf "/src" "/out" cap ".jpg" ".png" fn
         (match fn with
          | Some _ => (λ c, foldl remove_if_in c reserved_columns) <$> cols
          | None => cols
          end)
         n
         (match fn with
          | Some _ => app reserved_columns <$> cols
          | None => None
          end)
         (os_path.join "/out" <$> fn).

(** An upper-case input extension, as in [input_extension="JPG"]. *)
Definition args_upper_extension : Args :=
  mkArgs "/src" "/out" cap_raises "JPG" None None (Some []) 1.

(** A second run over one image whose output exists. *)
Definition self_rerun : Self :=
  self_with cap_grayscale (Some "meta.csv") (Some ["width"; "height"]) 1.

Definition world_rerun : World :=
  mkWorld (mkFS (<["/out/1.png" := "L"]> ∅) {["/out"]}) [] false [].

Definition tree_rerun : tree := Dir ["1.jpg"] [].

(** Skip the file, enter the stopping loop, fill the queue, let the worker
    take its signal, refill, poll. *)
Definition sched_rerun : list action :=
  [Dispatch; Dispatch] ++ replicate 10 Dispatch ++ [Work 0; Dispatch; Dispatch].

(** Two workers, a log, and a capability that returns an attribute outside
    the column list. *)
Definition self_leak : Self :=
  self_with cap_extra (Some "meta.csv") (Some ["width"]) 2.

Definition tree_leak : tree := Dir ["1.jpg"; "2.jpg"] [].

(** Both files are enqueued, each worker takes one, the enumeration ends. *)
Definition sched_leak : list action :=
  [Dispatch; Dispatch; Dispatch; Dispatch; Work 0; Work 1; Dispatch].

(** One worker, a log, and the capability of the usage example. *)
Definition self_drain : Self :=
  self_with cap_grayscale (Some "meta.csv") (Some ["width"; "height"]) 1.

Definition tree_drain : tree := Dir ["1.jpg"] [].

(** The file is enqueued and handled, the enumeration ends. *)
Definition sched_drain : list action := [Dispatch; Dispatch; Work 0; Dispatch].


(** The file is enqueued, handled, and the stopping loop runs to its end. *)
Definition sched_complete : list action :=
  [Dispatch; Dispatch; Work 0; Dispatch]
    ++ replicate 10 Dispatch ++ [Work 0; Dispatch; Dispatch].

(** A capability that copies: the destination holds the source path. *)
Definition cap_copy : capability := λ src dest f,
  (Returned true "" ∅, mkFS (<[dest := src]> (files f)) (dirs f)).

(** Three files whose names differ in the case of the extension only: they
    share one destination. *)
Definition self_collide : Self := self_with cap_copy None (Some []) 1.

Definition tree_collide : tree := Dir ["1.JPG"; "1.Jpg"; "1.jpg"] [].

(** Two files are enqueued, the worker handles the first, the dispatcher
    skips the third, the worker handles the second. *)
Definition sched_collide_skip : list action :=
  [Dispatch; Dispatch; Dispatch; Dispatch; Work 0].

(** One worker, a log with one attribute column, and a capability that
    raises, or returns an undeclared attribute. *)
Definition self_fault : Self :=
  self_with cap_raises (Some "meta.csv") (Some ["width"]) 1.

Definition self_extra : Self :=
  self_with cap_extra (Some "meta.csv") (Some ["width"]) 1.


(** Two images, one of them in a sub-directory with an upper-case
    extension, a text file, and a file whose name is an extension only. *)
Definition tree_example : tree :=
  Dir ["a.jpg"; "notes.txt"] [("sub", Dir ["b.JPG"; ".jpg"] [])].

(** No worker, one file. *)
Definition self_idle : Self := self_with cap_raises None (Some []) 0.

(** A capability that writes part of its output and then reports failure. *)
Definition cap_gives_up : capability := λ _ dest f,
  (Returned false "bad image" ∅, mkFS (<[dest := "partial"]> (files f)) (dirs f)).

(** One worker, a log with one attribute column, and that capability. *)
Definition self_gives_up : Self :=
  self_with cap_gives_up (Some "meta.csv") (Some ["width"]) 1.



(** * Properties *)

Ltac munfold :=
  repeat progress
    unfold mbind, M_bind, mret, M_ret, raise, modify, print_with_lock, print,
      not_none, str_head in *.

(** ** The constructor *)

Lemma usage_example_constructed : constructed self_usage_example.
Proof. exists id, args_usage_example, empty_world. eexists. by vm_compute. Qed.

(** What [__init__] leaves in the object, by the two shapes of the
    metadata arguments. *)
Lemma constructed_inv self :
  constructed self →
  match metadata_filename self with
  | None => column_order self = None ∧ csv_file_path self = None
  | Some _ =>
      ∃ raw p,
        column_order self = Some (reserved_columns ++ raw)
        ∧ metadata_columns self = Some (foldl remove_if_in raw reserved_columns)
        ∧ csv_file_path self = Some p
  end.
Proof.
  intros (abspath & a & w & w' & Hinit).
  unfold __init__ in Hinit. munfold.
  repeat (case_match; simplify_eq/=); eauto.
Qed.


Lemma list_remove_elem k l l' x :
  list_remove k l = Some l' → x ∈ l ↔ x = k ∨ x ∈ l'.
Proof.
  revert l'. induction l as [|y l IH]; intros l' Hrm; simpl in Hrm; [done|].
  case_bool_decide.
  - simplify_eq. by rewrite elem_of_cons.
  - destruct (list_remove k l) as [l0|]; simplify_eq/=.
    rewrite !elem_of_cons, (IH l0) by done. tauto.
Qed.

Lemma list_remove_is_Some k l : k ∈ l → is_Some (list_remove k l).
Proof.
  induction l as [|y l IH]; [by intros ?%elem_of_nil|].
  intros Hin. simpl. case_bool_decide; [eauto|].
  apply elem_of_cons in Hin as [->|Hin]; [done|].
  destruct (IH Hin) as [l' ->]. eauto.
Qed.

Lemma remove_if_in_elem l k x :
  x ∈ l ↔ x ∈ remove_if_in l k ∨ (x = k ∧ k ∈ l).
Proof.
  unfold remove_if_in. case_bool_decide as Hk; [|naive_solver].
  destruct (list_remove_is_Some k l Hk) as [l' Hl']. rewrite Hl'. simpl.
  rewrite (list_remove_elem k l l' x Hl'). naive_solver.
Qed.

(** Stripping touches reserved names only: as sets, the stripped list and
    the user's list agree once the reserved names are added. *)
Lemma stripped_columns_set (raw : list string) :
  reserved_set ∪ list_to_set (foldl remove_if_in raw reserved_columns)
  = reserved_set ∪ (list_to_set raw : gset string).
Proof.
  unfold reserved_set, reserved_columns. simpl.
  apply set_eq. intros x.
  rewrite !elem_of_union, !elem_of_list_to_set, !elem_of_singleton.
  pose proof (remove_if_in_elem raw "path" x).
  pose proof (remove_if_in_elem (remove_if_in raw "path") "success" x).
  pose proof (remove_if_in_elem
                (remove_if_in (remove_if_in raw "path") "success") "message" x).
  set_solver.
Qed.

(** A user list without reserved names is taken as it is. *)
Lemma stripped_columns_id (raw : list string) :
  (∀ k, k ∈ reserved_columns → k ∉ raw) →
  foldl remove_if_in raw reserved_columns = raw.
Proof.
  intros Hno. unfold reserved_columns in *. simpl. unfold remove_if_in.
  rewrite (bool_decide_eq_false_2 ("path" ∈ raw)) by (apply Hno; set_solver).
  rewrite (bool_decide_eq_false_2 ("success" ∈ raw)) by (apply Hno; set_solver).
  by rewrite (bool_decide_eq_false_2 ("message" ∈ raw)) by (apply Hno; set_solver).
Qed.

(** C1, at the input [metadata_columns=['path', 'width']]: the reserved name
    is removed from the copy kept in [self.metadata_columns], yet the column
    order is built from the caller's list, so [path] is a column twice. *)
Theorem column_order_repeats_reserved_name abspath w :
  ∃ self w',
    __init__ abspath args_reserved_column w = (Ok self, w')
    ∧ metadata_columns self = Some ["width"]
    ∧ column_order self = Some ["path"; "success"; "message"; "path"; "width"]
    ∧ ¬ NoDup (default [] (column_order self)).
Proof.
  unfold __init__. munfold. simpl.
  eexists _, _. split; [reflexivity|]. simpl. split_and!; [done..|].
  intros Hnd. apply NoDup_cons in Hnd as [Hnot _]. apply Hnot. set_solver.
Qed.

(** ** [write_metadata] *)

Lemma getitems_present (metadata : dict) ks w :
  (∀ k, k ∈ ks → k ∈ dom metadata) →
  ∃ row, Forall2 (λ k v, metadata !! k = Some v) ks row
         ∧ getitems metadata ks w = (Ok row, w).
Proof.
  induction ks as [|k ks IH]; intros Hin; simpl.
  - exists []. by split; [constructor|].
  - destruct (IH) as (row & Hrow & Hget); [intros; apply Hin; set_solver|].
    assert (Hk : k ∈ dom metadata) by (apply Hin; set_solver).
    apply elem_of_dom in Hk as [v Hv]. rewrite Hv.
    exists (v :: row). split; [by constructor|].
    munfold. by rewrite Hget.
Qed.

Lemma open_append_close p text w :
  (file_open_a p;; file_write p text;; file_close p) w
  = (Ok tt, set_fs (append_text p text) w).
Proof.
  unfold file_open_a, file_write, file_close, append_text. munfold.
  destruct w as [[fl ds] out lk hs]. unfold set_fs, set_open_handles. simpl.
  rewrite bool_decide_eq_true_2 by done. simpl.
  by rewrite lookup_insert_eq, insert_insert_eq.
Qed.

Lemma write_metadata_unfold self (metadata : dict) w fn co p :
  metadata_filename self = Some fn →
  column_order self = Some co →
  csv_file_path self = Some p →
  write_metadata self metadata w
  = if bool_decide (dom metadata = list_to_set co)
    then (row ← getitems metadata co;
          file_open_a p;; file_write p (csv.writerow row);; file_close p) w
    else (Raise AssertionError, w).
Proof.
  intros Hfn Hco Hp. unfold write_metadata. rewrite Hfn, Hco, Hp.
  munfold. cbv beta iota. case_bool_decide; [|done].
  by destruct (getitems metadata co w) as [[]].
Qed.

(** [write_metadata] on an object the constructor returned: nothing
    without a log; with one, the assertion or one appended record. *)
Lemma write_metadata_constructed self (metadata : dict) w :
  constructed self →
  match metadata_filename self with
  | None => write_metadata self metadata w = (Ok tt, w)
  | Some _ =>
      ∃ co p,
        column_order self = Some co ∧ csv_file_path self = Some p
        ∧ (dom metadata ≠ list_to_set co →
           write_metadata self metadata w = (Raise AssertionError, w))
        ∧ (dom metadata = list_to_set co →
           ∃ row,
             Forall2 (λ k v, metadata !! k = Some v) co row
             ∧ write_metadata self metadata w
               = (Ok tt, set_fs (append_text p (csv.writerow row)) w))
  end.
Proof.
  intros Hc. apply constructed_inv in Hc.
  destruct (metadata_filename self) as [fn|] eqn:Hfn; [|by unfold write_metadata; rewrite Hfn].
  destruct Hc as (raw & p & Hco & _ & Hp).
  revert Hco. generalize (reserved_columns ++ raw). intros co Hco.
  exists co, p.
  rewrite (write_metadata_unfold self metadata w fn _ p Hfn Hco Hp).
  split_and!; [done..| |].
  - intros Hne. by rewrite bool_decide_eq_false_2.
  - intros Hdom. rewrite bool_decide_eq_true_2 by done.
    destruct (getitems_present metadata co w) as (row & Hrow & Hget).
    { intros k Hk. rewrite Hdom. by apply elem_of_list_to_set. }
    exists row. split; [done|].
    pose proof (open_append_close p (csv.writerow row) w) as Hoc.
    munfold. by rewrite Hget.
Qed.


(** ** The worker's handling of one item *)

Lemma self_with_constructed cap fn cols n :
  (fn = None ∨ is_Some cols) → constructed (self_with cap fn cols n).
Proof.
  intros Hok. exists id, (args_with cap fn cols n), empty_world.
  unfold __init__. munfold.
  destruct fn as [fn|]; [destruct cols as [cols|]|].
  - cbn. eexists. reflexivity.
  - by destruct Hok as [|[]].
  - cbn. eexists. reflexivity.
Qed.

Lemma pad_lookup cols (md : dict) c :
  pad cols md !! c
  = match md !! c with
    | Some v => Some v
    | None => if bool_decide (c ∈ cols) then Some PyNone else None
    end.
Proof.
  unfold pad. revert md. induction cols as [|x cols IH]; intros md; simpl.
  - destruct (md !! c); reflexivity.
  - rewrite IH. clear IH. destruct (decide (x ∈ dom md)) as [Hx|Hx].
    + rewrite (bool_decide_eq_true_2 (x ∈ dom md)) by done.
      destruct (md !! c) eqn:Hc; [done|].
      assert (c ≠ x) by (intros ->; apply elem_of_dom in Hx as [? ?]; congruence).
      rewrite (bool_decide_ext (c ∈ cols) (c ∈ x :: cols)); [done|set_solver].
    + rewrite (bool_decide_eq_false_2 (x ∈ dom md)) by done.
      destruct (decide (c = x)) as [->|Hne].
      * rewrite lookup_insert_eq.
        apply not_elem_of_dom in Hx. rewrite Hx.
        rewrite bool_decide_eq_true_2; [done|set_solver].
      * rewrite lookup_insert_ne by done.
        destruct (md !! c); [done|].
        rewrite (bool_decide_ext (c ∈ cols) (c ∈ x :: cols)); [done|set_solver].
Qed.

Lemma pad_dom cols (md : dict) :
  dom (pad cols md) = dom md ∪ list_to_set cols.
Proof.
  apply set_eq. intros c.
  rewrite elem_of_union, elem_of_list_to_set, !elem_of_dom, pad_lookup.
  destruct (md !! c) eqn:Hc.
  - split; eauto.
  - case_bool_decide; split; naive_solver.
Qed.

Lemma try_preprocess_eq self src_path dest_path w :
  try_preprocess self src_path dest_path w
  = (Ok (observed (preprocess_fn self src_path dest_path (fs w)).1),
     after_try src_path dest_path
       (preprocess_fn self src_path dest_path (fs w)).1
       (preprocess_fn self src_path dest_path (fs w)).2 w).
Proof.
  unfold try_preprocess, after_try, observed.
  destruct (preprocess_fn self src_path dest_path (fs w)) as [[[] msg md|tb] f'];
    simpl.
  - done.
  - unfold file_open_w, file_close. munfold.
    destruct w. unfold set_stdout, set_open_handles, set_fs. simpl.
    by rewrite bool_decide_eq_true_2 by done.
  - munfold. destruct w. unfold set_stdout, set_fs. simpl.
    by rewrite <- app_assoc.
Qed.

Lemma build_row_eq self pid src_path dest_path w :
  build_row self pid (src_path, dest_path) w
  = let o := (preprocess_fn self src_path dest_path (fs w)).1 in
    let f' := (preprocess_fn self src_path dest_path (fs w)).2 in
    let w' := after_try src_path dest_path o f'
                (set_stdout (λ out, out ++ [MsgWillProcess pid src_path]) w) in
    match metadata_columns self with
    | Some cols => (Ok (finish_row self cols src_path (observed o)), w')
    | None => (Raise TypeError, w')
    end.
Proof.
  unfold build_row. munfold. cbv beta iota.
  rewrite try_preprocess_eq. simpl.
  by destruct (metadata_columns self).
Qed.

Lemma finish_row_dom self cols src_path success message (attrs : dict) :
  dom (finish_row self cols src_path (success, message, attrs))
  = reserved_set ∪ list_to_set cols ∪ dom attrs.
Proof.
  unfold finish_row, reserved_set, reserved_columns.
  rewrite !dom_insert_L, pad_dom. simpl. set_solver.
Qed.

Lemma str_drop_app a b : str_drop (String.length a) (a +:+ b) = b.
Proof. induction a as [|c a IH]; [done|]. simpl. exact IH. Qed.

Lemma str_length_app a b :
  String.length (a +:+ b) = (String.length a + String.length b)%nat.
Proof. induction a as [|c a IH]; [done|]. simpl. by rewrite <- IH. Qed.

Lemma str_app_assoc a b c : (a +:+ b) +:+ c = a +:+ b +:+ c.
Proof. induction a as [|x a IH]; [done|]. simpl. unfold String.app in *. simpl. by rewrite IH. Qed.

(** Dropping [len(src_dir) + 1] characters leaves the relative path. *)
Lemma relative_path src_dir rel :
  str_drop (String.length src_dir + 1) (src_dir +:+ "/" +:+ rel) = rel.
Proof.
  replace (String.length src_dir + 1)%nat with (String.length (src_dir +:+ "/")).
  - rewrite <- str_app_assoc. apply str_drop_app.
  - by rewrite str_length_app.
Qed.

(** The finished row, field by field. *)
Lemma finish_row_spec self cols src_path success message (attrs : dict) :
  constructed self →
  metadata_columns self = Some cols →
  let row := finish_row self cols src_path (success, message, attrs) in
  (∀ co, column_order self = Some co →
     list_to_set co = reserved_set ∪ (list_to_set cols : gset string)
     ∧ (dom row = list_to_set co ↔ dom attrs ⊆ list_to_set co))
  ∧ (∀ c, c ∈ cols → c ∉ reserved_columns → c ∉ dom attrs →
       row !! c = Some PyNone)
  ∧ row !! "path"
    = Some (PyStr (str_drop (String.length (src_dir self) + 1) src_path))
  ∧ row !! "success" = Some (PyInt (if success then 1 else 0))
  ∧ row !! "message" = Some (PyStr message).
Proof.
  intros Hc Hcols row.
  pose proof (finish_row_dom self cols src_path success message attrs) as Hdom.
  split_and!.
  - intros co Hco. apply constructed_inv in Hc.
    destruct (metadata_filename self); [|destruct Hc; congruence].
    destruct Hc as (raw & p & Hco' & Hcols' & _).
    assert (Hset : list_to_set co = reserved_set ∪ (list_to_set cols : gset string)).
    { rewrite Hco in Hco'. rewrite Hcols in Hcols'. simplify_eq.
      rewrite list_to_set_app_L. fold reserved_set.
      by rewrite stripped_columns_set. }
    split; [done|]. subst row. rewrite Hdom, Hset. set_solver.
  - intros c Hin Hres Hattr. subst row. unfold finish_row.
    assert (c ≠ "path" ∧ c ≠ "success" ∧ c ≠ "message") as (? & ? & ?).
    { unfold reserved_columns in Hres. set_solver. }
    rewrite !lookup_insert_ne by done. rewrite pad_lookup.
    apply not_elem_of_dom in Hattr. rewrite Hattr.
    by rewrite bool_decide_eq_true_2.
  - subst row. unfold finish_row. do 2 (rewrite lookup_insert_ne by done).
    by rewrite lookup_insert_eq.
  - subst row. unfold finish_row. by rewrite lookup_insert_ne, lookup_insert_eq.
  - subst row. unfold finish_row. by rewrite lookup_insert_eq.
Qed.

(** C6, as the code has it.  For a configuration with a column list, the
    worker builds a row for every item whatever the outcome.  Its keys are
    the configured columns together with every key the capability returned;
    they are exactly the configured columns when the capability returned
    configured names only.  A configured attribute column the capability did
    not return holds [None]; [path] holds the source path without its first
    [len(src_dir) + 1] characters, which is the path relative to [src_dir];
    [success] holds 1 or 0 and [message] the message. *)
Theorem build_row_key_set self pid src_path dest_path w cols
    success message (attrs : dict) :
  constructed self →
  metadata_columns self = Some cols →
  observed (preprocess_fn self src_path dest_path (fs w)).1
    = (success, message, attrs) →
  ∃ row w',
    build_row self pid (src_path, dest_path) w = (Ok row, w')
    ∧ dom row = reserved_set ∪ list_to_set cols ∪ dom attrs
    ∧ (∀ co, column_order self = Some co →
         list_to_set co = reserved_set ∪ (list_to_set cols : gset string)
         ∧ (dom row = list_to_set co ↔ dom attrs ⊆ list_to_set co))
    ∧ (∀ c, c ∈ cols → c ∉ reserved_columns → c ∉ dom attrs →
         row !! c = Some PyNone)
    ∧ row !! "path"
      = Some (PyStr (str_drop (String.length (src_dir self) + 1) src_path))
    ∧ (∀ rel, src_path = src_dir self +:+ "/" +:+ rel →
         row !! "path" = Some (PyStr rel))
    ∧ row !! "success" = Some (PyInt (if success then 1 else 0))
    ∧ row !! "message" = Some (PyStr message).
Proof.
  intros Hc Hcols Hobs. rewrite build_row_eq. cbv zeta. rewrite Hcols, Hobs.
  eexists _, _. split; [reflexivity|].
  destruct (finish_row_spec self cols src_path success message attrs Hc Hcols)
    as (Hco & Hnull & Hpath & Hsucc & Hmsg).
  split_and!; [apply finish_row_dom|done..| |done|done].
  intros rel ->. rewrite Hpath. by rewrite relative_path.
Qed.

Lemma build_row_key_set_witness :
  ∃ row w',
    build_row self_usage_example 0
      ("/data/testimgs/a/1.jpg", "/data/testimgs_out/a/1.jpg") empty_world
    = (Ok row, w')
    ∧ row !! "path" = Some (PyStr "a/1.jpg").
Proof.
  destruct (build_row_key_set self_usage_example 0
              "/data/testimgs/a/1.jpg" "/data/testimgs_out/a/1.jpg"
              empty_world ["width"; "height"] true ""
              (<["width" := PyInt 10]> (<["height" := PyInt 20]> ∅)))
    as (row & w' & Hrow & _ & _ & _ & _ & Hrel & _).
  - exists id, args_usage_example, empty_world. eexists. by vm_compute.
  - reflexivity.
  - reflexivity.
  - exists row, w'. split; [exact Hrow|]. by apply Hrel.
Defined.

(** C6 fails as stated: an attribute outside the column list stays in the
    row, whose keys then differ from the configured columns. *)
Lemma build_row_keeps_extra_key :
  ∃ row w' co,
    build_row self_extra 0 ("/src/a.jpg", "/out/a.png") empty_world = (Ok row, w')
    ∧ column_order self_extra = Some co
    ∧ dom row ≠ list_to_set co.
Proof.
  rewrite build_row_eq. cbv zeta.
  eexists _, _, _. split; [reflexivity|]. split; [reflexivity|].
  intros Heq. apply (bool_decide_pack _) in Heq. by vm_compute in Heq.
Qed.

Lemma Forall2_lookup_fmap (md : dict) (f : string → pyval) ks row :
  Forall2 (λ k v, md !! k = Some v) ks row →
  (∀ k, k ∈ ks → md !! k = Some (f k)) →
  row = f <$> ks.
Proof.
  induction 1 as [|k v ks row Hk _ IH]; intros Hf; [done|].
  simpl. f_equal.
  - specialize (Hf k). rewrite Hk in Hf. injection Hf; [done|set_solver].
  - apply IH. intros k' Hk'. apply Hf. set_solver.
Qed.

(** The row of a faulted item, column by column. *)
Lemma fault_row_lookup self cols src_path k :
  k ∈ reserved_columns ∨ k ∈ cols →
  finish_row self cols src_path (false, "", ∅) !! k
  = Some (fault_value self src_path k).
Proof.
  intros Hk. unfold finish_row, fault_value.
  destruct (decide (k = "message")) as [->|Hm].
  { by rewrite lookup_insert_eq. }
  rewrite lookup_insert_ne by done.
  destruct (decide (k = "success")) as [->|Hs].
  { by rewrite lookup_insert_eq. }
  rewrite lookup_insert_ne by done.
  destruct (decide (k = "path")) as [->|Hp].
  { by rewrite lookup_insert_eq. }
  rewrite lookup_insert_ne by done.
  rewrite !bool_decide_eq_false_2 by done.
  rewrite pad_lookup, lookup_empty.
  rewrite bool_decide_eq_true_2; [done|].
  destruct Hk as [Hk|Hk]; [|done]. unfold reserved_columns in Hk. set_solver.
Qed.

Lemma worker_item_fault self pid src_path dest_path w tb f' cols :
  constructed self →
  metadata_columns self = Some cols →
  csv_lock w = false →
  preprocess_fn self src_path dest_path (fs w) = (Raised tb, f') →
  worker_item self pid (src_path, dest_path) w
  = (Ok tt,
     mkWorld
       (match csv_file_path self, column_order self with
        | Some p, Some co =>
            append_text p (csv.writerow (fault_value self src_path <$> co)) f'
        | _, _ => f'
        end)
       (stdout w ++ [MsgWillProcess pid src_path; MsgErrorHappened src_path;
                     MsgTraceback tb])
       false (open_handles w)).
Proof.
  intros Hc Hcols Hlock Hcap. unfold worker_item.
  unfold mbind, M_bind. rewrite build_row_eq. cbv zeta.
  rewrite Hcols, Hcap. cbn [fst snd observed after_try].
  unfold csv_lock_acquire, csv_lock_release. munfold. cbn [csv_lock set_stdout set_fs].
  rewrite Hlock.
  match goal with
  | |- context [write_metadata self ?md ?w1] =>
      pose proof (write_metadata_constructed self md w1 Hc) as Hwm;
      pose proof (constructed_inv self Hc) as Hinv
  end.
  destruct (metadata_filename self) as [fn|].
  - destruct Hinv as (raw & p & Hco & Hcols' & Hp).
    destruct Hwm as (co & p' & Hco' & Hp' & _ & Hok).
    rewrite Hco in Hco'. rewrite Hp in Hp'. simplify_eq.
    destruct Hok as (row & Hrow & ->).
    { rewrite finish_row_dom, list_to_set_app_L. fold reserved_set.
      rewrite stripped_columns_set. set_solver. }
    rewrite Hco, Hp.
    apply (Forall2_lookup_fmap _ (fault_value self src_path)) in Hrow as ->.
    + destruct w. simpl in *. unfold set_csv_lock, set_fs. simpl.
      by rewrite <- app_assoc.
    + intros k Hk. apply fault_row_lookup.
      apply elem_of_app in Hk as [Hk|Hk]; [by left|].
      destruct (decide (k ∈ reserved_columns)) as [|Hres]; [by left|right].
      assert (Hin : k ∈ reserved_set ∪ (list_to_set raw : gset string)) by set_solver.
      rewrite <- stripped_columns_set in Hin.
      unfold reserved_set in Hin. set_solver.
  - destruct Hinv as [Hco Hp]. rewrite Hwm, Hp.
    destruct w. simpl in *. unfold set_csv_lock. simpl.
    by rewrite <- app_assoc.
Qed.

(** C2, as the code has it.  When the capability raises for the dequeued
    item (the column list configured, the log lock free), the worker reports
    the fault and its traceback, appends the row with [success=0], the empty
    message and [None] in every attribute column when a log is configured,
    and stays in its loop at the next queue entry.  It writes no placeholder:
    apart from the log, every file is as the capability left it. *)
Theorem worker_recovers_from_fault self i s q src_path dest_path tb f' cols :
  constructed self →
  metadata_columns self = Some cols →
  csv_lock (world s) = false →
  procs s !! i = Some Running →
  queue s = Some (src_path, dest_path) :: q →
  preprocess_fn self src_path dest_path (fs (world s)) = (Raised tb, f') →
  ∃ s',
    worker_step self i s = Some s'
    ∧ procs s' !! i = Some Running ∧ queue s' = q ∧ pc s' = pc s
    ∧ stdout (world s')
      = stdout (world s) ++ [MsgWillProcess i src_path;
                             MsgErrorHappened src_path; MsgTraceback tb]
    ∧ csv_lock (world s') = false
    ∧ open_handles (world s') = open_handles (world s)
    ∧ fs (world s')
      = match csv_file_path self, column_order self with
        | Some p, Some co =>
            append_text p (csv.writerow (fault_value self src_path <$> co)) f'
        | _, _ => f'
        end
    ∧ (csv_file_path self ≠ Some dest_path →
       files (fs (world s')) !! dest_path = files f' !! dest_path).
Proof.
  intros Hc Hcols Hlock Hi Hq Hcap.
  unfold worker_step. rewrite Hi, Hq.
  rewrite (worker_item_fault self i src_path dest_path (world s) tb f' cols)
    by done.
  eexists. split; [reflexivity|]. cbn.
  split_and!; try done.
  - apply list_lookup_insert_eq. by eapply lookup_lt_Some.
  - intros Hne. destruct (csv_file_path self) as [p|]; [|done].
    destruct (column_order self); [|done].
    unfold append_text. cbn. rewrite lookup_insert_ne; [done|congruence].
Qed.

Lemma worker_recovers_from_fault_witness :
  ∃ s',
    worker_step self_fault 0
      (set_queue [Some ("/src/a.jpg", "/out/a.png")]
         (init_state self_fault empty_world [])) = Some s'
    ∧ files (fs (world s')) !! "/out/meta.csv"
      = Some (csv.writerow [PyStr "a.jpg"; PyInt 0; PyStr ""; PyNone]).
Proof.
  destruct (worker_recovers_from_fault self_fault 0
              (set_queue [Some ("/src/a.jpg", "/out/a.png")]
                 (init_state self_fault empty_world [])) []
              "/src/a.jpg" "/out/a.png" "boom" (mkFS ∅ ∅) ["width"])
    as (s' & Hstep & _ & _ & _ & _ & _ & _ & Hfs & _).
  - apply self_with_constructed. right. by eexists.
  - reflexivity.
  - reflexivity.
  - reflexivity.
  - reflexivity.
  - reflexivity.
  - exists s'. split; [exact Hstep|]. rewrite Hfs. reflexivity.
Defined.

(** C2 fails as stated: after a fault nothing exists at the destination. *)
Lemma fault_leaves_no_placeholder :
  ∃ w',
    worker_item self_fault 0 ("/src/a.jpg", "/out/a.png") empty_world = (Ok tt, w')
    ∧ files (fs w') !! "/out/a.png" = None
    ∧ fs_exists (fs w') "/out/a.png" = false.
Proof. eexists. split; [by vm_compute|]. by vm_compute. Qed.

(** ** Steps of a run *)

Lemma exec_app self acts1 acts2 s :
  exec self (acts1 ++ acts2) s
  = match exec self acts1 s with
    | Some s' => exec self acts2 s'
    | None => None
    end.
Proof.
  revert s. induction acts1 as [|a acts1 IH]; intros s; simpl; [done|].
  destruct (step self a s); [apply IH|done].
Qed.

(** A property that holds initially and is kept by every step holds in
    every state of the run. *)
Lemma exec_invariant self (I : RunState → Prop) s0 :
  I s0 →
  (∀ a s s', I s → step self a s = Some s' → I s') →
  ∀ acts s, exec self acts s0 = Some s → I s.
Proof.
  intros H0 Hstep acts. revert s0 H0.
  induction acts as [|a acts IH]; intros s0 H0 s Hexec; simpl in Hexec.
  - by simplify_eq.
  - destruct (step self a s0) as [s1|] eqn:Hs1; [|done]. eauto.
Qed.

Lemma worker_step_inv self i s s' :
  worker_step self i s = Some s' →
  procs s !! i = Some Running
  ∧ ∃ next q,
      queue s = next :: q
      ∧ match next with
        | None =>
            s' = mkRun (set_stdout (λ out, out ++ [MsgGotTermination i]) (world s))
                   q (pc s) (cur_dirs s) (count s) (<[i := Exited]> (procs s))
                   (enqueued s) (handled s) (skipped s)
        | Some it =>
            s' = mkRun (worker_item self i it (world s)).2
                   q (pc s) (cur_dirs s) (count s)
                   (<[i := status_after (worker_item self i it (world s)).1]> (procs s))
                   (enqueued s) (handled s ++ [(i, it)]) (skipped s)
        end.
Proof.
  unfold worker_step. intros Hstep.
  destruct (procs s !! i) as [[]|]; try done.
  destruct (queue s) as [|next q]; [done|].
  split; [done|]. exists next, q. split; [done|].
  destruct next as [it|]; [|by simplify_eq].
  destruct (worker_item self i it (world s)). by simplify_eq.
Qed.

(** The dispatcher touches neither the workers nor the record of what
    they handled. *)
Lemma dispatcher_step_workers self s s' :
  dispatcher_step self s = Some s' →
  procs s' = procs s ∧ handled s' = handled s.
Proof.
  unfold dispatcher_step, drain_next. intros Hstep.
  repeat (case_match; simplify_eq/=); done.
Qed.

Lemma worker_item_no_columns self pid next w :
  metadata_columns self = None →
  ∃ w', worker_item self pid next w = (Raise TypeError, w')
        ∧ csv_lock w' = csv_lock w.
Proof.
  intros Hcols. destruct next as [src_path dest_path].
  unfold worker_item, mbind, M_bind. rewrite build_row_eq. cbv zeta.
  rewrite Hcols. eexists. split; [reflexivity|].
  unfold after_try. by repeat case_match.
Qed.



(** ** The enumerator *)

Lemma startswith_refl s : startswith s s = true.
Proof. induction s as [|a s IH]; [done|]. simpl. by rewrite bool_decide_eq_true_2. Qed.

Lemma startswith_app s t : startswith (s +:+ t) s = true.
Proof. induction s as [|a s IH]; [done|]. simpl. by rewrite bool_decide_eq_true_2. Qed.

Lemma startswith_trans a b c :
  startswith b a = true → startswith c b = true → startswith c a = true.
Proof.
  revert b c. induction a as [|x a IH]; intros b c; [done|].
  destruct b as [|y b]; [done|]. destruct c as [|z c]; [done|]. simpl.
  rewrite !andb_true_iff, !bool_decide_eq_true.
  intros [-> Hab] [-> Hbc]. eauto.
Qed.

Lemma valid_name_no_sep n : valid_name n → startswith n "/" = false.
Proof.
  intros [Hne Hsep]. destruct n as [|a n]; [done|]. simpl in *.
  destruct (rfind _ n); [done|].
  case_bool_decide as Ha; [done|].
  rewrite andb_true_r. apply bool_decide_eq_false_2. intros <-. by apply Ha.
Qed.

Lemma join_startswith top n :
  valid_name n → startswith (os_path.join top n) top = true.
Proof.
  intros Hn. unfold os_path.join. rewrite (valid_name_no_sep n Hn).
  destruct (_ || _); apply startswith_app.
Qed.

Lemma tree_induction (P : tree → Prop) :
  (∀ filenames subdirs, Forall (λ d, P d.2) subdirs → P (Dir filenames subdirs)) →
  ∀ t, P t.
Proof.
  intros H. fix IH 1. intros [filenames subdirs]. apply H.
  induction subdirs as [|[n t] ds IHds]; constructor; [apply IH|exact IHds].
Qed.

Lemma walk_files_app self es1 es2 :
  Forall (λ e, startswith e.1.1 (src_dir self) = true) es1 →
  walk_files self (es1 ++ es2) = walk_files self es1 ++ walk_files self es2.
Proof.
  induction 1 as [|[[root ds] fs] es1 Hroot _ IH]; [done|].
  simpl in *. rewrite Hroot, IH. by rewrite app_assoc.
Qed.

(** Under a valid tree the walk stays below its top. *)
Lemma os_walk_roots self top t :
  tree_valid t →
  startswith top (src_dir self) = true →
  Forall (λ e, startswith e.1.1 (src_dir self) = true) (os_walk top t).
Proof.
  revert top. induction t as [filenames subdirs IH] using tree_induction.
  intros top [_ Hvalid] Htop. simpl. constructor; [done|].
  induction subdirs as [|[n t] ds IHds]; [constructor|].
  simpl in *. destruct Hvalid as (Hn & Ht & Hds).
  apply Forall_cons in IH as [IHt IHrest].
  apply Forall_app. split; [|by apply IHds].
  apply IHt; [done|]. eapply startswith_trans; [exact Htop|].
  by apply join_startswith.
Qed.

(** What the enumerator yields over a valid tree: the files of the tree
    whose lower-cased extension is [self.input_extension], each joined to its
    directory, in walk order; the generator does not raise. *)
Lemma walk_files_spec self top t :
  tree_valid t →
  startswith top (src_dir self) = true →
  walk_files self (os_walk top t)
  = Yield ∘ (λ df, os_path.join df.1 df.2)
      <$> filter (λ df : string * string,
                    ext_matches (input_extension self) df.2 = true)
                 (tree_files top t).
Proof.
  revert top. induction t as [filenames subdirs IH] using tree_induction.
  intros top [Hfiles Hvalid] Htop. simpl. rewrite Htop.
  rewrite filter_app, fmap_app. f_equal.
  - clear. induction filenames as [|f fs IHf]; [done|].
    rewrite (fmap_cons _ f fs), !filter_cons. cbn [snd].
    destruct (decide (ext_matches (input_extension self) f = true));
      [rewrite !fmap_cons; f_equal|]; exact IHf.
  - induction subdirs as [|[n t] ds IHds]; [done|].
    simpl in *. destruct Hvalid as (Hn & Ht & Hds).
    apply Forall_cons in IH as [IHt IHrest].
    assert (Hsub : startswith (os_path.join top n) (src_dir self) = true).
    { eapply startswith_trans; [exact Htop|]. by apply join_startswith. }
    rewrite walk_files_app by (by apply os_walk_roots).
    rewrite filter_app, fmap_app. f_equal; [by apply IHt|by apply IHds].
Qed.

Lemma yielded_fmap (l : list string) : yielded (Yield <$> l) = l.
Proof. induction l as [|p l IH]; [done|]. rewrite fmap_cons. cbn [yielded]. by f_equal. Qed.

Lemma enumerate_files_spec self t :
  tree_valid t →
  enumerate_files self t
  = Yield ∘ (λ df, os_path.join df.1 df.2)
      <$> filter (λ df : string * string,
                    ext_matches (input_extension self) df.2 = true)
                 (tree_files (src_dir self) t).
Proof. intros Hv. apply walk_files_spec; [done|apply startswith_refl]. Qed.

Lemma tree_files_roots self top t d f :
  tree_valid t →
  startswith top (src_dir self) = true →
  (d, f) ∈ tree_files top t →
  startswith d (src_dir self) = true ∧ valid_name f.
Proof.
  revert top. induction t as [filenames subdirs IH] using tree_induction.
  intros top [Hfiles Hvalid] Htop. simpl. rewrite elem_of_app.
  intros [Hin|Hin].
  - apply list_elem_of_fmap in Hin as (f' & [= -> ->] & Hf).
    split; [done|]. by eapply Forall_forall in Hfiles.
  - induction subdirs as [|[n t] ds IHds]; [by apply elem_of_nil in Hin|].
    simpl in *. destruct Hvalid as (Hn & Ht & Hds).
    apply Forall_cons in IH as [IHt IHrest].
    apply elem_of_app in Hin as [Hin|Hin]; [|by apply IHds].
    eapply IHt; [done| |done].
    eapply startswith_trans; [exact Htop|]. by apply join_startswith.
Qed.

(** Every path the enumerator yields over a valid tree starts with
    [self.src_dir]. *)
Lemma enumerate_files_prefixed self t p :
  tree_valid t →
  p ∈ yielded (enumerate_files self t) →
  startswith p (src_dir self) = true.
Proof.
  intros Hv. rewrite enumerate_files_spec by done.
  rewrite list_fmap_compose, yielded_fmap.
  intros ([d f] & -> & Hin)%list_elem_of_fmap.
  apply list_elem_of_filter in Hin as [_ Hin].
  eapply tree_files_roots in Hin as [Hd Hf]; [|done|apply startswith_refl].
  eapply startswith_trans; [exact Hd|]. by apply join_startswith.
Qed.

(** C8, at [input_extension="JPG"]: the extension of a file is lower-cased
    before the comparison and the configured one is not, so neither [x.JPG]
    nor [x.jpg] is ever yielded. *)
Theorem upper_case_extension_yields_nothing abspath w :
  ∃ self w',
    __init__ abspath args_upper_extension w = (Ok self, w')
    ∧ input_extension self = ".JPG"
    ∧ ext_matches (input_extension self) "x.JPG" = false
    ∧ ext_matches (input_extension self) "x.jpg" = false
    ∧ enumerate_files self (Dir ["x.JPG"; "x.jpg"] []) = [].
Proof.
  unfold __init__. munfold. simpl.
  eexists _, _. split; [reflexivity|]. simpl. split_and!; [done..|].
  unfold enumerate_files. simpl. by rewrite startswith_refl.
Qed.


(** ** The dispatcher's handling of one enumerated path *)

Lemma fs_exists_mono f f' p :
  dom (files f) ⊆ dom (files f') → dirs f ⊆ dirs f' →
  fs_exists f p = true → fs_exists f' p = true.
Proof.
  unfold fs_exists. rewrite !orb_true_iff, !bool_decide_eq_true. set_solver.
Qed.

Lemma dispatcher_frame_refl w : dispatcher_frame w w.
Proof. repeat split; try done. exists []. by rewrite app_nil_r. Qed.

Lemma dispatcher_frame_trans w1 w2 w3 :
  dispatcher_frame w1 w2 → dispatcher_frame w2 w3 → dispatcher_frame w1 w3.
Proof.
  intros (Hf & Hd & Hl & Hh & m1 & Ho) (Hf' & Hd' & Hl' & Hh' & m2 & Ho').
  repeat split; try congruence; [set_solver|].
  exists (m1 ++ m2). by rewrite Ho', Ho, app_assoc.
Qed.

Lemma dispatcher_frame_print w m :
  dispatcher_frame w (set_stdout (λ out, out ++ [m]) w).
Proof. repeat split; try done. by exists [m]. Qed.

Lemma enter_dir_spec self dir w :
  ∃ w1, enter_dir self dir w = (Ok (dir, mirror_dir self dir), w1)
        ∧ dispatcher_frame w w1.
Proof.
  unfold enter_dir, path_exists, makedirs. munfold. cbv beta iota zeta.
  destruct (fs_exists (fs w) (mirror_dir self dir)); cbn [negb].
  - eexists. split; [reflexivity|apply dispatcher_frame_refl].
  - eexists. split; [reflexivity|].
    repeat split; try done; [cbn; set_solver|]. by eexists [_].
Qed.

(** The loop body up to the [queue.put]: the world changes within the
    dispatcher's frame, the current directories become the directory of the
    path and its mirror, and the path is skipped exactly when its mapped
    destination exists. *)
Lemma examine_spec self cur count src_path w :
  cur_dirs_ok self cur →
  ∃ w1,
    dispatcher_frame w w1
    ∧ examine self cur count src_path w
      = (Ok ((os_path.split src_path).1,
             mirror_dir self (os_path.split src_path).1,
             if fs_exists (fs w1) (dest_path_of self src_path) then None
             else Some (src_path, dest_path_of self src_path)),
         if fs_exists (fs w1) (dest_path_of self src_path)
         then set_stdout (λ out, out ++ [MsgSkipping (dest_filename_of self src_path)]) w1
         else w1).
Proof.
  intros Hcur. unfold examine, dest_path_of, dest_filename_of.
  destruct (os_path.split src_path) as [dir filename] eqn:Hsplit.
  cbn [fst snd].
  destruct (os_path.splitext filename) as [filebase ext] eqn:Hext.
  cbn [fst snd].
  set (progress := if bool_decide (0 < count)%nat && bool_decide (count `mod` 1000 = 0)%nat
                   then print_with_lock (MsgProgress count) else mret tt).
  assert (∃ w0, progress w = (Ok tt, w0) ∧ dispatcher_frame w w0) as (w0 & Hw0 & Hf0).
  { subst progress. destruct (_ && _).
    - eexists. split; [reflexivity|apply dispatcher_frame_print].
    - eexists. split; [reflexivity|apply dispatcher_frame_refl]. }
  assert (∃ w1, (match cur with
                 | Some (cur_src_dir, cur_dest_dir) =>
                     if bool_decide (cur_src_dir ≠ dir) then enter_dir self dir
                     else mret (cur_src_dir, cur_dest_dir)
                 | None => enter_dir self dir
                 end) w0 = (Ok (dir, mirror_dir self dir), w1)
                ∧ dispatcher_frame w0 w1) as (w1 & Hw1 & Hf1).
  { destruct cur as [[d dd]|]; [|apply enter_dir_spec].
    case_bool_decide as Hd; [apply enter_dir_spec|].
    subst d. rewrite (Hcur dir dd eq_refl).
    eexists. split; [reflexivity|apply dispatcher_frame_refl]. }
  exists w1. split; [by eapply dispatcher_frame_trans|].
  unfold mbind, M_bind at 1. rewrite Hw0.
  unfold mbind, M_bind at 1. rewrite Hw1. cbn [snd].
  unfold path_exists. munfold. cbv beta iota.
  destruct (fs_exists (fs w1) (os_path.join _ _)); reflexivity.
Qed.

(** The cases of a dispatcher step. *)
Lemma dispatcher_step_inv self s s' :
  cur_dirs_ok self (cur_dirs s) →
  dispatcher_step self s = Some s' →
  (pc s = Enumerating [] ∧ s' = drain_next (seq 0 (length (procs s))) s)
  ∨ (∃ e g, pc s = Enumerating (GenRaise e :: g) ∧ s' = set_pc (Aborted e) s)
  ∨ (∃ p g w1,
       pc s = Enumerating (Yield p :: g)
       ∧ dispatcher_frame (world s) w1
       ∧ fs_exists (fs w1) (dest_path_of self p) = true
       ∧ s' = mkRun (set_stdout (λ out, out ++ [MsgSkipping (dest_filename_of self p)]) w1)
                (queue s) (Enumerating g)
                (Some ((os_path.split p).1, mirror_dir self (os_path.split p).1))
                (count s) (procs s) (enqueued s) (handled s) (skipped s ++ [p]))
  ∨ (∃ p g w1,
       pc s = Enumerating (Yield p :: g)
       ∧ dispatcher_frame (world s) w1
       ∧ fs_exists (fs w1) (dest_path_of self p) = false
       ∧ s' = mkRun w1 (queue s) (Putting (p, dest_path_of self p) g)
                (Some ((os_path.split p).1, mirror_dir self (os_path.split p).1))
                (count s) (procs s) (enqueued s) (handled s) (skipped s))
  ∨ (∃ next g,
       pc s = Putting next g
       ∧ queue_full (queue s) = false
       ∧ s' = mkRun (world s) (queue s ++ [Some next]) (Enumerating g)
                (cur_dirs s) (S (count s)) (procs s)
                (enqueued s ++ [next]) (handled s) (skipped s))
  ∨ (∃ alive,
       pc s = Draining alive
       ∧ queue_full (queue s) = true
       ∧ s' = drain_next (poll_pass (worker_dead s) alive).1
                (set_world
                   (set_stdout
                      (λ out, out ++ (MsgProcessDead
                                        <$> (poll_pass (worker_dead s) alive).2))
                      (world s)) s))
  ∨ (∃ alive,
       pc s = Draining alive
       ∧ queue_full (queue s) = false
       ∧ s' = set_queue (queue s ++ [None]) s).
Proof.
  intros Hcur. unfold dispatcher_step. intros Hstep.
  destruct (pc s) as [[|[p|e] g]|next g|alive| |] eqn:Hpc; try done.
  - left. by simplify_eq.
  - destruct (examine_spec self (cur_dirs s) (count s) p (world s) Hcur)
      as (w1 & Hframe & Hex).
    rewrite Hex in Hstep.
    destruct (fs_exists (fs w1) (dest_path_of self p)) eqn:Hexists; simplify_eq.
    + do 2 right. left. by exists p, g, w1.
    + do 3 right. left. by exists p, g, w1.
  - right. left. exists e, g. by simplify_eq.
  - do 4 right. left. exists next, g.
    destruct (queue_full (queue s)); [done|]. by simplify_eq.
  - destruct (queue_full (queue s)) eqn:Hfull.
    + do 5 right. left. exists alive.
      destruct (poll_pass (worker_dead s) alive). by simplify_eq.
    + do 6 right. exists alive. by simplify_eq.
Qed.

Lemma drain_next_fields alive s :
  let s' := drain_next alive s in
  queue s' = queue s ∧ cur_dirs s' = cur_dirs s ∧ count s' = count s
  ∧ procs s' = procs s ∧ enqueued s' = enqueued s ∧ handled s' = handled s
  ∧ skipped s' = skipped s
  ∧ fs (world s') = fs (world s) ∧ csv_lock (world s') = csv_lock (world s)
  ∧ open_handles (world s') = open_handles (world s)
  ∧ pc s' = match alive with [] => Done | _ => Draining alive end.
Proof. by destruct alive. Qed.

(** The mirror invariant of the current directories. *)
Lemma step_cur_dirs_ok self a s s' :
  cur_dirs_ok self (cur_dirs s) →
  step self a s = Some s' →
  cur_dirs_ok self (cur_dirs s').
Proof.
  intros Hcur Hstep. destruct a as [|i]; simpl in Hstep.
  - apply dispatcher_step_inv in Hstep; [|done].
    destruct Hstep as [(_ & ->)|[(e & g & _ & ->)|[(p & g & w1 & _ & _ & _ & ->)
      |[(p & g & w1 & _ & _ & _ & ->)|[(next & g & _ & _ & ->)
      |[(alive & _ & _ & ->)|(alive & _ & _ & ->)]]]]]]; simpl; try done.
    + by destruct (seq _ _).
    + intros d dd [= <- <-]. done.
    + intros d dd [= <- <-]. done.
    + by destruct (poll_pass _ _).1.
  - apply worker_step_inv in Hstep as (_ & next & q & _ & Hs').
    destruct next; subst s'; done.
Qed.

Lemma run_cur_dirs_ok self w gen acts s :
  exec self acts (init_state self w gen) = Some s →
  cur_dirs_ok self (cur_dirs s).
Proof.
  revert acts s. apply exec_invariant; [done|].
  intros a s s'. apply step_cur_dirs_ok.
Qed.

(** ** A run over destinations that all exist *)

Lemma yielded_app_fmap (l : list string) g :
  yielded ((Yield <$> l) ++ g) = l ++ yielded g.
Proof. induction l as [|p l IH]; [done|]. rewrite fmap_cons. simpl. by f_equal. Qed.

(** C4.  When every mapped destination exists at the start of a run, no
    state of the run has anything enqueued or handled, the queue carries
    termination signals only, and every regular file, the metadata log
    included, is as it was; when the run is done every enumerated path has
    been skipped. *)
Theorem rerun_is_idle self w0 t s :
  (∀ p, p ∈ yielded (enumerate_files self t) →
        fs_exists (fs w0) (dest_path_of self p) = true) →
  run_reaches self w0 t s →
  enqueued s = [] ∧ handled s = []
  ∧ (∀ e, e ∈ queue s → e = None)
  ∧ files (fs (world s)) = files (fs w0)
  ∧ (pc s = Done → enumerate_files self t = Yield <$> skipped s).
Proof.
  intros Hex [acts Hexec].
  set (gen0 := enumerate_files self t) in *.
  set (J := λ s : RunState,
         cur_dirs_ok self (cur_dirs s)
         ∧ files (fs (world s)) = files (fs w0)
         ∧ dirs (fs w0) ⊆ dirs (fs (world s))
         ∧ enqueued s = [] ∧ handled s = []
         ∧ (∀ e, e ∈ queue s → e = None)
         ∧ match pc s with
           | Enumerating g => gen0 = (Yield <$> skipped s) ++ g
           | Putting _ _ => False
           | Draining _ | Done => gen0 = Yield <$> skipped s
           | Aborted _ => True
           end).
  assert (HJ : J s).
  { revert acts s Hexec. apply exec_invariant.
    { repeat split; try done. by intros e ?%elem_of_nil. }
    intros a s s' (Hcur & Hfiles & Hdirs & Henq & Hhan & Hq & Hpc) Hstep.
    destruct a as [|i]; simpl in Hstep.
    - apply dispatcher_step_inv in Hstep; [|done].
      destruct Hstep as [(Hp & ->)|[(e & g & Hp & ->)|[(p & g & w1 & Hp & Hfr & Hyes & ->)
        |[(p & g & w1 & Hp & Hfr & Hno & ->)|[(next & g & Hp & _ & ->)
        |[(alive & Hp & _ & ->)|(alive & Hp & _ & ->)]]]]]];
        rewrite Hp in Hpc.
      + pose proof (drain_next_fields (seq 0 (length (procs s))) s) as Hd.
        cbv zeta in Hd.
        destruct Hd as (Hd1 & Hd2 & _ & _ & Hd5 & Hd6 & Hd7 & Hd8 & _ & _ & Hd11).
        unfold J. rewrite Hd1, Hd2, Hd5, Hd6, Hd7, Hd8, Hd11.
        rewrite app_nil_r in Hpc. split_and!; try done. by destruct (seq _ _).
      + done.
      + destruct Hfr as (Hf1 & Hd1 & _). unfold J. simpl.
        split_and!; try done.
        * intros d dd [= <- <-]. done.
        * congruence.
        * set_solver.
        * by rewrite fmap_app, <- app_assoc.
      + exfalso. destruct Hfr as (Hf1 & Hd1 & _).
        assert (fs_exists (fs w1) (dest_path_of self p) = true); [|congruence].
        eapply (fs_exists_mono (fs w0)); [by rewrite Hf1, Hfiles|set_solver|].
        apply Hex. fold gen0. rewrite Hpc, yielded_app_fmap. simpl. set_solver.
      + done.
      + match goal with
        | |- J (drain_next ?k ?s0) =>
            pose proof (drain_next_fields k s0) as Hd
        end.
        cbv zeta in Hd.
        destruct Hd as (Hd1 & Hd2 & _ & _ & Hd5 & Hd6 & Hd7 & Hd8 & _ & _ & Hd11).
        unfold J. rewrite Hd1, Hd2, Hd5, Hd6, Hd7, Hd8, Hd11. simpl.
        split_and!; try done. by destruct (poll_pass _ _).1.
      + unfold J. simpl. rewrite Hp. split_and!; try done.
        intros e [He|He%list_elem_of_singleton]%elem_of_app; [by apply Hq|done].
    - apply worker_step_inv in Hstep as (_ & next & q & Hqs & Hs').
      assert (next = None) as -> by (apply Hq; rewrite Hqs; set_solver).
      subst s'. unfold J. simpl. split_and!; try done.
      intros e He. apply Hq. rewrite Hqs. set_solver. }
  destruct HJ as (_ & Hfiles & _ & Henq & Hhan & Hq & Hpc).
  split_and!; try done. intros Hdone. by rewrite Hdone in Hpc.
Qed.

Lemma rerun_is_idle_witness :
  ∃ s,
    exec self_rerun sched_rerun
      (init_state self_rerun world_rerun (enumerate_files self_rerun tree_rerun))
    = Some s
    ∧ pc s = Done ∧ enqueued s = []
    ∧ files (fs (world s)) = files (fs world_rerun).
Proof.
  destruct (exec self_rerun sched_rerun
              (init_state self_rerun world_rerun
                 (enumerate_files self_rerun tree_rerun))) as [s|] eqn:Hexec;
    [|by vm_compute in Hexec].
  exists s. split; [reflexivity|].
  destruct (rerun_is_idle self_rerun world_rerun tree_rerun s)
    as (Henq & _ & _ & Hfiles & _).
  - intros p Hp. vm_compute in Hp. apply list_elem_of_singleton in Hp as ->.
    by vm_compute.
  - by exists sched_rerun.
  - split_and!; [|done..]. vm_compute in Hexec. by injection Hexec as <-.
Defined.

(** ** Skipped paths *)

Lemma exec_skipped_mono self acts s s' p :
  exec self acts s = Some s' → p ∈ skipped s → p ∈ skipped s'.
Proof.
  revert s. induction acts as [|a acts IH]; intros s Hexec Hp; simpl in Hexec.
  - by simplify_eq.
  - destruct (step self a s) as [s1|] eqn:Hs1; [|done].
    apply (IH s1); [done|]. clear IH Hexec.
    destruct a as [|i]; simpl in Hs1.
    + unfold dispatcher_step, drain_next in Hs1.
      repeat (case_match; simplify_eq/=); try done. set_solver.
    + apply worker_step_inv in Hs1 as (_ & next & q & _ & Hs1).
      destruct next; by subst s1.
Qed.

(** Every source path is in one place at a time: skipped, enqueued, held at
    [queue.put], or not yet yielded; what is in the queue or was handled
    has been enqueued. *)
Lemma run_paths_partition self w0 gen0 acts s :
  NoDup (yielded gen0) →
  exec self acts (init_state self w0 gen0) = Some s →
  NoDup (skipped s ++ (enqueued s).*1 ++ pending_src (pc s) ++ remaining (pc s))
  ∧ (∀ it, Some it ∈ queue s → it ∈ enqueued s)
  ∧ (∀ i it, (i, it) ∈ handled s → it ∈ enqueued s).
Proof.
  intros Hnd Hexec.
  set (K := λ s : RunState,
         cur_dirs_ok self (cur_dirs s)
         ∧ NoDup (skipped s ++ (enqueued s).*1 ++ pending_src (pc s)
                    ++ remaining (pc s))
         ∧ (∀ it, Some it ∈ queue s → it ∈ enqueued s)
         ∧ (∀ i it, (i, it) ∈ handled s → it ∈ enqueued s)).
  assert (HK : K s); [|by destruct HK as (_ & ? & ? & ?)].
  revert acts s Hexec. apply exec_invariant.
  { unfold K. simpl. split_and!; try done.
    - by intros it ?%elem_of_nil.
    - by intros i it ?%elem_of_nil. }
  intros a s s' (Hcur & Hno & Hq & Hh) Hstep.
  destruct a as [|i]; simpl in Hstep.
  - apply dispatcher_step_inv in Hstep; [|done].
    destruct Hstep as [(Hp & ->)|[(e & g & Hp & ->)|[(p & g & w1 & Hp & Hfr & Hyes & ->)
      |[(p & g & w1 & Hp & Hfr & Hnone & ->)|[(next & g & Hp & _ & ->)
      |[(alive & Hp & _ & ->)|(alive & Hp & _ & ->)]]]]]];
      rewrite Hp in Hno; simpl in Hno.
    + match goal with
      | |- K (drain_next ?k ?s0) => pose proof (drain_next_fields k s0) as Hd
      end.
      cbv zeta in Hd.
      destruct Hd as (Hd1 & Hd2 & _ & _ & Hd5 & Hd6 & Hd7 & _ & _ & _ & Hd11).
      unfold K. rewrite Hd1, Hd2, Hd5, Hd6, Hd7, Hd11.
      split_and!; try done. by destruct (seq _ _).
    + unfold K. simpl. done.
    + unfold K. simpl. split_and!; try done.
      * intros d dd [= <- <-]. done.
      * rewrite <- app_assoc. simpl.
        eapply NoDup_Permutation_proper; [|exact Hno].
        apply Permutation_app_head. by rewrite Permutation_middle.
    + unfold K. simpl. split_and!; try done.
      intros d dd [= <- <-]. done.
    + unfold K. simpl. split_and!; try done.
      * by rewrite fmap_app, <- app_assoc.
      * intros it [Hin|Hin%list_elem_of_singleton]%elem_of_app;
          [apply elem_of_app; left; by apply Hq|simplify_eq; set_solver].
      * intros j it Hin. apply elem_of_app. left. by eapply Hh.
    + match goal with
      | |- K (drain_next ?k ?s0) => pose proof (drain_next_fields k s0) as Hd
      end.
      cbv zeta in Hd.
      destruct Hd as (Hd1 & Hd2 & _ & _ & Hd5 & Hd6 & Hd7 & _ & _ & _ & Hd11).
      unfold K. rewrite Hd1, Hd2, Hd5, Hd6, Hd7, Hd11. simpl.
      split_and!; try done. by destruct (poll_pass _ _).1.
    + unfold K. simpl. rewrite Hp. split_and!; try done.
      intros it [Hin|Hin%list_elem_of_singleton]%elem_of_app; [by apply Hq|done].
  - apply worker_step_inv in Hstep as (_ & next & q & Hqs & Hs').
    assert (Hq' : ∀ it, Some it ∈ q → it ∈ enqueued s).
    { intros it Hin. apply Hq. rewrite Hqs. set_solver. }
    destruct next as [it|]; subst s'; unfold K; simpl; split_and!; try done.
    intros j it' [Hin|Hin%list_elem_of_singleton]%elem_of_app; [by eapply Hh|].
    simplify_eq. apply Hq. rewrite Hqs. set_solver.
Qed.

(** ** How one item leaves the worker *)

Lemma worker_item_outcome self pid next w :
  constructed self →
  declared_attributes self →
  csv_lock w = false →
  ∃ w',
    csv_lock w' = false
    ∧ (worker_item self pid next w = (Ok tt, w')
       ∨ (worker_item self pid next w = (Raise TypeError, w')
          ∧ metadata_columns self = None)).
Proof.
  intros Hc Hdecl Hlock. destruct next as [src_path dest_path].
  destruct (metadata_columns self) as [cols|] eqn:Hcols; last first.
  { destruct (worker_item_no_columns self pid (src_path, dest_path) w Hcols)
      as (w' & Hw' & Hl). exists w'. split; [congruence|by right]. }
  unfold worker_item, mbind, M_bind. rewrite build_row_eq. cbv zeta.
  rewrite Hcols.
  set (o := (preprocess_fn self src_path dest_path (fs w)).1).
  set (f' := (preprocess_fn self src_path dest_path (fs w)).2).
  set (w1 := after_try src_path dest_path o f' _).
  assert (Hl1 : csv_lock w1 = false).
  { subst w1. unfold after_try. by repeat case_match. }
  unfold csv_lock_acquire, csv_lock_release. munfold. rewrite Hl1.
  destruct (observed o) as [[success message] attrs] eqn:Hobs.
  pose proof (write_metadata_constructed self
                (finish_row self cols src_path (success, message, attrs))
                (set_csv_lock true w1) Hc) as Hwm.
  destruct (metadata_filename self) as [fn|].
  - destruct Hwm as (co & p & Hco & Hp & _ & Hok).
    destruct Hok as (row & _ & ->).
    { destruct (finish_row_spec self cols src_path success message attrs
                  Hc Hcols) as (Hcol & _).
      destruct (Hcol co Hco) as [_ Hiff]. apply Hiff.
      subst o. unfold observed in Hobs.
      destruct (preprocess_fn self src_path dest_path (fs w)) as [[s0 m0 a0|tb] f0] eqn:Hcap;
        simpl in Hobs; simplify_eq; [by eapply Hdecl|set_solver]. }
    eexists. split; [|left; reflexivity]. done.
  - rewrite Hwm. eexists. split; [|left; reflexivity]. done.
Qed.

(** ** The stopping loop *)

Lemma poll_pass_spec dead alive :
  alive ≡ₚ (poll_pass dead alive).1 ++ (poll_pass dead alive).2
  ∧ Forall (λ i, dead i = true) (poll_pass dead alive).2
  ∧ ((poll_pass dead alive).2 = [] → (poll_pass dead alive).1 = alive)
  ∧ (∀ p rest, alive = p :: rest → dead p = true →
       (poll_pass dead alive).2 ≠ []).
Proof.
  assert (∀ n alive, (length alive ≤ n)%nat →
    alive ≡ₚ (poll_pass dead alive).1 ++ (poll_pass dead alive).2
    ∧ Forall (λ i, dead i = true) (poll_pass dead alive).2
    ∧ ((poll_pass dead alive).2 = [] → (poll_pass dead alive).1 = alive)
    ∧ (∀ p rest, alive = p :: rest → dead p = true →
         (poll_pass dead alive).2 ≠ [])) as H; [|by apply (H (length alive))].
  clear alive. intros n. induction n as [|n IH]; intros alive Hlen.
  { destruct alive; [|simpl in Hlen; lia]. simpl. split_and!; try done. }
  destruct alive as [|p rest]; [simpl; split_and!; done|].
  simpl in Hlen. simpl. destruct (dead p) eqn:Hp.
  - destruct rest as [|q rest'].
    + simpl. split_and!; try done. by constructor.
    + destruct (IH rest') as (Hperm & Hdead & _ & _); [simpl in Hlen; lia|].
      destruct (poll_pass dead rest') as [kept removed]. simpl in *.
      split_and!; try done.
      * rewrite Hperm. rewrite <- Permutation_middle. by apply perm_swap.
      * by constructor.
  - destruct (IH rest) as (Hperm & Hdead & Hid & _); [lia|].
    destruct (poll_pass dead rest) as [kept removed]. simpl in *.
    split_and!; try done.
    + by rewrite <- Hperm.
    + intros ->. by rewrite Hid.
    + intros p' rest'' [= <- <-] Hp'. congruence.
Qed.

Lemma queue_full_false q : queue_full q = false → (length q < maxsize)%nat.
Proof. unfold queue_full. intros ?%bool_decide_eq_false. lia. Qed.

Lemma queue_full_true q : queue_full q = true → (maxsize ≤ length q)%nat.
Proof. unfold queue_full. by intros ?%bool_decide_eq_true. Qed.

Lemma exec_invariant_reach self (I : RunState → Prop) s0 :
  I s0 →
  (∀ acts a s s',
     exec self acts s0 = Some s → I s → step self a s = Some s' → I s') →
  ∀ acts s, exec self acts s0 = Some s → I s.
Proof.
  intros H0 Hstep acts. induction acts as [|a acts IH] using rev_ind; intros s.
  - simpl. by intros [= <-].
  - rewrite exec_app. destruct (exec self acts s0) as [s1|] eqn:Hs1; [|done].
    simpl. destruct (step self a s1) as [s2|] eqn:Hs2; [|done].
    intros [= <-]. eauto.
Qed.

Lemma drain_inv_step self a s s' :
  constructed self →
  declared_attributes self →
  cur_dirs_ok self (cur_dirs s) →
  drain_inv self s →
  step self a s = Some s' →
  drain_inv self s'.
Proof.
  intros Hc Hdecl Hcur (Hlock & Hst & Hlen & Hn & Hpc) Hstep.
  destruct a as [|i]; simpl in Hstep.
  - apply dispatcher_step_inv in Hstep; [|done].
    destruct Hstep as [(Hp & ->)|[(e & g & Hp & ->)|[(p & g & w1 & Hp & Hfr & Hyes & ->)
      |[(p & g & w1 & Hp & Hfr & Hnone & ->)|[(next & g & Hp & Hfull & ->)
      |[(alive & Hp & Hfull & ->)|(alive & Hp & Hfull & ->)]]]]]];
      rewrite Hp in Hpc.
    + match goal with
      | |- drain_inv _ (drain_next ?k ?s0) =>
          pose proof (drain_next_fields k s0) as Hd
      end.
      cbv zeta in Hd.
      destruct Hd as (Hd1 & _ & _ & Hd4 & _ & _ & _ & _ & Hd9 & _ & Hd11).
      unfold drain_inv. rewrite Hd1, Hd4, Hd9, Hd11.
      split_and!; try done.
      destruct (seq 0 (length (procs s))) as [|x l] eqn:Hseq.
      * intros i Hi. apply lookup_lt_Some in Hi.
        assert (length (seq 0 (length (procs s))) = 0%nat) by by rewrite Hseq.
        rewrite length_seq in *. lia.
      * rewrite <- Hseq. split_and!.
        -- by rewrite Hseq.
        -- apply NoDup_seq.
        -- intros i Hi. apply lookup_lt_Some in Hi. apply elem_of_seq. lia.
    + unfold drain_inv. simpl. done.
    + destruct Hfr as (_ & _ & Hl & _). unfold drain_inv. simpl.
      split_and!; try done. congruence.
    + destruct Hfr as (_ & _ & Hl & _). unfold drain_inv. simpl.
      split_and!; try done. congruence.
    + apply queue_full_false in Hfull. unfold drain_inv. simpl.
      split_and!; try done. rewrite length_app. simpl. lia.
    + destruct Hpc as (Hne & Hnd & Hrun).
      destruct (poll_pass_spec (worker_dead s) alive) as (Hperm & Hdead & _ & _).
      match goal with
      | |- drain_inv _ (drain_next ?k ?s0) =>
          pose proof (drain_next_fields k s0) as Hd
      end.
      cbv zeta in Hd.
      destruct Hd as (Hd1 & _ & _ & Hd4 & _ & _ & _ & _ & Hd9 & _ & Hd11).
      unfold drain_inv. rewrite Hd1, Hd4, Hd9, Hd11. simpl.
      split_and!; try done.
      assert (Hkept : ∀ i, procs s !! i = Some Running →
                           i ∈ (poll_pass (worker_dead s) alive).1).
      { intros i Hi. specialize (Hrun i Hi). rewrite Hperm in Hrun.
        apply elem_of_app in Hrun as [|Hrm]; [done|].
        eapply Forall_forall in Hdead; [|exact Hrm].
        unfold worker_dead in Hdead. by rewrite Hi in Hdead. }
      destruct (poll_pass (worker_dead s) alive).1 as [|x l] eqn:Hk.
      * intros i Hi. by apply Hkept, elem_of_nil in Hi.
      * split_and!; [done| |done].
        rewrite Hperm in Hnd. by apply NoDup_app in Hnd as (? & _).
    + apply queue_full_false in Hfull. unfold drain_inv. simpl. rewrite Hp.
      destruct Hpc as (? & ? & ?).
      split_and!; try done. rewrite length_app. simpl. lia.
  - apply worker_step_inv in Hstep as (Hrun & next & q & Hq & Hs').
    assert (Hlen' : (length q ≤ maxsize)%nat) by (rewrite Hq in Hlen; simpl in Hlen; lia).
    assert (Hpc' : ∀ st, st ≠ Running →
              match pc s with
              | Draining alive =>
                  alive ≠ [] ∧ NoDup alive
                  ∧ ∀ j, <[i := st]> (procs s) !! j = Some Running → j ∈ alive
              | Done => ∀ j, <[i := st]> (procs s) !! j ≠ Some Running
              | _ => True
              end).
    { intros st Hne. destruct (pc s); try done.
      - destruct Hpc as (? & ? & Hr). split_and!; try done.
        intros j Hj. destruct (decide (j = i)) as [->|Hji].
        + rewrite list_lookup_insert_eq in Hj by by eapply lookup_lt_Some.
          congruence.
        + rewrite list_lookup_insert_ne in Hj by done. by apply Hr.
      - by specialize (Hpc i). }
    destruct next as [it|]; subst s'; unfold drain_inv; simpl.
    + destruct (worker_item_outcome self i it (world s) Hc Hdecl Hlock)
        as (w' & Hl' & [Hok|[Hraise Hnone]]).
      * rewrite Hok. simpl. rewrite list_insert_id by done.
        split_and!; try done.
      * rewrite Hraise. simpl. rewrite length_insert.
        split_and!; try done; [|by apply Hpc'].
        intros j st Hj. destruct (decide (j = i)) as [->|Hji].
        -- rewrite list_lookup_insert_eq in Hj by by eapply lookup_lt_Some.
           simplify_eq. auto.
        -- rewrite list_lookup_insert_ne in Hj by done. by eapply Hst.
    + rewrite length_insert. split_and!; try done; [|by apply Hpc'].
      intros j st Hj. destruct (decide (j = i)) as [->|Hji].
      * rewrite list_lookup_insert_eq in Hj by by eapply lookup_lt_Some.
        simplify_eq. auto.
      * rewrite list_lookup_insert_ne in Hj by done. by eapply Hst.
Qed.

Lemma run_drain_inv self w0 gen0 acts s :
  constructed self →
  declared_attributes self →
  exec self acts (init_state self w0 gen0) = Some s →
  drain_inv self s.
Proof.
  intros Hc Hdecl. revert acts s. apply exec_invariant_reach.
  - unfold drain_inv. simpl. split_and!; try done.
    + intros i st Hi. apply lookup_replicate in Hi as [-> _]. auto.
    + unfold maxsize. lia.
    + apply length_replicate.
  - intros acts a s s' Hexec Hinv Hstep.
    eapply drain_inv_step; try done. by eapply run_cur_dirs_ok.
Qed.

Lemma count_running_insert ps i st :
  ps !! i = Some Running → st ≠ Running →
  count_running ps = S (count_running (<[i := st]> ps)).
Proof.
  unfold count_running. revert i.
  induction ps as [|x ps IH]; intros i Hi Hst; [done|].
  destruct i as [|i]; simpl in *.
  - simplify_eq. rewrite filter_cons_True by done.
    by rewrite filter_cons_False by done.
  - rewrite !filter_cons. destruct (decide (x = Running)); simpl;
      by rewrite (IH i).
Qed.

Lemma count_items_snoc_None q : count_items (q ++ [None]) = count_items q.
Proof.
  unfold count_items. rewrite filter_app, length_app.
  rewrite filter_cons_False by (by intros []). simpl. lia.
Qed.

Lemma set_stdout_nil w : set_stdout (λ out, out ++ []) w = w.
Proof. destruct w. unfold set_stdout. simpl. by rewrite app_nil_r. Qed.

(** In the stopping loop every step either changes nothing (a poll that
    finds every pending worker alive) or takes the measure down; the
    dispatcher stays in the loop or is done. *)
Lemma drain_step_measure self a s s' alive :
  constructed self →
  declared_attributes self →
  cur_dirs_ok self (cur_dirs s) →
  drain_inv self s →
  pc s = Draining alive →
  step self a s = Some s' →
  ((s' = s ∧ a = Dispatch ∧ (poll_pass (worker_dead s) alive).2 = [])
   ∨ (drain_measure s' < drain_measure s)%nat)
  ∧ (pc s' = Done ∨ ∃ alive', pc s' = Draining alive').
Proof.
  intros Hc Hdecl Hcur (Hlock & Hst & Hlen & Hn & Hpc) Hp Hstep.
  destruct a as [|i]; simpl in Hstep.
  - apply dispatcher_step_inv in Hstep; [|done].
    destruct Hstep as [(Hp' & _)|[(e & g & Hp' & _)|[(p & g & w1 & Hp' & _)
      |[(p & g & w1 & Hp' & _)|[(next & g & Hp' & _)
      |[(alive' & Hp' & Hfull & ->)|(alive' & Hp' & Hfull & ->)]]]]]];
      rewrite Hp in Hp'; simplify_eq.
    + destruct (poll_pass_spec (worker_dead s) alive') as (Hperm & _ & Hid & _).
      destruct (poll_pass (worker_dead s) alive') as [kept removed] eqn:Hpoll.
      simpl in *. destruct removed as [|r removed].
      * rewrite (Hid eq_refl). rewrite set_stdout_nil.
        rewrite Hp in Hpc. destruct Hpc as (Hne & _).
        destruct alive' as [|x l]; [done|].
        split; [left|right; by eexists].
        split; [|done]. destruct s. simpl in *. by subst.
      * assert (Hk : (length kept < length alive')%nat).
        { rewrite Hperm, length_app. simpl. lia. }
        destruct kept as [|x l]; simpl.
        -- split; [right|by left]. unfold drain_measure. simpl. rewrite Hp. lia.
        -- split; [right|right; by eexists].
           unfold drain_measure. simpl. rewrite Hp. simpl in *. lia.
    + apply queue_full_false in Hfull.
      split; [right|right; by eexists].
      unfold drain_measure. simpl. rewrite Hp.
      rewrite count_items_snoc_None, length_app. simpl. lia.
  - apply worker_step_inv in Hstep as (Hrun & next & q & Hq & Hs').
    rewrite Hq in Hlen. simpl in Hlen.
    destruct next as [it|]; subst s'.
    + split; [right|right; simpl; by eexists].
      unfold drain_measure. cbn [pc queue procs]. rewrite Hp, Hq. cbn [length].
      replace (count_items (Some it :: q)) with (S (count_items q)); last first.
      { unfold count_items. by rewrite filter_cons_True by by eexists. }
      assert (count_running (<[i:=status_after (worker_item self i it (world s)).1]> (procs s))
              ≤ count_running (procs s))%nat.
      { destruct (decide (status_after (worker_item self i it (world s)).1 = Running)) as [->|Hne].
        - by rewrite list_insert_id.
        - rewrite (count_running_insert (procs s) i _ Hrun Hne). lia. }
      lia.
    + split; [right|right; simpl; by eexists].
      unfold drain_measure. cbn [pc queue procs]. rewrite Hp, Hq. cbn [length].
      replace (count_items (None :: q)) with (count_items q); last first.
      { unfold count_items. by rewrite filter_cons_False by by intros []. }
      rewrite (count_running_insert (procs s) i Exited Hrun) by done. lia.
Qed.

(** Until the dispatcher is done some process can take a step that lowers
    the measure. *)
Lemma drain_progress self s alive :
  constructed self →
  declared_attributes self →
  cur_dirs_ok self (cur_dirs s) →
  drain_inv self s →
  pc s = Draining alive →
  ∃ a s', step self a s = Some s' ∧ (drain_measure s' < drain_measure s)%nat.
Proof.
  intros Hc Hdecl Hcur Hinv Hp.
  pose proof Hinv as (Hlock & Hst & Hlen & Hn & Hpc).
  rewrite Hp in Hpc. destruct Hpc as (Hne & Hnd & Hrun).
  destruct (queue_full (queue s)) eqn:Hfull.
  - destruct (decide (Exists (λ st, st = Running) (procs s))) as [Hex|Hnone].
    + apply Exists_exists in Hex as (st & Hin & ->).
      apply list_elem_of_lookup in Hin as [i Hi].
      apply queue_full_true in Hfull.
      destruct (queue s) as [|next q] eqn:Hq; [unfold maxsize in Hfull; simpl in Hfull; lia|].
      assert (∃ s', step self (Work i) s = Some s') as [s' Hs'].
      { simpl. unfold worker_step. rewrite Hi, Hq.
        destruct next; [destruct (worker_item _ _ _ _)|]; by eexists. }
      exists (Work i), s'. split; [done|].
      destruct (drain_step_measure self (Work i) s s' alive) as [[(_ & ? & _)|?] _];
        done.
    + destruct alive as [|p rest]; [done|].
      assert (Hdead : worker_dead s p = true).
      { unfold worker_dead. destruct (procs s !! p) as [st|] eqn:Hst'; [|done].
        destruct (Hst p st Hst') as [->|[->|[-> _]]]; try done.
        exfalso. apply Hnone. apply Exists_exists. exists Running.
        split; [|done]. by eapply list_elem_of_lookup_2. }
      assert (∃ s', step self Dispatch s = Some s') as [s' Hs'].
      { simpl. unfold dispatcher_step. rewrite Hp, Hfull.
        destruct (poll_pass _ _). by eexists. }
      exists Dispatch, s'. split; [done|].
      destruct (drain_step_measure self Dispatch s s' (p :: rest))
        as [[(_ & _ & Hnil)|?] _]; try done.
      destruct (poll_pass_spec (worker_dead s) (p :: rest)) as (_ & _ & _ & Hrm).
      by destruct (Hrm p rest).
  - assert (∃ s', step self Dispatch s = Some s') as [s' Hs'].
    { simpl. unfold dispatcher_step. rewrite Hp, Hfull. by eexists. }
    exists Dispatch, s'. split; [done|].
    destruct (drain_step_measure self Dispatch s s' alive) as [[(Heq & _)|?] _];
      try done.
    exfalso. simpl in Hs'. unfold dispatcher_step in Hs'.
    rewrite Hp, Hfull in Hs'. injection Hs' as <-.
    apply (f_equal queue), (f_equal length) in Heq.
    cbn [queue set_queue] in Heq. rewrite length_app in Heq. simpl in Heq. lia.
Qed.

(** The stopping loop is never left other than to [Done], and the
    invariants travel with it. *)
Lemma drain_closed self acts s s1 :
  constructed self →
  declared_attributes self →
  cur_dirs_ok self (cur_dirs s) →
  drain_inv self s →
  (pc s = Done ∨ ∃ alive, pc s = Draining alive) →
  exec self acts s = Some s1 →
  cur_dirs_ok self (cur_dirs s1) ∧ drain_inv self s1
  ∧ (pc s1 = Done ∨ ∃ alive, pc s1 = Draining alive).
Proof.
  intros Hc Hdecl. revert s.
  induction acts as [|a acts IH]; intros s Hcur Hinv Hpc Hexec; simpl in Hexec.
  { by simplify_eq. }
  destruct (step self a s) as [s'|] eqn:Hs'; [|done].
  apply (IH s'); [by eapply step_cur_dirs_ok|by eapply drain_inv_step| |done].
  destruct Hpc as [Hdone|[alive Hp]].
  - exfalso. destruct a as [|i]; simpl in Hs'.
    + unfold dispatcher_step in Hs'. by rewrite Hdone in Hs'.
    + apply worker_step_inv in Hs' as (Hrun & _).
      destruct Hinv as (_ & _ & _ & _ & Hd). rewrite Hdone in Hd. by apply (Hd i).
  - by destruct (drain_step_measure self a s s' alive) as [_ ?].
Qed.

(** A schedule that completes the stopping loop, no longer than the
    measure. *)
Lemma drain_completes self n s :
  constructed self →
  declared_attributes self →
  cur_dirs_ok self (cur_dirs s) →
  drain_inv self s →
  (pc s = Done ∨ ∃ alive, pc s = Draining alive) →
  (drain_measure s ≤ n)%nat →
  ∃ acts s1, exec self acts s = Some s1 ∧ pc s1 = Done
             ∧ (length acts ≤ drain_measure s)%nat.
Proof.
  intros Hc Hdecl. revert s.
  induction n as [|n IH]; intros s Hcur Hinv Hpc Hn.
  - destruct Hpc as [Hdone|[alive Hp]].
    + exists [], s. simpl. split_and!; [done..|lia].
    + unfold drain_measure in Hn. rewrite Hp in Hn. lia.
  - destruct Hpc as [Hdone|[alive Hp]].
    + exists [], s. simpl. split_and!; [done..|lia].
    + destruct (drain_progress self s alive) as (a & s' & Hs' & Hlt); try done.
      destruct (IH s') as (acts & s1 & Hexec & Hd1 & Hl).
      * by eapply step_cur_dirs_ok.
      * by eapply drain_inv_step.
      * by destruct (drain_step_measure self a s s' alive) as [_ ?].
      * lia.
      * exists (a :: acts), s1. simpl. rewrite Hs'. split_and!; [done..|lia].
Qed.

(** C5, as the code has it.  Let the capability return declared attributes
    only, so that no worker dies inside [write_metadata], and let the
    enumeration be exhausted.  From then on every step either is a poll that
    changes nothing or lowers [drain_measure]; until the dispatcher is done
    some process can take a lowering step; so a run of at most
    [drain_measure] steps completes.  When the dispatcher is done, nobody is
    pending and every worker has left its loop: on a termination signal, or,
    in a configuration without a column list, on the [TypeError] of its
    first item. *)
Theorem draining_terminates self w0 t s alive :
  constructed self →
  declared_attributes self →
  run_reaches self w0 t s →
  pc s = Draining alive →
  (∀ acts s1 a s2,
     exec self acts s = Some s1 → step self a s1 = Some s2 →
     s2 = s1 ∨ (drain_measure s2 < drain_measure s1)%nat)
  ∧ (∀ acts s1,
       exec self acts s = Some s1 → pc s1 ≠ Done →
       ∃ a s2, step self a s1 = Some s2
               ∧ (drain_measure s2 < drain_measure s1)%nat)
  ∧ (∃ acts s1, exec self acts s = Some s1 ∧ pc s1 = Done
                ∧ (length acts ≤ drain_measure s)%nat)
  ∧ (∀ acts s1,
       exec self acts s = Some s1 → pc s1 = Done →
       ∀ i, (i < num_processes self)%nat →
            procs s1 !! i = Some Exited
            ∨ (procs s1 !! i = Some (Crashed TypeError)
               ∧ metadata_columns self = None)).
Proof.
  intros Hc Hdecl [acts0 Hreach] Hp.
  pose proof (run_cur_dirs_ok _ _ _ _ _ Hreach) as Hcur.
  pose proof (run_drain_inv _ _ _ _ _ Hc Hdecl Hreach) as Hinv.
  assert (Hpc : pc s = Done ∨ ∃ alive, pc s = Draining alive) by (right; eauto).
  split_and!.
  - intros acts s1 a s2 Hexec Hstep.
    destruct (drain_closed self acts s s1) as (Hcur1 & Hinv1 & [Hd|[al Hal]]);
      try done.
    + exfalso. destruct a as [|i]; simpl in Hstep.
      * unfold dispatcher_step in Hstep. by rewrite Hd in Hstep.
      * apply worker_step_inv in Hstep as (Hrun & _).
        destruct Hinv1 as (_ & _ & _ & _ & Hdn). rewrite Hd in Hdn.
        by apply (Hdn i).
    + destruct (drain_step_measure self a s1 s2 al) as [[(? & _)|?] _]; auto.
  - intros acts s1 Hexec Hnd.
    destruct (drain_closed self acts s s1) as (Hcur1 & Hinv1 & [Hd|[al Hal]]);
      try done.
    by eapply drain_progress.
  - by eapply drain_completes.
  - intros acts s1 Hexec Hdone i Hi.
    destruct (drain_closed self acts s s1) as (_ & Hinv1 & _); try done.
    destruct Hinv1 as (_ & Hst & _ & Hn & Hdn). rewrite Hdone in Hdn.
    destruct (lookup_lt_is_Some_2 (procs s1) i) as [st Hsti]; [lia|].
    destruct (Hst i st Hsti) as [->|[->|[-> ?]]]; [by apply Hdn in Hsti|auto..].
Qed.

Lemma draining_terminates_witness :
  ∃ acts s s1,
    exec self_drain sched_drain
      (init_state self_drain empty_world (enumerate_files self_drain tree_drain))
    = Some s
    ∧ exec self_drain acts s = Some s1 ∧ pc s1 = Done
    ∧ procs s1 !! 0%nat = Some Exited.
Proof.
  destruct (exec self_drain sched_drain
              (init_state self_drain empty_world
                 (enumerate_files self_drain tree_drain))) as [s|] eqn:Hexec;
    [|by vm_compute in Hexec].
  destruct (draining_terminates self_drain empty_world tree_drain s [0%nat])
    as (_ & _ & (acts & s1 & Hs1 & Hdone & _) & Hall).
  - apply self_with_constructed. right. by eexists.
  - intros co src_path dest_path f success message attrs f' Hco Hcap.
    injection Hco as <-. injection Hcap as <- <- <- <-.
    apply (bool_decide_unpack _). by vm_compute.
  - by exists sched_drain.
  - vm_compute in Hexec. by injection Hexec as <-.
  - exists acts, s, s1. split_and!; [done..|].
    destruct (Hall acts s1 Hs1 Hdone 0%nat) as [?|[_ ?]]; [simpl; lia|done|done].
Defined.

(** C5 fails as stated.  With two workers and a capability that returns an
    undeclared attribute, the first worker dies of the [AssertionError] of
    [write_metadata] while it holds the log lock, the second blocks on that
    lock for ever; once the enumeration is exhausted the stopping loop
    never finishes, and neither worker receives a termination signal. *)
Lemma leaked_lock_never_completes :
  ∃ s,
    exec self_leak sched_leak
      (init_state self_leak empty_world (enumerate_files self_leak tree_leak))
    = Some s
    ∧ pc s = Draining [0; 1]%nat
    ∧ procs s = [Crashed AssertionError; Blocked]
    ∧ ∀ acts s1, exec self_leak acts s = Some s1 → pc s1 ≠ Done.
Proof.
  destruct (exec self_leak sched_leak
              (init_state self_leak empty_world
                 (enumerate_files self_leak tree_leak))) as [s|] eqn:Hexec;
    [|by vm_compute in Hexec].
  exists s. split; [done|].
  assert (Hs : pc s = Draining [0; 1]%nat
               ∧ procs s = [Crashed AssertionError; Blocked]).
  { vm_compute in Hexec. by injection Hexec as <-. }
  clear Hexec. destruct Hs as [Hp Hprocs]. split_and!; [done..|].
  intros acts s1 Hexec.
  assert (HI : procs s1 = [Crashed AssertionError; Blocked]
               ∧ ∃ alive, pc s1 = Draining alive ∧ 1%nat ∈ alive).
  { revert acts s1 Hexec. apply exec_invariant.
    { split; [done|]. exists [0; 1]%nat. split; [done|set_solver]. }
    intros a s2 s3 (Hpr & alive & Hpc & Hin) Hstep.
    destruct a as [|i]; simpl in Hstep.
    - unfold dispatcher_step in Hstep. rewrite Hpc in Hstep.
      destruct (queue_full (queue s2)).
      + destruct (poll_pass_spec (worker_dead s2) alive) as (Hperm & Hdead & _).
        destruct (poll_pass (worker_dead s2) alive) as [kept removed].
        simpl in *. injection Hstep as <-.
        assert (Hk : 1%nat ∈ kept).
        { rewrite Hperm in Hin. apply elem_of_app in Hin as [|Hrm]; [done|].
          eapply Forall_forall in Hdead; [|exact Hrm].
          unfold worker_dead in Hdead. by rewrite Hpr in Hdead. }
        destruct kept as [|x l]; [by apply elem_of_nil in Hk|].
        simpl. split; [done|]. by eexists.
      + injection Hstep as <-. simpl. split; [done|]. by eexists.
    - apply worker_step_inv in Hstep as (Hrun & _).
      rewrite Hpr in Hrun. by destruct i as [|[|i]]. }
  destruct HI as (_ & alive & Hpc & _). by rewrite Hpc.
Qed.

(** ** What a run leaves for every enumerated file *)


Lemma str_app_nil_r s : s +:+ "" = s.
Proof. induction s as [|a s IH]; [done|]. unfold String.app in *. simpl. by rewrite IH. Qed.









Lemma stopping_remaining c : stopping c → pending_src c = [] ∧ remaining c = [].
Proof. by destruct c. Qed.










(** ** The destination of a skipped path *)

Lemma getitems_world (metadata : dict) ks w : (getitems metadata ks w).2 = w.
Proof.
  induction ks as [|k ks IH]; [done|]. simpl.
  destruct (metadata !! k); [|done]. munfold.
  destruct (getitems metadata ks w) as [[] ?]; simpl in *; by subst.
Qed.

(** [write_metadata] touches no file but the log. *)
Lemma write_metadata_files self (metadata : dict) w q :
  csv_file_path self ≠ Some q →
  files (fs (write_metadata self metadata w).2) !! q = files (fs w) !! q
  ∧ dirs (fs (write_metadata self metadata w).2) = dirs (fs w).
Proof.
  intros Hq. unfold write_metadata.
  destruct (metadata_filename self); [|done].
  destruct (column_order self) as [co|]; [|done].
  munfold. cbv beta iota. case_bool_decide; [|done].
  pose proof (getitems_world metadata co w) as Hw.
  destruct (getitems metadata co w) as [[row| |] w1]; simpl in Hw; subst w1;
    [|done..].
  destruct (csv_file_path self) as [p|]; [|done]. cbv beta iota.
  pose proof (open_append_close p (csv.writerow row) w) as Hoc.
  munfold. rewrite Hoc. simpl. split; [|done].
  rewrite lookup_insert_ne; [done|congruence].
Qed.

(** The worker writes its destination and the log, nothing else. *)
Lemma worker_item_files self pid src_path dest_path w q :
  capability_writes_dest_only self →
  q ≠ dest_path →
  csv_file_path self ≠ Some q →
  files (fs (worker_item self pid (src_path, dest_path) w).2) !! q
  = files (fs w) !! q
  ∧ dirs (fs w) ⊆ dirs (fs (worker_item self pid (src_path, dest_path) w).2).
Proof.
  intros Hcap Hq Hlog. unfold worker_item, mbind, M_bind.
  rewrite build_row_eq. cbv zeta.
  destruct (preprocess_fn self src_path dest_path (fs w)) as [o f'] eqn:Hrun.
  destruct (Hcap _ _ _ _ _ Hrun) as [Hfiles Hdirs]. cbn [fst snd].
  set (w1 := after_try src_path dest_path o f' _).
  assert (Hw1 : files (fs w1) !! q = files (fs w) !! q ∧ dirs (fs w) ⊆ dirs (fs w1)).
  { subst w1. unfold after_try. destruct o as [[] ? ?|?]; simpl; split; auto.
    rewrite lookup_insert_ne by done. auto. }
  destruct Hw1 as [Hf1 Hd1].
  destruct (metadata_columns self) as [cols|]; [|done].
  unfold csv_lock_acquire, csv_lock_release. munfold.
  destruct (csv_lock w1); [done|].
  match goal with
  | |- context [write_metadata self ?md ?w2] =>
      pose proof (write_metadata_files self md w2 q Hlog) as [Hwf Hwd];
      destruct (write_metadata self md w2) as [[] w3]
  end; simpl in *; rewrite Hwf, Hwd; done.
Qed.

Lemma dispatcher_step_files self s s' :
  cur_dirs_ok self (cur_dirs s) →
  dispatcher_step self s = Some s' →
  files (fs (world s')) = files (fs (world s))
  ∧ dirs (fs (world s)) ⊆ dirs (fs (world s'))
  ∧ ∀ p, p ∈ skipped s → p ∈ skipped s'.
Proof.
  intros Hcur Hstep. apply dispatcher_step_inv in Hstep; [|done].
  destruct Hstep as [(Hp & ->)|[(e & g & Hp & ->)|[(p & g & w1 & Hp & Hfr & Hyes & ->)
    |[(p & g & w1 & Hp & Hfr & Hnone & ->)|[(next & g & Hp & Hfull & ->)
    |[(alive & Hp & Hfull & ->)|(alive & Hp & Hfull & ->)]]]]]]; simpl; try done.
  - by destruct (seq _ _).
  - destruct Hfr as (? & ? & _). split_and!; [done..|]. set_solver.
  - by destruct Hfr as (? & ? & _).
  - by destruct (poll_pass _ _).1.
Qed.

(** Every item that was enqueued or waits at [queue.put] is an enumerated
    path with its mapped destination. *)
Lemma run_items_mapped self w0 gen0 acts s :
  exec self acts (init_state self w0 gen0) = Some s →
  (∀ it, it ∈ enqueued s →
         it.1 ∈ yielded gen0 ∧ it.2 = dest_path_of self it.1)
  ∧ (∀ next g, pc s = Putting next g →
               next.1 ∈ yielded gen0 ∧ next.2 = dest_path_of self next.1)
  ∧ (∀ p, p ∈ remaining (pc s) → p ∈ yielded gen0).
Proof.
  revert acts s. apply exec_invariant_reach.
  - simpl. split_and!; try done. by intros it ?%elem_of_nil.
  - intros acts a s s' Hexec (L1 & L2 & L3) Hstep.
    destruct a as [|i]; simpl in Hstep.
    + apply dispatcher_step_inv in Hstep; [|by eapply run_cur_dirs_ok].
      destruct Hstep as [(Hp & ->)|[(e & g & Hp & ->)|[(p & g & w1 & Hp & Hfr & Hyes & ->)
        |[(p & g & w1 & Hp & Hfr & Hnone & ->)|[(next & g & Hp & Hfull & ->)
        |[(alive & Hp & Hfull & ->)|(alive & Hp & Hfull & ->)]]]]]];
        rewrite Hp in L3; simpl in L3.
      * match goal with
        | |- context [drain_next ?k ?s0] => pose proof (drain_next_fields k s0) as Hd
        end.
        cbv zeta in Hd.
        destruct Hd as (_ & _ & _ & _ & Hd5 & _ & _ & _ & _ & _ & Hd11).
        rewrite Hd5, Hd11. split_and!; [done|by destruct (seq _ _)..].
      * simpl. split_and!; [done..|]. by intros p ?%elem_of_nil.
      * simpl. split_and!; [done..|]. intros q Hq. apply L3. set_solver.
      * simpl. split_and!; [done| |].
        -- intros next g' [= <- <-]. simpl. split; [|done]. apply L3. set_solver.
        -- intros q Hq. apply L3. set_solver.
      * simpl. destruct (L2 next g Hp). split_and!; [|done..].
        intros it [?|Heq%list_elem_of_singleton]%elem_of_app; [by apply L1|].
        by subst it.
      * match goal with
        | |- context [drain_next ?k ?s0] => pose proof (drain_next_fields k s0) as Hd
        end.
        cbv zeta in Hd.
        destruct Hd as (_ & _ & _ & _ & Hd5 & _ & _ & _ & _ & _ & Hd11).
        rewrite Hd5, Hd11. simpl.
        split_and!; [done|by destruct (poll_pass _ _).1..].
      * simpl. rewrite Hp. simpl. done.
    + apply worker_step_inv in Hstep as (_ & next & q & _ & Hs').
      destruct next; subst s'; simpl; done.
Qed.

Lemma NoDup_fmap_eq {A B} (f : A → B) (l : list A) x y :
  NoDup (f <$> l) → x ∈ l → y ∈ l → f x = f y → x = y.
Proof.
  induction l as [|a l IH]; [by intros _ ?%elem_of_nil|].
  rewrite fmap_cons. intros [Hnot Hnd]%NoDup_cons Hx Hy Heq.
  apply elem_of_cons in Hx as [->|Hx]; apply elem_of_cons in Hy as [->|Hy];
    [done| | |by apply IH].
  - exfalso. apply Hnot. rewrite Heq. by apply list_elem_of_fmap_2.
  - exfalso. apply Hnot. rewrite <- Heq. by apply list_elem_of_fmap_2.
Qed.

Lemma fs_exists_kept f f' d :
  files f' !! d = files f !! d → dirs f ⊆ dirs f' →
  fs_exists f d = true → fs_exists f' d = true.
Proof.
  intros Hf Hd. unfold fs_exists.
  rewrite !orb_true_iff, !bool_decide_eq_true, !elem_of_dom, Hf. set_solver.
Qed.

(** With distinct destinations and a capability that writes its own
    destination only, the file found at the destination of a path the
    dispatcher is about to skip stays as it is for the rest of the run. *)
Lemma skipped_destination_kept self w0 gen0 p g acts0 s :
  NoDup (dest_path_of self <$> yielded gen0) →
  capability_writes_dest_only self →
  csv_file_path self ≠ Some (dest_path_of self p) →
  exec self acts0 (init_state self w0 gen0) = Some s →
  pc s = Enumerating (Yield p :: g) →
  fs_exists (fs (world s)) (dest_path_of self p) = true →
  ∀ acts s', exec self acts s = Some s' →
    files (fs (world s')) !! dest_path_of self p
    = files (fs (world s)) !! dest_path_of self p
    ∧ fs_exists (fs (world s')) (dest_path_of self p) = true.
Proof.
  intros Hinj Hcap Hlog Hreach Hpc Hex acts s' Hexec.
  set (d := dest_path_of self p) in *.
  pose proof (NoDup_fmap_1 _ _ Hinj) as Hnd.
  assert (Hp : p ∈ yielded gen0).
  { destruct (run_items_mapped _ _ _ _ _ Hreach) as (_ & _ & L3).
    apply L3. rewrite Hpc. simpl. set_solver. }
  assert (HJ : files (fs (world s')) !! d = files (fs (world s)) !! d
               ∧ dirs (fs (world s)) ⊆ dirs (fs (world s'))
               ∧ (p ∈ skipped s' ∨ pc s' = Enumerating (Yield p :: g))).
  { revert acts s' Hexec. apply exec_invariant_reach; [by auto|].
    intros acts a s1 s2 Hexec1 (J1 & J2 & J3) Hstep.
    assert (Hreach1 : exec self (acts0 ++ acts) (init_state self w0 gen0) = Some s1).
    { by rewrite exec_app, Hreach. }
    pose proof (run_cur_dirs_ok _ _ _ _ _ Hreach1) as Hcur1.
    destruct a as [|i]; simpl in Hstep.
    - destruct (dispatcher_step_files _ _ _ Hcur1 Hstep) as (Hf & Hd & Hsk).
      split_and!; [by rewrite Hf|set_solver|].
      destruct J3 as [Hin|Hpc1]; [left; by apply Hsk|]. left.
      destruct (examine_spec self (cur_dirs s1) (count s1) p (world s1) Hcur1)
        as (w1 & (Hf1 & Hd1 & _) & Heq).
      assert (Hex1 : fs_exists (fs w1) d = true).
      { eapply (fs_exists_kept (fs (world s))); [|set_solver|done].
        by rewrite Hf1, J1. }
      fold d in Heq. rewrite Hex1 in Heq.
      unfold dispatcher_step in Hstep. rewrite Hpc1, Heq in Hstep.
      injection Hstep as <-. simpl. set_solver.
    - apply worker_step_inv in Hstep as (_ & next & q & Hq & Hs2).
      destruct next as [[src_path dest_path]|]; subst s2; simpl;
        [|by split_and!].
      destruct (run_paths_partition _ _ _ _ _ Hnd Hreach1) as (Hpart & Hqe & _).
      destruct (run_items_mapped _ _ _ _ _ Hreach1) as (L1 & _ & _).
      assert (Hin : (src_path, dest_path) ∈ enqueued s1).
      { apply Hqe. rewrite Hq. set_solver. }
      destruct (L1 _ Hin) as [Hy Hdest]. simpl in Hy, Hdest.
      assert (Hsrc : src_path ∈ (enqueued s1).*1).
      { apply list_elem_of_fmap. by exists (src_path, dest_path). }
      assert (Hne : src_path ≠ p).
      { intros ->. destruct J3 as [Hsk|Hpc1].
        - apply NoDup_app in Hpart as (_ & Hdisj & _).
          apply (Hdisj p Hsk). set_solver.
        - apply NoDup_app in Hpart as (_ & _ & Hpart).
          apply NoDup_app in Hpart as (_ & Hdisj & _).
          apply (Hdisj p Hsrc). rewrite Hpc1. simpl. set_solver. }
      assert (Hdne : d ≠ dest_path).
      { intros Heq. apply Hne. rewrite Hdest in Heq.
        symmetry. by eapply (NoDup_fmap_eq (dest_path_of self)). }
      destruct (worker_item_files self i src_path dest_path (world s1) d)
        as [Hf Hd]; [done..|].
      split_and!; [by rewrite Hf|set_solver|done]. }
  destruct HJ as (J1 & J2 & _). split; [done|].
  by eapply fs_exists_kept.
Qed.

(** C9, as the code has it.  In every state of a run over distinct source
    paths: when the dispatcher stands before a path whose mapped destination
    exists, its step records the skip on the console and moves on, leaving
    the queue and every file as they are; a skipped path stays skipped, is
    never enqueued, never waits at [queue.put], is in no queue entry, and is
    never handled by a worker, which is where placeholders and log rows come
    from; and when no two enumerated paths share a destination, the log is
    not that destination and the capability writes its own destination only,
    the file at the destination is the same in every later state. *)
Theorem existing_destination_is_skipped self w0 t s :
  NoDup (yielded (enumerate_files self t)) →
  run_reaches self w0 t s →
  (∀ p g,
     pc s = Enumerating (Yield p :: g) →
     fs_exists (fs (world s)) (dest_path_of self p) = true →
     (∃ s' msgs,
        dispatcher_step self s = Some s'
        ∧ pc s' = Enumerating g
        ∧ skipped s' = skipped s ++ [p]
        ∧ queue s' = queue s ∧ enqueued s' = enqueued s
        ∧ handled s' = handled s
        ∧ files (fs (world s')) = files (fs (world s))
        ∧ stdout (world s')
          = stdout (world s) ++ msgs ++ [MsgSkipping (dest_filename_of self p)])
     ∧ (NoDup (dest_path_of self <$> yielded (enumerate_files self t)) →
        capability_writes_dest_only self →
        csv_file_path self ≠ Some (dest_path_of self p) →
        ∀ acts s', exec self acts s = Some s' →
          files (fs (world s')) !! dest_path_of self p
          = files (fs (world s)) !! dest_path_of self p))
  ∧ (∀ p,
       p ∈ skipped s →
       (p ∉ (enqueued s).*1)
       ∧ (∀ d g, pc s ≠ Putting (p, d) g)
       ∧ (∀ d, Some (p, d) ∉ queue s)
       ∧ (∀ i d, (i, (p, d)) ∉ handled s))
  ∧ (∀ acts s', exec self acts s = Some s' →
                ∀ p, p ∈ skipped s → p ∈ skipped s').
Proof.
  intros Hnd [acts Hexec]. split_and!.
  - intros p g Hpc Hex. split.
    + pose proof (run_cur_dirs_ok _ _ _ _ _ Hexec) as Hcur.
      destruct (examine_spec self (cur_dirs s) (count s) p (world s) Hcur)
        as (w1 & Hfr & Heq).
      destruct Hfr as (Hf & Hd & _ & _ & msgs & Hout).
      assert (Hex1 : fs_exists (fs w1) (dest_path_of self p) = true).
      { eapply fs_exists_mono; [|exact Hd|exact Hex]. by rewrite Hf. }
      rewrite Hex1 in Heq.
      unfold dispatcher_step. rewrite Hpc, Heq.
      eexists _, msgs. split; [reflexivity|]. simpl.
      split_and!; try done. by rewrite Hout, <- app_assoc.
    + intros Hinj Hcap Hlog acts' s' Hexec'.
      by destruct (skipped_destination_kept self w0 _ p g acts s
                     Hinj Hcap Hlog Hexec Hpc Hex acts' s' Hexec').
  - intros p Hp.
    destruct (run_paths_partition _ _ _ _ _ Hnd Hexec) as (Hno & Hq & Hh).
    apply NoDup_app in Hno as (_ & Hdisj & _).
    specialize (Hdisj p Hp).
    assert (Henq : p ∉ (enqueued s).*1) by set_solver.
    split_and!; [done| | |].
    + intros d g Hpc. rewrite Hpc in Hdisj. simpl in Hdisj. set_solver.
    + intros d Hin. apply Henq. apply list_elem_of_fmap.
      exists (p, d). split; [done|by apply Hq].
    + intros i d Hin. apply Henq. apply list_elem_of_fmap.
      exists (p, d). split; [done|by eapply Hh].
  - intros acts' s' Hexec' p. by eapply exec_skipped_mono.
Qed.

Lemma existing_destination_is_skipped_witness :
  ∃ s',
    dispatcher_step self_rerun
      (init_state self_rerun world_rerun (enumerate_files self_rerun tree_rerun))
    = Some s'
    ∧ skipped s' = ["/src/1.jpg"] ∧ queue s' = [].
Proof.
  destruct (existing_destination_is_skipped self_rerun world_rerun tree_rerun
              (init_state self_rerun world_rerun
                 (enumerate_files self_rerun tree_rerun)))
    as (Hstep & _ & _).
  - vm_compute. apply NoDup_singleton.
  - by exists [].
  - destruct (Hstep "/src/1.jpg" []) as ((s' & msgs & Hs' & _ & Hsk & Hq & _) & _).
    + reflexivity.
    + by vm_compute.
    + exists s'. by split_and!.
Defined.

(** C9 fails as stated.  Three names that differ in the case of the
    extension share one destination.  Two of them are enqueued before
    anything exists there; the worker handles the first, the dispatcher
    finds the destination and skips the third, and the worker, handling the
    second, writes over the file the skip had found. *)
Lemma colliding_item_overwrites_skipped_destination :
  ∃ s s',
    exec self_collide sched_collide_skip
      (init_state self_collide empty_world
         (enumerate_files self_collide tree_collide)) = Some s
    ∧ pc s = Enumerating [Yield "/src/1.jpg"]
    ∧ files (fs (world s)) !! dest_path_of self_collide "/src/1.jpg"
      = Some "/src/1.JPG"
    ∧ exec self_collide [Dispatch; Work 0] s = Some s'
    ∧ skipped s' = ["/src/1.jpg"]
    ∧ files (fs (world s')) !! dest_path_of self_collide "/src/1.jpg"
      = Some "/src/1.Jpg".
Proof.
  destruct (exec self_collide sched_collide_skip
              (init_state self_collide empty_world
                 (enumerate_files self_collide tree_collide))) as [s|] eqn:Hexec;
    [|by vm_compute in Hexec].
  vm_compute in Hexec. injection Hexec as <-.
  eexists _, _. split; [reflexivity|]. split; [reflexivity|].
  split; [by vm_compute|]. split; [by vm_compute|].
  split; by vm_compute.
Qed.

(** ** The constructor, case by case *)

Lemma startswith_dot_cons c s :
  startswith (String c s) "." = bool_decide (c = "."%char).
Proof.
  simpl. destruct (decide ("."%char = c)) as [<-|Hne].
  - by rewrite !bool_decide_eq_true_2.
  - rewrite !bool_decide_eq_false_2; [done|congruence|done].
Qed.

Lemma with_dot_cons c s :
  with_dot (String c s)
  = if bool_decide (c = "."%char) then String c s else "." +:+ String c s.
Proof. unfold with_dot. by rewrite startswith_dot_cons. Qed.

Lemma init_unfold abspath a w :
  __init__ abspath a w
  = match arg_input_extension a with
    | "" => (Raise IndexError, w)
    | String _ _ =>
        let ie := with_dot (arg_input_extension a) in
        match default ie (arg_output_extension a) with
        | "" => (Raise IndexError, w)
        | String _ _ =>
            let oe := with_dot (default ie (arg_output_extension a)) in
            match arg_metadata_filename a, arg_metadata_columns a with
            | None, cols =>
                (Ok (mkSelf (abspath (arg_src_dir a)) (abspath (arg_dest_dir a))
                       (arg_preprocess_fn a) ie oe None cols (arg_num_processes a)
                       None None), w)
            | Some fn, None => (Raise AssertionError, w)
            | Some fn, Some raw =>
                (Ok (mkSelf (abspath (arg_src_dir a)) (abspath (arg_dest_dir a))
                       (arg_preprocess_fn a) ie oe (Some fn)
                       (Some (foldl remove_if_in raw reserved_columns))
                       (arg_num_processes a) (Some (reserved_columns ++ raw))
                       (Some (os_path.join (arg_dest_dir a) fn))),
                 set_stdout (λ out, out ++ [MsgCsvColumns (reserved_columns ++ raw)]) w)
            end
        end
    end.
Proof.
  assert (Hflip : ∀ (c : ascii) (x y : string),
            (if bool_decide (c ≠ "."%char) then x else y)
            = if bool_decide (c = "."%char) then y else x).
  { intros c0 x y. destruct (decide (c0 = "."%char)) as [->|Hne].
    - by rewrite bool_decide_eq_false_2, bool_decide_eq_true_2 by auto.
    - by rewrite bool_decide_eq_true_2, bool_decide_eq_false_2 by auto. }
  unfold __init__. munfold.
  destruct (arg_input_extension a) as [|c ie] eqn:Hie; [done|].
  cbv beta iota zeta. rewrite Hflip, <- with_dot_cons.
  generalize (with_dot (String c ie)) as ie'. intros ie'.
  destruct (arg_output_extension a) as [oe|]; cbn [default].
  - destruct oe as [|c' oe]; [done|]. rewrite Hflip, <- with_dot_cons.
    destruct (arg_metadata_filename a), (arg_metadata_columns a); done.
  - destruct ie' as [|c' oe]; [done|]. rewrite Hflip, <- with_dot_cons.
    destruct (arg_metadata_filename a), (arg_metadata_columns a); done.
Qed.

(** X1.  The outcome of the constructor, for every argument list.  It
    raises [IndexError] exactly when the input extension is empty or an empty
    output extension is given, [AssertionError] exactly when, the extensions
    being in order, a metadata file name comes without a column list, and
    returns an object otherwise; it never waits.  A call that raises leaves
    the world as it was; any call leaves the files, the log lock and the
    open files alone, and prints one line, the column order, exactly when it
    returns an object with a log. *)
Theorem init_outcome abspath a w :
  let r := __init__ abspath a w in
  (r.1 = Raise IndexError
   ↔ arg_input_extension a = "" ∨ arg_output_extension a = Some "")
  ∧ (r.1 = Raise AssertionError
     ↔ arg_input_extension a ≠ "" ∧ arg_output_extension a ≠ Some ""
       ∧ is_Some (arg_metadata_filename a) ∧ arg_metadata_columns a = None)
  ∧ r.1 ≠ Block
  ∧ (∀ e, r.1 = Raise e → (e = IndexError ∨ e = AssertionError) ∧ r.2 = w)
  ∧ fs r.2 = fs w ∧ csv_lock r.2 = csv_lock w
  ∧ open_handles r.2 = open_handles w
  ∧ (∀ self, r.1 = Ok self →
       stdout r.2
       = stdout w ++ match column_order self with
                     | Some co => [MsgCsvColumns co]
                     | None => []
                     end).
Proof.
  cbv zeta. rewrite init_unfold.
  assert (Hwd : ∀ e, e ≠ "" → with_dot e ≠ "").
  { intros [|c0 e0]; [done|]. rewrite with_dot_cons. by case_bool_decide. }
  destruct (arg_input_extension a) as [|c ie] eqn:Hie.
  { simpl. split_and!; try done; [naive_solver|naive_solver|naive_solver]. }
  cbv zeta. specialize (Hwd (String c ie)).
  destruct (with_dot (String c ie)) as [|ci ie'] eqn:Hie'; [by destruct Hwd|].
  clear Hwd.
  destruct (arg_output_extension a) as [[|c' oe]|] eqn:Hoe; cbn [default];
    [simpl; split_and!; try done; naive_solver|..];
    (destruct (arg_metadata_filename a) as [fn|],
       (arg_metadata_columns a) as [raw|];
     cbn [fst snd fs csv_lock open_handles stdout set_stdout];
     split_and!; try done;
     try (intros; simplify_eq/=; by rewrite ?app_nil_r);
     try (split; [by intros [?|?]; simplify_eq|done]);
     try (split; [done|by intros (? & ? & [? ?] & ?); simplify_eq]);
     try (split; [done|by intros (? & ? & ? & ?); simplify_eq]);
     try naive_solver).
Qed.

Lemma with_dot_startswith e : e ≠ "" → startswith (with_dot e) "." = true.
Proof.
  destruct e as [|c e]; [done|]. intros _. rewrite with_dot_cons.
  case_bool_decide as Hc; [|done]. rewrite startswith_dot_cons.
  by rewrite bool_decide_eq_true_2.
Qed.

Lemma init_Ok_inv abspath a w self w' :
  __init__ abspath a w = (Ok self, w') →
  arg_input_extension a ≠ ""
  ∧ default (with_dot (arg_input_extension a)) (arg_output_extension a) ≠ ""
  ∧ input_extension self = with_dot (arg_input_extension a)
  ∧ output_extension self
    = with_dot (default (with_dot (arg_input_extension a))
                        (arg_output_extension a))
  ∧ src_dir self = abspath (arg_src_dir a)
  ∧ dest_dir self = abspath (arg_dest_dir a)
  ∧ preprocess_fn self = arg_preprocess_fn a
  ∧ num_processes self = arg_num_processes a
  ∧ metadata_filename self = arg_metadata_filename a.
Proof.
  rewrite init_unfold.
  destruct (arg_input_extension a) as [|c ie]; [done|]. cbv zeta.
  destruct (default _ _) as [|c' oe]; [done|].
  destruct (arg_metadata_filename a), (arg_metadata_columns a);
    intros; simplify_eq; by split_and!.
Qed.

(** X2.  The extensions of a constructed object begin with a dot: an input
    extension given with its dot is kept, one without gets the dot
    prepended; without an output extension the object takes the normalised
    input extension, otherwise the given one, normalised the same way.  The
    directories are the absolute paths of the arguments; the capability, the
    number of processes and the metadata file name are the arguments. *)
Theorem init_normalises_extensions abspath a w self w' :
  __init__ abspath a w = (Ok self, w') →
  startswith (input_extension self) "." = true
  ∧ startswith (output_extension self) "." = true
  ∧ input_extension self
    = (if startswith (arg_input_extension a) "." then arg_input_extension a
       else "." +:+ arg_input_extension a)
  ∧ output_extension self
    = match arg_output_extension a with
      | None => input_extension self
      | Some e => if startswith e "." then e else "." +:+ e
      end
  ∧ src_dir self = abspath (arg_src_dir a)
  ∧ dest_dir self = abspath (arg_dest_dir a)
  ∧ preprocess_fn self = arg_preprocess_fn a
  ∧ num_processes self = arg_num_processes a
  ∧ metadata_filename self = arg_metadata_filename a.
Proof.
  intros (Hie & Hoe & -> & -> & -> & -> & -> & -> & ->)%init_Ok_inv.
  split_and!; try done.
  - by apply with_dot_startswith.
  - by apply with_dot_startswith.
  - destruct (arg_output_extension a) as [e|]; [done|]. cbn [default].
    unfold with_dot at 1. by rewrite with_dot_startswith.
Qed.

Lemma init_normalises_extensions_witness :
  ∃ self w',
    __init__ id args_usage_example empty_world = (Ok self, w')
    ∧ input_extension self = ".jpg" ∧ output_extension self = ".jpg".
Proof.
  destruct (__init__ id args_usage_example empty_world) as [[self| |] w'] eqn:Hinit;
    [|by vm_compute in Hinit..].
  exists self, w'. split; [done|].
  destruct (init_normalises_extensions _ _ _ _ _ Hinit) as (_ & _ & -> & -> & _).
  done.
Defined.

(** ** The column list the constructor keeps *)










(** ** [save_locals_to_self] *)

(** X4.  [save_locals_to_self]: afterwards [dct] has lost the names of
    [omit] and kept the rest, and [obj.__dict__] holds, under every name
    outside [omit], the value of [dct] when [dct] has the name and its former
    value otherwise; a name in [omit] keeps its former value in
    [obj.__dict__]. *)
Theorem save_locals_to_self_lookup {V} (obj dct : gmap string V) omit k :
  (save_locals_to_self obj dct omit).2 !! k
  = (if bool_decide (k ∈ omit) then None else dct !! k)
  ∧ (save_locals_to_self obj dct omit).1 !! k
    = (if bool_decide (k ∈ omit) then obj !! k
       else match dct !! k with Some v => Some v | None => obj !! k end).
Proof.
  unfold save_locals_to_self. cbn [fst snd].
  assert (Hd : foldl (λ dct k, if bool_decide (k ∈ dom dct)
                                then delete k dct else dct) dct omit !! k
               = if bool_decide (k ∈ omit) then None else dct !! k).
  { revert dct. induction omit as [|x omit IH]; intros dct; [done|].
    cbn [foldl]. rewrite IH.
    destruct (decide (k = x)) as [->|Hne].
    - rewrite (bool_decide_eq_true_2 (x ∈ x :: omit)) by set_solver.
      case_bool_decide; [done|]. case_bool_decide as Hx.
      + by rewrite lookup_delete_eq.
      + by apply not_elem_of_dom.
    - rewrite (bool_decide_ext (k ∈ x :: omit) (k ∈ omit)) by set_solver.
      case_bool_decide; [done|]. case_bool_decide; [|done].
      by rewrite lookup_delete_ne. }
  split; [done|]. rewrite lookup_union, Hd.
  case_bool_decide.
  - by destruct (obj !! k).
  - by destruct (dct !! k), (obj !! k).
Qed.

(** ** Strings and paths *)

Lemma str_take_app a b : str_take (String.length a) (a +:+ b) = a.
Proof. induction a as [|x a IH]; [by destruct b|]. simpl. by rewrite IH. Qed.

Lemma str_take_drop n s : str_take n s +:+ str_drop n s = s.
Proof.
  revert s. induction n as [|n IH]; intros [|x s]; try done.
  cbn [str_take str_drop]. change (String x ?a +:+ ?b) with (String x (a +:+ b)).
  f_equal. apply IH.
Qed.

Lemma rfind_app_sep c a b :
  rfind c b = None → rfind c (a +:+ String c b) = Some (String.length a).
Proof.
  intros Hb. induction a as [|x a IH]; simpl.
  - rewrite Hb. by rewrite bool_decide_eq_true_2.
  - by rewrite IH.
Qed.

Lemma rfind_Some c s k :
  rfind c s = Some k →
  ∃ a b, s = a +:+ String c b ∧ String.length a = k ∧ rfind c b = None.
Proof.
  revert k. induction s as [|x s IH]; intros k; [done|]. simpl.
  destruct (rfind c s) as [i|] eqn:Hs.
  - intros [= <-]. destruct (IH i eq_refl) as (a & b & -> & <- & Hb).
    by exists (String x a), b.
  - case_bool_decide as Hx; [|done]. intros [= <-]. subst x.
    by exists "", s.
Qed.

Lemma rfind_None_app c a b :
  rfind c (a +:+ b) = None ↔ rfind c a = None ∧ rfind c b = None.
Proof.
  induction a as [|x a IH].
  { simpl. split; [by intros ?|by intros [_ ?]]. }
  change (String x a +:+ b) with (String x (a +:+ b)). cbn [rfind].
  destruct (rfind c (a +:+ b)) eqn:Hab.
  - split; [done|]. intros [Ha Hb].
    destruct (rfind c a) eqn:Ha'; [done|].
    destruct IH as [_ IH]. by specialize (IH (conj eq_refl Hb)).
  - destruct IH as [IH _]. destruct (IH eq_refl) as [-> Hb].
    case_bool_decide; naive_solver.
Qed.

Lemma endswith_char_app_cons a x b c :
  endswith_char (a +:+ String x b) c = endswith_char (String x b) c.
Proof.
  induction a as [|y a IH]; [done|].
  change (String y a +:+ String x b) with (String y (a +:+ String x b)).
  cbn [endswith_char]. destruct (a +:+ String x b) eqn:Heq; [|done].
  by destruct a.
Qed.

Lemma endswith_char_snoc a c : endswith_char (a +:+ String c "") c = true.
Proof. rewrite endswith_char_app_cons. simpl. by rewrite bool_decide_eq_true_2. Qed.

Lemma endswith_char_inv s c :
  endswith_char s c = true → ∃ a, s = a +:+ String c "".
Proof.
  induction s as [|x s IH]; [done|]. simpl. destruct s as [|y s].
  - intros ->%bool_decide_eq_true. by exists "".
  - intros [a ->]%IH. by exists (String x a).
Qed.

Lemma all_char_app c a b : all_char c (a +:+ b) = all_char c a && all_char c b.
Proof. induction a as [|x a IH]; [done|]. simpl. by rewrite IH, andb_assoc. Qed.

Lemma all_char_endswith c s : s ≠ "" → all_char c s = true → endswith_char s c = true.
Proof.
  induction s as [|x s IH]; [done|]. intros _. simpl.
  rewrite andb_true_iff. intros [Hx Hs]. destruct s as [|y s]; [done|].
  by apply IH.
Qed.

Lemma rstrip_char_id c s : endswith_char s c = false → rstrip_char c s = s.
Proof.
  induction s as [|x s IH]; [done|]. simpl. destruct s as [|y s].
  - intros ->. done.
  - intros Hs. rewrite (IH Hs). done.
Qed.

Lemma rstrip_char_snoc c s : rstrip_char c (s +:+ String c "") = rstrip_char c s.
Proof.
  induction s as [|x s IH]; simpl.
  - by rewrite bool_decide_eq_true_2.
  - by rewrite IH.
Qed.

Lemma str_app_eq_nil a b : a +:+ b = "" → a = "" ∧ b = "".
Proof. by destruct a, b. Qed.

Lemma join_valid d f :
  valid_name f →
  os_path.join d f
  = if bool_decide (d = "") || endswith_char d os_path.sep then d +:+ f
    else d +:+ "/" +:+ f.
Proof. intros Hf. unfold os_path.join. by rewrite (valid_name_no_sep f Hf). Qed.

Lemma split_sep d f :
  rfind os_path.sep f = None →
  d ≠ "" → endswith_char d os_path.sep = false →
  os_path.split (d +:+ "/" +:+ f) = (d, f).
Proof.
  intros Hf Hd Hend. unfold os_path.split.
  change (d +:+ "/" +:+ f) with (d +:+ String os_path.sep f).
  rewrite (rfind_app_sep _ _ _ Hf).
  assert (Hlen : S (String.length d) = String.length (d +:+ "/")).
  { rewrite str_length_app. simpl. lia. }
  assert (Heq : d +:+ String os_path.sep f = (d +:+ "/") +:+ f).
  { by rewrite str_app_assoc. }
  rewrite Heq, Hlen, str_take_app, str_drop_app.
  assert (Hall : all_char os_path.sep (d +:+ "/") = false).
  { rewrite all_char_app. apply andb_false_iff. left.
    destruct (all_char os_path.sep d) eqn:Hall; [|done].
    by rewrite (all_char_endswith _ _ Hd Hall) in Hend. }
  rewrite Hall. rewrite bool_decide_eq_false_2.
  2:{ intros [? ?]%str_app_eq_nil. done. }
  cbn [negb andb]. f_equal.
  change (d +:+ "/") with (d +:+ String os_path.sep "").
  rewrite rstrip_char_snoc. by apply rstrip_char_id.
Qed.

Lemma split_join_tail d f :
  valid_name f → (os_path.split (os_path.join d f)).2 = f.
Proof.
  intros Hf. rewrite (join_valid _ _ Hf). destruct Hf as [Hne Hsep].
  destruct (decide (d = "")) as [->|Hd].
  { rewrite bool_decide_eq_true_2 by done. cbn [orb].
    unfold os_path.split. cbn [snd].
    change ("" +:+ f) with f. by rewrite Hsep. }
  rewrite bool_decide_eq_false_2 by done. cbn [orb].
  destruct (endswith_char d os_path.sep) eqn:Hend.
  - apply endswith_char_inv in Hend as [a ->].
    unfold os_path.split. cbn [snd]. rewrite str_app_assoc.
    change (String os_path.sep "" +:+ f) with (String os_path.sep f).
    rewrite (rfind_app_sep _ _ _ Hsep).
    assert (Hlen : S (String.length a) = String.length (a +:+ "/")).
    { rewrite str_length_app. simpl. lia. }
    assert (Heq : a +:+ String os_path.sep f = (a +:+ "/") +:+ f).
    { by rewrite str_app_assoc. }
    by rewrite Heq, Hlen, str_drop_app.
  - by rewrite split_sep.
Qed.

Lemma splitext_app p : (os_path.splitext p).1 +:+ (os_path.splitext p).2 = p.
Proof.
  unfold os_path.splitext. case_bool_decide; [|apply str_app_nil_r].
  destruct (negb _); [apply str_take_drop|apply str_app_nil_r].
Qed.

Lemma splitext_ext p :
  (os_path.splitext p).2 ≠ "" →
  startswith (os_path.splitext p).2 "." = true ∧ (os_path.splitext p).1 ≠ "".
Proof.
  unfold os_path.splitext.
  destruct (rfind os_path.extsep p) as [k|] eqn:Hdot.
  2:{ rewrite bool_decide_eq_false_2; [done|].
      destruct (rfind os_path.sep p); cbv beta iota; lia. }
  apply rfind_Some in Hdot as (a & b & -> & <- & Hb).
  case_bool_decide as Hgt; [|done].
  destruct (negb _) eqn:Hlead; [|done]. cbn [fst snd]. intros _.
  rewrite Nat2Z.id, str_take_app, str_drop_app. split; [done|].
  intros ->.
  change ("" +:+ String os_path.extsep b) with (String os_path.extsep b) in *.
  cbn [String.length] in *.
  destruct (rfind os_path.sep (String os_path.extsep b)) as [n|]; [lia|].
  by vm_compute in Hlead.
Qed.

Lemma constructed_input_extension self :
  constructed self → startswith (input_extension self) "." = true.
Proof.
  intros (abspath & a & w & w' & Hinit).
  apply init_Ok_inv in Hinit as (Hie & _ & -> & _).
  by apply with_dot_startswith.
Qed.

Lemma ext_matches_inv self f :
  constructed self →
  ext_matches (input_extension self) f = true →
  ∃ base ext,
    os_path.splitext f = (base, ext) ∧ f = base +:+ ext
    ∧ base ≠ "" ∧ startswith ext "." = true
    ∧ str_lower ext = input_extension self.
Proof.
  intros Hc Hm%bool_decide_eq_true.
  assert (Hdot := constructed_input_extension self Hc).
  assert (Hext : (os_path.splitext f).2 ≠ "").
  { intros Heq. rewrite Heq in Hm. simpl in Hm. by rewrite <- Hm in Hdot. }
  destruct (splitext_ext f Hext) as [Hs Hb].
  exists (os_path.splitext f).1, (os_path.splitext f).2.
  split_and!; try done; [by destruct (os_path.splitext f)|].
  by rewrite splitext_app.
Qed.

(** ** The shape of the enumerated paths *)

Lemma rfind_None_endswith c s : rfind c s = None → endswith_char s c = false.
Proof.
  induction s as [|x s IH]; [done|]. simpl.
  destruct (rfind c s); [done|]. case_bool_decide as Hx; [done|]. intros _.
  destruct s as [|y s]; [done|]. by apply IH.
Qed.

Lemma endswith_char_app a b c :
  b ≠ "" → endswith_char (a +:+ b) c = endswith_char b c.
Proof. destruct b as [|x b]; [done|]. intros _. apply endswith_char_app_cons. Qed.

Lemma startswith_app_l a b c :
  a ≠ "" → startswith (a +:+ b) (String c "") = startswith a (String c "").
Proof. by destruct a. Qed.

Lemma under_dir root rel :
  root ≠ "" → endswith_char root os_path.sep = false → rel_path rel →
  under root rel ≠ "" ∧ endswith_char (under root rel) os_path.sep = false.
Proof.
  intros Hne Hend [Hs He]. unfold under. case_bool_decide as Hrel; [done|].
  split.
  - intros [? _]%str_app_eq_nil. done.
  - rewrite endswith_char_app by done.
    change ("/" +:+ rel) with (String os_path.sep rel).
    destruct rel as [|x rel]; [done|]. exact He.
Qed.

Lemma rel_path_join rel n :
  rel_path rel → valid_name n → rel_path (os_path.join rel n).
Proof.
  intros [Hs He] Hn. rewrite (join_valid _ _ Hn). rewrite He, orb_false_r.
  assert (Hns := valid_name_no_sep n Hn). destruct Hn as [Hne Hsep].
  assert (Hne' := rfind_None_endswith _ _ Hsep).
  case_bool_decide as Hrel.
  - subst rel. by split.
  - split.
    + by rewrite startswith_app_l.
    + rewrite endswith_char_app by (by destruct n).
      change ("/" +:+ n) with (String os_path.sep n).
      by destruct n.
Qed.

Lemma join_under root rel n :
  root ≠ "" → endswith_char root os_path.sep = false → rel_path rel →
  valid_name n →
  os_path.join (under root rel) n = under root (os_path.join rel n).
Proof.
  intros Hne Hend Hrel Hn.
  destruct (under_dir root rel Hne Hend Hrel) as [Hune Huend].
  rewrite !(join_valid _ _ Hn), Huend.
  rewrite (bool_decide_eq_false_2 (under root rel = "")) by done.
  destruct Hrel as [_ ->]. rewrite orb_false_r. cbn [orb].
  unfold under. case_bool_decide as Hr.
  - subst rel. simpl. rewrite bool_decide_eq_false_2; [done|].
    destruct Hn as [? _]. done.
  - rewrite bool_decide_eq_false_2.
    2:{ intros [? _]%str_app_eq_nil. done. }
    by rewrite !str_app_assoc.
Qed.

Lemma tree_files_under self top t rel d f :
  src_dir self ≠ "" → endswith_char (src_dir self) os_path.sep = false →
  tree_valid t → rel_path rel → top = under (src_dir self) rel →
  (d, f) ∈ tree_files top t →
  ∃ rel', rel_path rel' ∧ d = under (src_dir self) rel' ∧ valid_name f.
Proof.
  intros Hne Hend. revert top rel.
  induction t as [filenames subdirs IH] using tree_induction.
  intros top rel [Hfiles Hvalid] Hrel ->. simpl. rewrite elem_of_app.
  intros [Hin|Hin].
  - apply list_elem_of_fmap in Hin as (f' & [= -> ->] & Hf).
    exists rel. split_and!; [done..|]. by eapply Forall_forall in Hfiles.
  - induction subdirs as [|[n t] ds IHds]; [by apply elem_of_nil in Hin|].
    simpl in *. destruct Hvalid as (Hn & Ht & Hds).
    apply Forall_cons in IH as [IHt IHrest].
    apply elem_of_app in Hin as [Hin|Hin]; [|by apply IHds].
    eapply (IHt _ (os_path.join rel n)); [done| | |done].
    + by apply rel_path_join.
    + by apply join_under.
Qed.

Lemma tree_example_valid : tree_valid tree_example.
Proof. repeat split; repeat constructor; done. Qed.

(** X5.  Over a valid tree the enumerator does not raise: its events are
    yields only.  The yielded paths are the files of the tree whose
    lower-cased extension is [self.input_extension], each joined to its
    directory, the files of a directory before those of its
    sub-directories, in listing order; every one starts with
    [self.src_dir]. *)
Theorem enumerate_files_walk_order self t :
  tree_valid t →
  enumerate_files self t = Yield <$> yielded (enumerate_files self t)
  ∧ yielded (enumerate_files self t)
    = (λ df, os_path.join df.1 df.2)
        <$> filter (λ df : string * string,
                      str_lower (os_path.splitext df.2).2 = input_extension self)
                   (tree_files (src_dir self) t)
  ∧ ∀ p, p ∈ yielded (enumerate_files self t) →
         startswith p (src_dir self) = true.
Proof.
  intros Hv. rewrite enumerate_files_spec by done.
  rewrite list_fmap_compose, yielded_fmap. split; [done|]. split.
  - f_equal. apply list_filter_iff. intros [d f]. unfold ext_matches. simpl.
    by rewrite bool_decide_eq_true.
  - intros p Hp. apply enumerate_files_prefixed with t; [done|].
    rewrite enumerate_files_spec by done.
    by rewrite list_fmap_compose, yielded_fmap.
Qed.

Lemma enumerate_files_walk_order_witness :
  yielded (enumerate_files self_usage_example tree_example)
  = ["/data/testimgs/a.jpg"; "/data/testimgs/sub/b.JPG"].
Proof.
  destruct (enumerate_files_walk_order self_usage_example tree_example)
    as (_ & -> & _); [apply tree_example_valid|]. by vm_compute.
Defined.

Lemma yielded_enumerate_inv self t p :
  tree_valid t →
  p ∈ yielded (enumerate_files self t) →
  ∃ d f, p = os_path.join d f
         ∧ (d, f) ∈ tree_files (src_dir self) t
         ∧ ext_matches (input_extension self) f = true.
Proof.
  intros Hv. rewrite enumerate_files_spec by done.
  rewrite list_fmap_compose, yielded_fmap.
  intros ([d f] & -> & Hin)%list_elem_of_fmap.
  apply list_elem_of_filter in Hin as [Hm Hin]. by exists d, f.
Qed.

(** X6.  Every path a constructed object enumerates has a file name
    [base ++ ext] that [splitext] splits there, with [base] not empty and
    [ext] beginning with a dot and lower-casing to the input extension: a
    name without an extension, and a name that is an extension only (a
    leading dot, as [.jpg]), is never yielded.  [run] recovers the name with
    [os.path.split] and maps it to [base ++ self.output_extension]. *)
Theorem enumerated_names_have_extension self t p :
  constructed self → tree_valid t →
  p ∈ yielded (enumerate_files self t) →
  ∃ d base ext,
    p = os_path.join d (base +:+ ext)
    ∧ (d, base +:+ ext) ∈ tree_files (src_dir self) t
    ∧ os_path.splitext (base +:+ ext) = (base, ext)
    ∧ base ≠ "" ∧ startswith ext "." = true
    ∧ str_lower ext = input_extension self
    ∧ (os_path.split p).2 = base +:+ ext
    ∧ dest_filename_of self p = base +:+ output_extension self.
Proof.
  intros Hc Hv (d & f & -> & Hin & Hm)%yielded_enumerate_inv; [|done].
  destruct (ext_matches_inv self f Hc Hm) as (base & ext & Hsp & Hf & Hb & Hdot & Hlow).
  assert (Hvalid : valid_name f).
  { by eapply (tree_files_roots self), proj2 in Hin; [|done|apply startswith_refl]. }
  exists d, base, ext. rewrite <- Hf.
  split_and!; try done.
  - by apply split_join_tail.
  - unfold dest_filename_of. by rewrite split_join_tail, Hsp.
Qed.

Lemma enumerated_names_have_extension_witness :
  ∃ d base ext,
    "/data/testimgs/sub/b.JPG" = os_path.join d (base +:+ ext)
    ∧ base ≠ "" ∧ str_lower ext = ".jpg"
    ∧ dest_filename_of self_usage_example "/data/testimgs/sub/b.JPG"
      = base +:+ ".jpg".
Proof.
  destruct (enumerated_names_have_extension self_usage_example tree_example
              "/data/testimgs/sub/b.JPG")
    as (d & base & ext & Hp & _ & _ & Hb & _ & Hl & _ & Hd).
  - apply usage_example_constructed.
  - apply tree_example_valid.
  - apply (bool_decide_unpack _). by vm_compute.
  - by exists d, base, ext.
Defined.

Lemma str_drop_all n s : (String.length s ≤ n)%nat → str_drop n s = "".
Proof.
  revert n. induction s as [|x s IH]; intros [|n]; simpl; try done; try lia.
  intros Hn. apply IH. lia.
Qed.

Lemma splitext_base_valid f :
  valid_name f → startswith (os_path.splitext f).1 "/" = false
                 ∧ (os_path.splitext f).1 ≠ "".
Proof.
  intros Hf. assert (Hns := valid_name_no_sep f Hf). destruct Hf as [Hne Hsep].
  assert (Hb : (os_path.splitext f).1 ≠ "").
  { destruct (decide ((os_path.splitext f).2 = "")) as [He|He].
    - assert (Happ := splitext_app f). rewrite He, str_app_nil_r in Happ.
      by rewrite Happ.
    - by apply splitext_ext. }
  split; [|done]. rewrite <- (splitext_app f) in Hns.
  by rewrite startswith_app_l in Hns.
Qed.

(** X7.  The destination mirrors the source.  Below a source directory
    with no separator at its end, every enumerated path is [src_dir/rel/f]
    ([src_dir/f] at the top, [rel] empty) for a relative directory [rel] and
    a name [f]; [run] splits it into that directory and [f], mirrors the
    directory to [join(dest_dir, rel)] and maps the path to
    [join(join(dest_dir, rel), base ++ output_extension)], which is
    [dest_dir/rel/base ++ output_extension] when [dest_dir] has no separator
    at its end either; the path column of its row is [join(rel, f)]. *)
Theorem destination_mirrors_source self t p :
  proper_dir (src_dir self) →
  tree_valid t →
  p ∈ yielded (enumerate_files self t) →
  ∃ rel f,
    rel_path rel ∧ valid_name f
    ∧ p = under (src_dir self) rel +:+ "/" +:+ f
    ∧ os_path.split p = (under (src_dir self) rel, f)
    ∧ mirror_dir self (under (src_dir self) rel)
      = os_path.join (dest_dir self) rel
    ∧ dest_path_of self p
      = os_path.join (os_path.join (dest_dir self) rel)
          ((os_path.splitext f).1 +:+ output_extension self)
    ∧ (proper_dir (dest_dir self) →
       dest_path_of self p
       = under (dest_dir self) rel +:+ "/"
           +:+ (os_path.splitext f).1 +:+ output_extension self)
    ∧ str_drop (String.length (src_dir self) + 1) p = os_path.join rel f.
Proof.
  intros [Hne Hend] Hv (d & f & -> & Hin & Hm)%yielded_enumerate_inv; [|done].
  destruct (tree_files_under self (src_dir self) t "" d f)
    as (rel & Hrel & -> & Hf); try done.
  destruct (under_dir _ rel Hne Hend Hrel) as [Hune Huend].
  assert (Hjoin : os_path.join (under (src_dir self) rel) f
                  = under (src_dir self) rel +:+ "/" +:+ f).
  { rewrite (join_valid _ _ Hf), Huend.
    by rewrite bool_decide_eq_false_2. }
  assert (Hsplit : os_path.split (os_path.join (under (src_dir self) rel) f)
                   = (under (src_dir self) rel, f)).
  { rewrite Hjoin. apply split_sep; [by destruct Hf|done..]. }
  assert (Hmirror : mirror_dir self (under (src_dir self) rel)
                    = os_path.join (dest_dir self) rel).
  { unfold mirror_dir. f_equal. unfold under. case_bool_decide as Hr.
    - subst rel. apply str_drop_all. lia.
    - apply relative_path. }
  assert (Hdest : dest_path_of self (os_path.join (under (src_dir self) rel) f)
                  = os_path.join (os_path.join (dest_dir self) rel)
                      ((os_path.splitext f).1 +:+ output_extension self)).
  { unfold dest_path_of, dest_filename_of. rewrite Hsplit. cbn [fst snd].
    by rewrite Hmirror. }
  exists rel, f. split_and!; try done.
  - intros [Hdne Hdend]. rewrite Hdest.
    destruct (splitext_base_valid f Hf) as [Hbs Hbne].
    destruct Hrel as [Hrs Hre].
    unfold os_path.join at 2. rewrite Hrs, Hdend.
    rewrite (bool_decide_eq_false_2 (dest_dir self = "")) by done. cbn [orb].
    unfold os_path.join. rewrite startswith_app_l by done. rewrite Hbs.
    rewrite bool_decide_eq_false_2.
    2:{ intros [? _]%str_app_eq_nil. done. }
    cbn [orb]. unfold under. case_bool_decide as Hr.
    + subst rel. rewrite str_app_nil_r, endswith_char_snoc.
      by rewrite !str_app_assoc.
    + rewrite endswith_char_app by (by destruct rel).
      change ("/" +:+ rel) with (String os_path.sep rel).
      assert (endswith_char (String os_path.sep rel) os_path.sep = false) as ->.
      { by destruct rel. }
      by rewrite !str_app_assoc.
  - rewrite Hjoin. unfold under. case_bool_decide as Hr.
    + subst rel. rewrite relative_path. by rewrite (join_valid _ _ Hf).
    + rewrite !str_app_assoc. rewrite relative_path.
      rewrite (join_valid _ _ Hf). destruct Hrel as [_ ->].
      by rewrite bool_decide_eq_false_2.
Qed.

Lemma destination_mirrors_source_witness :
  ∃ rel f,
    "/data/testimgs/sub/b.JPG" = under "/data/testimgs" rel +:+ "/" +:+ f
    ∧ dest_path_of self_usage_example "/data/testimgs/sub/b.JPG"
      = under "/data/testimgs_out" rel +:+ "/"
          +:+ (os_path.splitext f).1 +:+ ".jpg".
Proof.
  destruct (destination_mirrors_source self_usage_example tree_example
              "/data/testimgs/sub/b.JPG")
    as (rel & f & _ & _ & Hp & _ & _ & _ & Hd & _).
  - by split.
  - apply tree_example_valid.
  - apply (bool_decide_unpack _). by vm_compute.
  - exists rel, f. split; [done|]. apply Hd. by split.
Defined.

(** ** The accounts of the dispatcher and the queue *)

Lemma queue_items_snoc_Some q it : queue_items (q ++ [Some it]) = queue_items q ++ [it].
Proof. unfold queue_items. by rewrite omap_app. Qed.

Lemma queue_items_snoc_None q : queue_items (q ++ [None]) = queue_items q.
Proof. unfold queue_items. by rewrite omap_app, app_nil_r. Qed.

Lemma queue_items_length q : (length (queue_items q) ≤ length q)%nat.
Proof.
  induction q as [|[it|] q IH]; simpl; [lia|..]; unfold queue_items in *; simpl; lia.
Qed.

Lemma drain_pc_pending (alive : list nat) :
  pending_src match alive with [] => Done | _ :: _ => Draining alive end = [].
Proof. by destruct alive. Qed.

Lemma drain_pc_remaining (alive : list nat) :
  remaining match alive with [] => Done | _ :: _ => Draining alive end = [].
Proof. by destruct alive. Qed.

Lemma dispatch_inv_step self gen0 a s s' :
  cur_dirs_ok self (cur_dirs s) →
  dispatch_inv gen0 s →
  step self a s = Some s' →
  dispatch_inv gen0 s'.
Proof.
  intros Hcur (Hcount & Hperm & Hfifo & Hlen) Hstep.
  destruct a as [|i]; simpl in Hstep.
  - apply dispatcher_step_inv in Hstep; [|done].
    destruct Hstep as [[Hpc ->]|[(e & g & Hpc & ->)|[(p & g & w1 & Hpc & _ & _ & ->)
      |[(p & g & w1 & Hpc & _ & _ & ->)|[(next & g & Hpc & Hfull & ->)
      |[(alive & Hpc & Hfull & ->)|(alive & Hpc & Hfull & ->)]]]]]].
    + destruct (drain_next_fields (seq 0 (length (procs s))) s)
        as (Hq & _ & Hc & _ & He & Hh & Hs & _ & _ & _ & Hpc').
      unfold dispatch_inv. rewrite Hq, Hc, He, Hh, Hs, Hpc'.
      rewrite drain_pc_pending, drain_pc_remaining.
      rewrite Hpc in Hperm. simpl in Hperm.
      split_and!; done.
    + unfold dispatch_inv. simpl. rewrite Hpc in Hperm. simpl in Hperm. by split_and!.
    + unfold dispatch_inv. simpl. rewrite Hpc in Hperm. simpl in Hperm.
      split_and!; try done. rewrite Hperm.
      rewrite <- app_assoc. apply Permutation_app_head. simpl.
      symmetry. apply Permutation_middle.
    + unfold dispatch_inv. simpl. rewrite Hpc in Hperm. simpl in Hperm.
      by split_and!.
    + unfold dispatch_inv. simpl. rewrite Hpc in Hperm. simpl in Hperm.
      apply queue_full_false in Hfull.
      rewrite length_app, fmap_app, queue_items_snoc_Some, length_app. simpl.
      split_and!; [lia| |by rewrite Hfifo, app_assoc|lia].
      rewrite Hperm. apply Permutation_app_head.
      by rewrite <- !app_assoc.
    + match goal with |- dispatch_inv _ (drain_next ?k ?s0) =>
        destruct (drain_next_fields k s0)
          as (Hq & _ & Hc & _ & He & Hh & Hs & _ & _ & _ & Hpc') end.
      unfold dispatch_inv. rewrite Hq, Hc, He, Hh, Hs, Hpc'.
      rewrite drain_pc_pending, drain_pc_remaining. simpl.
      rewrite Hpc in Hperm. simpl in Hperm.
      split_and!; done.
    + unfold dispatch_inv. simpl. rewrite Hpc in *. simpl in *.
      apply queue_full_false in Hfull.
      rewrite queue_items_snoc_None, length_app. simpl.
      split_and!; try done. lia.
  - apply worker_step_inv in Hstep as (Hrun & next & q & Hq & Hs').
    rewrite Hq in Hfifo, Hlen. simpl in Hlen.
    destruct next as [it|]; subst s'; unfold dispatch_inv; simpl.
    + split_and!; try done; [|lia].
      rewrite fmap_app. simpl. rewrite <- app_assoc. exact Hfifo.
    + split_and!; try done. lia.
Qed.

Lemma run_dispatch_inv self w0 gen0 acts s :
  exec self acts (init_state self w0 gen0) = Some s →
  dispatch_inv gen0 s.
Proof.
  revert acts s. apply exec_invariant_reach.
  - unfold dispatch_inv. simpl. split_and!; try done. lia.
  - intros acts a s s' Hexec Hinv Hstep.
    eapply dispatch_inv_step; [|done..]. by eapply run_cur_dirs_ok.
Qed.

(** X8.  Throughout a run [count] is the number of items put so far
    (skipped paths are not counted), and the enumerated paths are, up to
    order, the skipped ones, the enqueued ones, the one held at [queue.put]
    and those not yet yielded: every path the loop has examined was skipped
    or enqueued, once.  In the stopping loop and after it they are the
    skipped and the enqueued ones. *)
Theorem every_path_is_skipped_or_enqueued self w0 t s :
  run_reaches self w0 t s →
  count s = length (enqueued s)
  ∧ yielded (enumerate_files self t)
    ≡ₚ skipped s ++ (enqueued s).*1 ++ pending_src (pc s) ++ remaining (pc s)
  ∧ (stopping (pc s) →
     yielded (enumerate_files self t) ≡ₚ skipped s ++ (enqueued s).*1).
Proof.
  intros [acts Hexec].
  destruct (run_dispatch_inv _ _ _ _ _ Hexec) as (Hcount & Hperm & _).
  split_and!; try done. intros Hstop.
  destruct (stopping_remaining _ Hstop) as [Hp Hr].
  by rewrite Hp, Hr, !app_nil_r in Hperm.
Qed.

Lemma every_path_is_skipped_or_enqueued_witness :
  ∃ s,
    exec self_drain sched_complete
      (init_state self_drain empty_world (enumerate_files self_drain tree_drain))
    = Some s
    ∧ count s = 1%nat
    ∧ yielded (enumerate_files self_drain tree_drain)
      ≡ₚ skipped s ++ (enqueued s).*1.
Proof.
  destruct (exec self_drain sched_complete
              (init_state self_drain empty_world
                 (enumerate_files self_drain tree_drain))) as [s|] eqn:Hexec;
    [|by vm_compute in Hexec].
  exists s. split; [done|].
  destruct (every_path_is_skipped_or_enqueued self_drain empty_world tree_drain s)
    as (Hcount & _ & Hstop); [by exists sched_complete|].
  vm_compute in Hexec. injection Hexec as <-.
  split; [done|]. by apply Hstop.
Defined.

(** X9.  The queue is first-in first-out and bounded.  At any time of a
    run the items enqueued so far are the items handled so far, in the order
    of handling, followed by the items still in the queue: every item is
    taken by one worker, once, in the order of the [put]s.  The queue never
    holds more than [maxsize] entries. *)
Theorem items_are_handled_in_queue_order self w0 t s :
  run_reaches self w0 t s →
  enqueued s = (handled s).*2 ++ queue_items (queue s)
  ∧ (length (queue s) ≤ maxsize)%nat.
Proof.
  intros [acts Hexec].
  by destruct (run_dispatch_inv _ _ _ _ _ Hexec) as (_ & _ & Hfifo & Hlen).
Qed.

Lemma items_are_handled_in_queue_order_witness :
  ∃ s,
    exec self_leak [Dispatch; Dispatch; Dispatch; Dispatch; Work 1]
      (init_state self_leak empty_world (enumerate_files self_leak tree_leak))
    = Some s
    ∧ enqueued s = (handled s).*2 ++ queue_items (queue s)
    ∧ handled s = [(1%nat, ("/src/1.jpg", "/out/1.png"))]
    ∧ queue s = [Some ("/src/2.jpg", "/out/2.png")].
Proof.
  destruct (exec self_leak [Dispatch; Dispatch; Dispatch; Dispatch; Work 1]
              (init_state self_leak empty_world
                 (enumerate_files self_leak tree_leak))) as [s|] eqn:Hexec;
    [|by vm_compute in Hexec].
  exists s. split; [done|].
  destruct (items_are_handled_in_queue_order self_leak empty_world tree_leak s)
    as [Hfifo _]; [by eexists|].
  split; [done|]. vm_compute in Hexec. by injection Hexec as <-.
Defined.

(** X10.  With [num_processes=0] nothing is ever handled and no regular
    file changes; at most [maxsize] items are ever enqueued (the next [put]
    waits for ever), so a run is done only if all but [maxsize] of the
    enumerated paths were skipped. *)
Theorem no_worker_no_work self w0 t s :
  num_processes self = 0%nat →
  run_reaches self w0 t s →
  handled s = []
  ∧ files (fs (world s)) = files (fs w0)
  ∧ (length (enqueued s) ≤ maxsize)%nat
  ∧ (pc s = Done →
     (length (yielded (enumerate_files self t)) ≤ length (skipped s) + maxsize)%nat).
Proof.
  intros Hn [acts Hexec].
  assert (Hinv : procs s = [] ∧ handled s = []
                 ∧ files (fs (world s)) = files (fs w0)).
  { revert acts s Hexec. apply exec_invariant_reach.
    - unfold init_state. rewrite Hn. done.
    - intros acts a s s' Hexec (Hprocs & Hh & Hf) Hstep.
      destruct a as [|i]; simpl in Hstep.
      + destruct (dispatcher_step_workers _ _ _ Hstep) as [-> ->].
        apply dispatcher_step_files in Hstep as (-> & _);
          [done|by eapply run_cur_dirs_ok].
      + apply worker_step_inv in Hstep as [Hrun _].
        by rewrite Hprocs in Hrun. }
  destruct Hinv as (_ & Hh & Hf).
  destruct (run_dispatch_inv _ _ _ _ _ Hexec) as (_ & Hperm & Hfifo & Hlen).
  rewrite Hh in Hfifo. simpl in Hfifo.
  assert (Hle : (length (enqueued s) ≤ maxsize)%nat).
  { rewrite Hfifo. etrans; [apply queue_items_length|]. done. }
  split_and!; try done. intros Hdone. rewrite Hdone in Hperm. simpl in Hperm.
  rewrite Hperm, !app_nil_r, length_app, length_fmap. lia.
Qed.

Lemma no_worker_no_work_witness :
  ∃ s,
    exec self_idle [Dispatch; Dispatch; Dispatch]
      (init_state self_idle empty_world (enumerate_files self_idle tree_drain))
    = Some s
    ∧ pc s = Done ∧ handled s = []
    ∧ enqueued s = [("/src/1.jpg", "/out/1.png")].
Proof.
  destruct (exec self_idle [Dispatch; Dispatch; Dispatch]
              (init_state self_idle empty_world
                 (enumerate_files self_idle tree_drain))) as [s|] eqn:Hexec;
    [|by vm_compute in Hexec].
  exists s. split; [done|].
  destruct (no_worker_no_work self_idle empty_world tree_drain s)
    as (Hh & _); [done|by eexists|].
  vm_compute in Hexec. by injection Hexec as <-.
Defined.

(** ** One iteration of the worker, in every case *)

Lemma after_try_fields src_path dest_path o f' w :
  fs (after_try src_path dest_path o f' w) = outcome_fs dest_path o f'
  ∧ stdout (after_try src_path dest_path o f' w)
    = stdout w ++ outcome_msgs src_path o
  ∧ csv_lock (after_try src_path dest_path o f' w) = csv_lock w
  ∧ open_handles (after_try src_path dest_path o f' w) = open_handles w.
Proof.
  unfold after_try, outcome_fs, outcome_msgs.
  destruct o as [[] ? ?|?]; simpl; by rewrite ?app_nil_r.
Qed.

(** [write_metadata] prints nothing, takes no lock and leaves no file open;
    it appends to the log or leaves the file system as it is. *)
Lemma write_metadata_frame self (metadata : dict) w :
  stdout (write_metadata self metadata w).2 = stdout w
  ∧ csv_lock (write_metadata self metadata w).2 = csv_lock w
  ∧ open_handles (write_metadata self metadata w).2 = open_handles w
  ∧ (fs (write_metadata self metadata w).2 = fs w
     ∨ ∃ p row, csv_file_path self = Some p
                ∧ (write_metadata self metadata w).1 = Ok tt
                ∧ fs (write_metadata self metadata w).2
                  = append_text p (csv.writerow row) (fs w)).
Proof.
  unfold write_metadata.
  destruct (metadata_filename self); [|by split_and!; try left].
  destruct (column_order self) as [co|]; [|by split_and!; try left].
  munfold. cbv beta iota. case_bool_decide; [|by split_and!; try left].
  pose proof (getitems_world metadata co w) as Hw.
  destruct (getitems metadata co w) as [[row| |] w1]; simpl in Hw; subst w1;
    [|by split_and!; try left..].
  destruct (csv_file_path self) as [p|]; [|by split_and!; try left].
  cbv beta iota.
  pose proof (open_append_close p (csv.writerow row) w) as Hoc.
  munfold. rewrite Hoc. simpl. split_and!; try done. right. by exists p, row.
Qed.

(** The iteration of the worker loop, case by case. *)
Lemma worker_item_unfold self pid src_path dest_path w :
  let o := (preprocess_fn self src_path dest_path (fs w)).1 in
  let f' := (preprocess_fn self src_path dest_path (fs w)).2 in
  let w1 := after_try src_path dest_path o f'
              (set_stdout (λ out, out ++ [MsgWillProcess pid src_path]) w) in
  worker_item self pid (src_path, dest_path) w
  = match metadata_columns self with
    | None => (Raise TypeError, w1)
    | Some cols =>
        if csv_lock w then (Block, w1)
        else
          match write_metadata self (finish_row self cols src_path (observed o))
                  (set_csv_lock true w1) with
          | (Ok _, w2) => (Ok tt, set_csv_lock false w2)
          | (Raise e, w2) => (Raise e, w2)
          | (Block, w2) => (Block, w2)
          end
    end.
Proof.
  cbv zeta. unfold worker_item, mbind, M_bind. rewrite build_row_eq. cbv zeta.
  destruct (metadata_columns self) as [cols|]; [|done].
  unfold csv_lock_acquire, csv_lock_release. munfold.
  destruct (after_try_fields src_path dest_path
              (preprocess_fn self src_path dest_path (fs w)).1
              (preprocess_fn self src_path dest_path (fs w)).2
              (set_stdout (λ out, out ++ [MsgWillProcess pid src_path]) w))
    as (_ & _ & Hl & _).
  rewrite Hl. cbn [csv_lock set_stdout].
  destruct (csv_lock w); [done|].
  by destruct (write_metadata _ _ _) as [[[]| |] ?].
Qed.

Lemma worker_item_frame self pid src_path dest_path w :
  let o := (preprocess_fn self src_path dest_path (fs w)).1 in
  let f' := (preprocess_fn self src_path dest_path (fs w)).2 in
  let w' := (worker_item self pid (src_path, dest_path) w).2 in
  stdout w' = stdout w ++ MsgWillProcess pid src_path :: outcome_msgs src_path o
  ∧ open_handles w' = open_handles w
  ∧ (fs w' = outcome_fs dest_path o f'
     ∨ ∃ p row, csv_file_path self = Some p
                ∧ (worker_item self pid (src_path, dest_path) w).1 = Ok tt
                ∧ fs w' = append_text p (csv.writerow row)
                            (outcome_fs dest_path o f')).
Proof.
  cbv zeta. rewrite worker_item_unfold. cbv zeta.
  set (o := (preprocess_fn self src_path dest_path (fs w)).1).
  set (f' := (preprocess_fn self src_path dest_path (fs w)).2).
  destruct (after_try_fields src_path dest_path o f'
              (set_stdout (λ out, out ++ [MsgWillProcess pid src_path]) w))
    as (Hfs & Hout & Hl & Hh).
  set (w1 := after_try _ _ _ _ _) in *.
  cbn [stdout set_stdout open_handles] in Hout, Hh.
  rewrite <- app_assoc in Hout.
  destruct (metadata_columns self) as [cols|]; [|by split_and!; try left].
  destruct (csv_lock w); [by split_and!; try left|].
  match goal with
  | |- context [write_metadata self ?md ?w2] =>
      destruct (write_metadata_frame self md w2) as (Ho & _ & Hh2 & Hf2);
      destruct (write_metadata self md w2) as [[[]| |] w3]
  end; cbn [fst snd stdout open_handles fs set_csv_lock] in *;
    rewrite ?Ho, ?Hh2; (split_and!; [done|done|]);
    (destruct Hf2 as [->|(p & row & Hp & Hok & ->)];
     [by left|try done; right; exists p, row; by rewrite Hfs]).
Qed.

(** X11.  When the capability returns [success = False], the destination
    is an empty regular file after the iteration of the worker, whatever the
    capability wrote there and whatever happens to the row (the log not being
    that destination), and the failure is on the console. *)
Theorem reported_failure_leaves_empty_placeholder
    self pid src_path dest_path w message attrs f' :
  preprocess_fn self src_path dest_path (fs w)
  = (Returned false message attrs, f') →
  csv_file_path self ≠ Some dest_path →
  let w' := (worker_item self pid (src_path, dest_path) w).2 in
  files (fs w') !! dest_path = Some ""
  ∧ fs_exists (fs w') dest_path = true
  ∧ stdout w'
    = stdout w ++ [MsgWillProcess pid src_path;
                   MsgReportedFailure src_path message].
Proof.
  intros Hcap Hlog. cbv zeta.
  destruct (worker_item_frame self pid src_path dest_path w) as (Hout & _ & Hfs).
  rewrite Hcap in Hout, Hfs. cbn [fst snd outcome_msgs outcome_fs] in Hout, Hfs.
  assert (Hdest : files (fs (worker_item self pid (src_path, dest_path) w).2)
                  !! dest_path = Some "").
  { destruct Hfs as [->|(p & row & Hp & _ & ->)]; cbn [files append_text].
    - by rewrite lookup_insert_eq.
    - rewrite lookup_insert_ne by congruence. by rewrite lookup_insert_eq. }
  split_and!; try done.
  unfold fs_exists. apply orb_true_iff. left. apply bool_decide_eq_true.
  apply elem_of_dom. by rewrite Hdest.
Qed.

Lemma reported_failure_leaves_empty_placeholder_witness :
  files (fs (worker_item self_gives_up 0 ("/src/a.jpg", "/out/a.png")
               empty_world).2) !! "/out/a.png" = Some "".
Proof.
  apply (reported_failure_leaves_empty_placeholder self_gives_up 0
           "/src/a.jpg" "/out/a.png" empty_world "bad image" ∅
           (mkFS (<["/out/a.png" := "partial"]> ∅) ∅)).
  - reflexivity.
  - by vm_compute.
Defined.

(** X12.  What the worker itself writes.  Apart from the log, in one
    iteration the worker changes no file the capability left, except the
    destination on a reported failure; it creates and removes no directory
    and leaves no file open. *)
Theorem worker_writes_placeholder_and_log_only self pid src_path dest_path w q :
  csv_file_path self ≠ Some q →
  let o := (preprocess_fn self src_path dest_path (fs w)).1 in
  let f' := (preprocess_fn self src_path dest_path (fs w)).2 in
  let w' := (worker_item self pid (src_path, dest_path) w).2 in
  dirs (fs w') = dirs f'
  ∧ open_handles w' = open_handles w
  ∧ (q ≠ dest_path → files (fs w') !! q = files f' !! q)
  ∧ ((∀ message attrs, o ≠ Returned false message attrs) →
     files (fs w') !! q = files f' !! q).
Proof.
  intros Hlog. cbv zeta.
  destruct (worker_item_frame self pid src_path dest_path w) as (_ & Hh & Hfs).
  set (o := (preprocess_fn self src_path dest_path (fs w)).1) in *.
  set (f' := (preprocess_fn self src_path dest_path (fs w)).2) in *.
  assert (Hdirs : dirs (outcome_fs dest_path o f') = dirs f')
    by (by destruct o as [[] ? ?|?]).
  assert (Hq : files (fs (worker_item self pid (src_path, dest_path) w).2) !! q
               = files (outcome_fs dest_path o f') !! q).
  { destruct Hfs as [->|(p & row & Hp & _ & ->)]; [done|].
    cbn [files append_text]. rewrite lookup_insert_ne; [done|congruence]. }
  split_and!; try done.
  - by destruct Hfs as [->|(p & row & Hp & _ & ->)].
  - intros Hne. rewrite Hq. destruct o as [[] ? ?|?]; try done.
    simpl. by rewrite lookup_insert_ne.
  - intros Hno. rewrite Hq. destruct o as [[] m a|?]; try done.
    by destruct (Hno m a).
Qed.

Lemma worker_writes_placeholder_and_log_only_witness :
  files (fs (worker_item self_extra 0 ("/src/a.jpg", "/out/a.png")
               empty_world).2) !! "/out/a.png" = Some "L".
Proof.
  destruct (worker_writes_placeholder_and_log_only self_extra 0
              "/src/a.jpg" "/out/a.png" empty_world "/out/a.png")
    as (_ & _ & _ & Hdest); [by vm_compute|].
  rewrite Hdest; [by vm_compute|]. intros message attrs. by vm_compute.
Defined.

Lemma row_value_lookup self raw src_path success message (attrs : dict) k :
  k ∈ reserved_columns ++ raw →
  finish_row self (foldl remove_if_in raw reserved_columns) src_path
    (success, message, attrs) !! k
  = Some (row_value self src_path (success, message, attrs) k).
Proof.
  intros Hk. unfold finish_row, row_value. cbn [fst snd].
  destruct (decide (k = "message")) as [->|Hm].
  { rewrite bool_decide_eq_true_2 by done. by rewrite lookup_insert_eq. }
  rewrite bool_decide_eq_false_2, lookup_insert_ne by done.
  destruct (decide (k = "success")) as [->|Hs].
  { rewrite bool_decide_eq_true_2 by done. by rewrite lookup_insert_eq. }
  rewrite bool_decide_eq_false_2, lookup_insert_ne by done.
  destruct (decide (k = "path")) as [->|Hp].
  { rewrite bool_decide_eq_true_2 by done. by rewrite lookup_insert_eq. }
  rewrite bool_decide_eq_false_2, lookup_insert_ne by done.
  rewrite pad_lookup. destruct (attrs !! k) as [v|]; [done|].
  rewrite bool_decide_eq_true_2; [done|].
  assert (Hin : k ∈ reserved_set ∪ (list_to_set raw : gset string)).
  { apply elem_of_app in Hk as [Hk|Hk]; [|set_solver].
    apply elem_of_union_l. by apply elem_of_list_to_set. }
  rewrite <- stripped_columns_set in Hin. unfold reserved_set, reserved_columns in Hin.
  set_solver.
Qed.

(** X13.  The row of a returned outcome.  When the capability returns
    [(success, message, attrs)] with declared attributes only (log
    configured, lock free), the worker gets through the item.  On
    [success = False] it truncates the destination to the empty placeholder
    and reports the failure.  It appends one record to the log, which holds
    in each column of [column_order] the relative path, 1 or 0, the message,
    or the returned attribute (empty when not returned); a returned [path],
    [success] or [message] attribute is overwritten.  Afterwards the lock is
    free and no file is left open. *)
Theorem worker_appends_row_of_returned_outcome
    self pid src_path dest_path w logp co success message attrs f' :
  constructed self →
  csv_lock w = false →
  csv_file_path self = Some logp →
  column_order self = Some co →
  preprocess_fn self src_path dest_path (fs w)
  = (Returned success message attrs, f') →
  dom attrs ⊆ list_to_set co →
  worker_item self pid (src_path, dest_path) w
  = (Ok tt,
     mkWorld
       (append_text logp
          (csv.writerow
             (row_value self src_path (success, message, attrs) <$> co))
          (if success then f'
           else mkFS (<[dest_path := ""]> (files f')) (dirs f')))
       (stdout w ++ MsgWillProcess pid src_path
          :: (if success then []
              else [MsgReportedFailure src_path message]))
       false (open_handles w)).
Proof.
  intros Hc Hlock Hp Hco Hcap Hdom.
  pose proof (constructed_inv self Hc) as Hinv.
  destruct (metadata_filename self) as [fn|] eqn:Hfn; [|destruct Hinv; congruence].
  destruct Hinv as (raw & p' & Hco' & Hcols & _).
  rewrite Hco in Hco'. injection Hco' as ->.
  rewrite worker_item_unfold. cbv zeta. rewrite Hcols, Hlock, Hcap.
  cbn [fst snd observed].
  set (w1 := after_try _ _ _ _ _).
  pose proof (write_metadata_constructed self
                (finish_row self (foldl remove_if_in raw reserved_columns)
                   src_path (success, message, attrs))
                (set_csv_lock true w1) Hc) as Hwm.
  rewrite Hfn in Hwm.
  destruct Hwm as (co' & p'' & Hco'' & Hp'' & _ & Hok).
  rewrite Hco in Hco''. rewrite Hp in Hp''. simplify_eq.
  destruct Hok as (row & Hrow & ->).
  { rewrite finish_row_dom, stripped_columns_set.
    unfold reserved_set, reserved_columns in *. set_solver. }
  apply (Forall2_lookup_fmap _
           (row_value self src_path (success, message, attrs))) in Hrow as ->.
  2:{ intros k Hk. by apply row_value_lookup. }
  subst w1. unfold after_try. destruct w as [f out l hs].
  destruct success; unfold set_csv_lock, set_fs, set_stdout; simpl;
    by rewrite <- ?app_assoc.
Qed.

Lemma worker_appends_row_of_returned_outcome_witness :
  worker_item self_gives_up 0 ("/src/a.jpg", "/out/a.png") empty_world
  = (Ok tt,
     mkWorld
       (append_text "/out/meta.csv"
          (csv.writerow
             [PyStr "a.jpg"; PyInt 0; PyStr "bad image"; PyNone])
          (mkFS (<["/out/a.png" := ""]> (<["/out/a.png" := "partial"]> ∅)) ∅))
       [MsgWillProcess 0 "/src/a.jpg";
        MsgReportedFailure "/src/a.jpg" "bad image"]
       false []).
Proof.
  etrans.
  - apply (worker_appends_row_of_returned_outcome self_gives_up 0
             "/src/a.jpg" "/out/a.png" empty_world "/out/meta.csv"
             ["path"; "success"; "message"; "width"] false "bad image" ∅
             (mkFS (<["/out/a.png" := "partial"]> ∅) ∅)).
    + apply self_with_constructed. right. by eexists.
    + reflexivity.
    + reflexivity.
    + reflexivity.
    + reflexivity.
    + set_solver.
  - by vm_compute.
Defined.

Lemma prints_only_ret P {A} (a : A) : prints_only P (mret a).
Proof. intros w. exists []. by rewrite app_nil_r. Qed.

Lemma prints_only_bind P {A B} (c : M A) (k : A → M B) :
  prints_only P c → (∀ a, prints_only P (k a)) → prints_only P (c ≫= k).
Proof.
  intros Hc Hk w. destruct (Hc w) as (m1 & Ho1 & Hq1).
  unfold mbind, M_bind. destruct (c w) as [[a| |] w1]; simpl in *;
    [|by exists m1..].
  destruct (Hk a w1) as (m2 & Ho2 & Hq2). exists (m1 ++ m2).
  rewrite Ho2, Ho1, app_assoc. split; [done|]. by apply Forall_app.
Qed.

Lemma prints_only_print (P : console_msg → Prop) m :
  P m → prints_only P (print_with_lock m).
Proof. intros Hm w. exists [m]. split; [done|]. by constructor. Qed.

Lemma prints_only_silent P {A} (c : M A) :
  (∀ w, stdout (c w).2 = stdout w) → prints_only P c.
Proof. intros Hc w. exists []. by rewrite app_nil_r. Qed.

Lemma enter_dir_quiet self dir : prints_only quiet (enter_dir self dir).
Proof.
  unfold enter_dir. apply prints_only_bind; [by apply prints_only_silent|].
  intros ex. apply prints_only_bind; [|intros; apply prints_only_ret].
  destruct ex; cbn [negb]; [apply prints_only_ret|].
  apply prints_only_bind; [by apply prints_only_print|].
  intros _. by apply prints_only_silent.
Qed.

Lemma examine_quiet self cur count src_path :
  prints_only quiet (examine self cur count src_path).
Proof.
  unfold examine. apply prints_only_bind.
  { destruct (_ && _); [by apply prints_only_print|apply prints_only_ret]. }
  intros _. destruct (os_path.split src_path) as [dir filename].
  apply prints_only_bind.
  { destruct cur as [[d dd]|]; [|apply enter_dir_quiet].
    case_bool_decide; [apply enter_dir_quiet|apply prints_only_ret]. }
  intros cur'. destruct (os_path.splitext filename) as [filebase ext].
  apply prints_only_bind; [by apply prints_only_silent|].
  intros [].
  - apply prints_only_bind; [by apply prints_only_print|].
    intros _. apply prints_only_ret.
  - apply prints_only_ret.
Qed.

Lemma worker_item_quiet self pid next : prints_only quiet (worker_item self pid next).
Proof.
  intros w. destruct next as [src_path dest_path].
  destruct (worker_item_frame self pid src_path dest_path w) as (Hout & _).
  eexists. split; [exact Hout|]. constructor; [done|].
  destruct (preprocess_fn _ _ _ _).1 as [[] ? ?|?]; simpl; repeat constructor.
Qed.

Lemma dead_reports_app a b : dead_reports (a ++ b) = dead_reports a ++ dead_reports b.
Proof. apply omap_app. Qed.

Lemma dead_reports_quiet msgs : Forall quiet msgs → dead_reports msgs = [].
Proof.
  induction 1 as [|m msgs Hm _ IH]; [done|].
  by destruct m; unfold dead_reports in *; simpl; rewrite ?IH.
Qed.

Lemma dead_reports_dead l : dead_reports (MsgProcessDead <$> l) = l.
Proof.
  induction l as [|i l IH]; [done|].
  change (dead_reports (MsgProcessDead <$> i :: l))
    with (i :: dead_reports (MsgProcessDead <$> l)).
  by rewrite IH.
Qed.

Lemma quiet_not_done msgs : Forall quiet msgs → MsgDone ∉ msgs.
Proof.
  intros Hq Hin. rewrite Forall_forall in Hq. by apply (Hq _ Hin).
Qed.

Lemma dead_not_done (l : list nat) : MsgDone ∉ MsgProcessDead <$> l.
Proof. rewrite list_elem_of_fmap. intros (i & Heq & _). discriminate. Qed.

Lemma console_inv_drain_next w0 alive s msgs :
  stdout (world s) = stdout w0 ++ msgs →
  Forall (λ i, worker_dead s i = true) (dead_reports msgs) →
  dead_reports msgs ++ alive ≡ₚ seq 0 (length (procs s)) →
  MsgDone ∉ msgs →
  (∀ i, worker_dead s i = false → i ∈ alive) →
  console_inv w0 (drain_next alive s).
Proof.
  intros Hout Hdead Hperm Hdone Halive. destruct alive as [|p alive].
  - exists (msgs ++ [MsgDone]). cbn. rewrite Hout, <- app_assoc.
    split; [done|]. rewrite dead_reports_app, app_nil_r.
    split; [done|]. rewrite app_nil_r in Hperm. split_and!; [done|by exists msgs|].
    intros i. destruct (worker_dead s i) eqn:Hi; [done|].
    apply Halive in Hi. by apply elem_of_nil in Hi.
  - exists msgs. by cbn.
Qed.

Lemma worker_dead_procs s s' i :
  procs s' = procs s → worker_dead s' i = worker_dead s i.
Proof. unfold worker_dead. by intros ->. Qed.

Lemma console_inv_step self w0 a s s' :
  console_inv w0 s → step self a s = Some s' → console_inv w0 s'.
Proof.
  intros (msgs & Hout & Hdead & Hpc) Hstep. destruct a as [|i]; simpl in Hstep.
  - unfold dispatcher_step in Hstep.
    destruct (pc s) as [[|[p|e] g]|next g|alive| |] eqn:Hpcs; try done.
    + injection Hstep as <-. destruct Hpc as [Hnil Hdone].
      apply console_inv_drain_next with msgs; try done.
      * by rewrite Hnil.
      * intros j Hj. unfold worker_dead in Hj.
        destruct (procs s !! j) eqn:Hl; [|done].
        apply elem_of_seq. apply lookup_lt_Some in Hl. lia.
    + destruct (examine_quiet self (cur_dirs s) (count s) p (world s))
        as (m2 & Hout2 & Hq2).
      destruct Hpc as [Hnil Hdone].
      assert (Hinv : ∀ s1, stdout (world s1) = stdout (world s) ++ m2 →
                procs s1 = procs s →
                match pc s1 with Draining _ | Done => False | _ => True end →
                console_inv w0 s1).
      { intros s1 Ho1 Hp1 Hpc1. exists (msgs ++ m2).
        rewrite Ho1, Hout, <- app_assoc. split; [done|].
        rewrite dead_reports_app, Hnil, (dead_reports_quiet _ Hq2).
        split; [constructor|].
        assert (MsgDone ∉ msgs ++ m2).
        { rewrite elem_of_app. intros [?|?]; [done|].
          by eapply quiet_not_done. }
        by destruct (pc s1). }
      destruct (examine _ _ _ _ _) as [[[cur [next|]]|e|] w] eqn:Hex;
        simpl in Hout2; simplify_eq; by apply Hinv.
    + injection Hstep as <-. exists msgs. by cbn.
    + destruct (queue_full (queue s)); [done|]. injection Hstep as <-.
      exists msgs. by cbn.
    + destruct Hpc as (Hperm & Hdone & Halive).
      destruct (queue_full (queue s)).
      * destruct (poll_pass_spec (worker_dead s) alive) as (Hpp & Hrem & _).
        destruct (poll_pass (worker_dead s) alive) as [kept removed].
        injection Hstep as <-. cbn [fst snd] in *.
        apply console_inv_drain_next with (msgs ++ (MsgProcessDead <$> removed)).
        -- cbn. by rewrite Hout, app_assoc.
        -- rewrite dead_reports_app, dead_reports_dead. apply Forall_app.
           split; [done|]. eapply Forall_impl; [exact Hrem|]. done.
        -- cbn [procs set_world]. rewrite <- Hperm.
           rewrite dead_reports_app, dead_reports_dead, <- app_assoc.
           apply Permutation_app_head. rewrite Hpp. apply Permutation_app_comm.
        -- rewrite elem_of_app. intros [?|?]; [done|]. by eapply dead_not_done.
        -- intros j Hj. change (worker_dead s j = false) in Hj.
           assert (Hja := Halive j Hj). rewrite Hpp in Hja.
           apply elem_of_app in Hja as [?|Hjr]; [done|].
           rewrite Forall_forall in Hrem. rewrite (Hrem j Hjr) in Hj. done.
      * injection Hstep as <-. exists msgs. cbn. rewrite Hpcs. by split_and!.
  - apply worker_step_inv in Hstep as (Hrun & next & q & Hq & Hs').
    assert (Hw : ∃ w' st, s' = mkRun w' q (pc s) (cur_dirs s) (count s)
                             (<[i := st]> (procs s)) (enqueued s)
                             (handled s') (skipped s)
                          ∧ ∃ m2, stdout w' = stdout (world s) ++ m2
                                  ∧ Forall quiet m2).
    { destruct next as [it|]; subst s'; eexists _, _; (split; [reflexivity|]).
      - apply worker_item_quiet.
      - exists [MsgGotTermination i]. split; [done|]. by constructor. }
    destruct Hw as (w' & st & -> & m2 & Hout2 & Hq2).
    assert (Hi : worker_dead s i = false).
    { unfold worker_dead. by rewrite Hrun. }
    assert (Hother : ∀ j st0, j ≠ i →
              worker_dead (mkRun w' q (pc s) (cur_dirs s) (count s)
                             (<[i := st]> (procs s)) (enqueued s) st0 (skipped s)) j
              = worker_dead s j).
    { intros j st0 Hj. unfold worker_dead. cbn [procs].
      by rewrite list_lookup_insert_ne. }
    exists (msgs ++ m2). cbn [world pc procs].
    rewrite Hout2, Hout, <- app_assoc. split; [done|].
    rewrite dead_reports_app, (dead_reports_quiet _ Hq2), app_nil_r.
    assert (Hnd : MsgDone ∉ msgs → MsgDone ∉ msgs ++ m2).
    { intros Hn. rewrite elem_of_app. intros [?|?]; [done|].
      by eapply quiet_not_done. }
    split.
    { eapply Forall_impl; [exact Hdead|]. intros j Hj. cbn beta in *.
      destruct (decide (j = i)) as [->|Hne]; [congruence|].
      by rewrite Hother. }
    rewrite length_insert.
    destruct (pc s) as [g|nx g|alive| |e].
    + destruct Hpc. auto.
    + destruct Hpc. auto.
    + destruct Hpc as (Hperm & Hdone & Halive). split_and!; auto.
      intros j Hj. destruct (decide (j = i)) as [->|Hne]; [by apply Halive|].
      rewrite Hother in Hj by done. by apply Halive.
    + destruct Hpc as (_ & _ & Hall). rewrite Hall in Hi. done.
    + destruct Hpc. auto.
Qed.

Lemma run_console_inv self w0 gen0 acts s :
  exec self acts (init_state self w0 gen0) = Some s → console_inv w0 s.
Proof.
  revert acts s. apply exec_invariant.
  - exists []. cbn. rewrite app_nil_r. split_and!; try done. apply not_elem_of_nil.
  - intros a s s'. apply console_inv_step.
Qed.

Lemma run_procs_length self w0 gen0 acts s :
  exec self acts (init_state self w0 gen0) = Some s →
  length (procs s) = num_processes self.
Proof.
  revert acts s. apply exec_invariant.
  - cbn. apply length_replicate.
  - intros a s s' Hlen Hstep. destruct a as [|i]; simpl in Hstep.
    + by destruct (dispatcher_step_workers _ _ _ Hstep) as [-> _].
    + apply worker_step_inv in Hstep as (_ & next & q & _ & Hs').
      destruct next; subst s'; cbn; by rewrite length_insert.
Qed.

(** X14.  When [run] has printed [Done.] no worker is alive, neither the
    dispatcher nor a worker can take another step, and [Done.] is the last
    line on the console, printed once. *)
Theorem done_is_final self w0 t s :
  run_reaches self w0 t s →
  pc s = Done →
  (∀ i st, procs s !! i = Some st → is_alive st = false)
  ∧ (∀ a, step self a s = None)
  ∧ ∃ pre, stdout (world s) = stdout w0 ++ pre ++ [MsgDone] ∧ MsgDone ∉ pre.
Proof.
  intros [acts Hexec] Hdone.
  destruct (run_console_inv _ _ _ _ _ Hexec) as (msgs & Hout & _ & Hpc).
  rewrite Hdone in Hpc. destruct Hpc as (_ & (pre & -> & Hpre) & Hall).
  assert (Hdead : ∀ i st, procs s !! i = Some st → is_alive st = false).
  { intros i st Hi. specialize (Hall i). unfold worker_dead in Hall.
    rewrite Hi in Hall. by destruct (is_alive st). }
  split_and!; [done| |by exists pre].
  intros [|i]; simpl.
  - unfold dispatcher_step. by rewrite Hdone.
  - unfold worker_step. destruct (procs s !! i) as [st|] eqn:Hi; [|done].
    apply Hdead in Hi. by destruct st.
Qed.

Lemma done_is_final_witness :
  ∃ s,
    exec self_drain sched_complete
      (init_state self_drain empty_world (enumerate_files self_drain tree_drain))
    = Some s
    ∧ procs s = [Exited]
    ∧ ∀ a, step self_drain a s = None.
Proof.
  destruct (exec self_drain sched_complete
              (init_state self_drain empty_world
                 (enumerate_files self_drain tree_drain))) as [s|] eqn:Hexec;
    [|by vm_compute in Hexec].
  exists s. split; [done|].
  destruct (done_is_final self_drain empty_world tree_drain s)
    as (_ & Hstep & _); [by exists sched_complete| |].
  - vm_compute in Hexec. by injection Hexec as <-.
  - split; [|done]. vm_compute in Hexec. by injection Hexec as <-.
Defined.

(** X15.  The death reports on the console.  At any time of a run no pid
    has been reported dead twice and every reported process is dead; when
    the run is done the reported pids are those of all the workers. *)
Theorem every_death_is_reported_once self w0 t s :
  run_reaches self w0 t s →
  ∃ msgs,
    stdout (world s) = stdout w0 ++ msgs
    ∧ NoDup (dead_reports msgs)
    ∧ (∀ i, i ∈ dead_reports msgs →
            ∃ st, procs s !! i = Some st ∧ is_alive st = false)
    ∧ (pc s = Done → dead_reports msgs ≡ₚ seq 0 (num_processes self)).
Proof.
  intros [acts Hexec].
  destruct (run_console_inv _ _ _ _ _ Hexec) as (msgs & Hout & Hdead & Hpc).
  pose proof (run_procs_length _ _ _ _ _ Hexec) as Hlen.
  exists msgs. split; [done|].
  assert (Hsub : ∃ rest, dead_reports msgs ++ rest ≡ₚ seq 0 (num_processes self)).
  { rewrite <- Hlen. destruct (pc s) as [g|nx g|alive| |e].
    - destruct Hpc as [-> _]. by exists (seq 0 (length (procs s))).
    - destruct Hpc as [-> _]. by exists (seq 0 (length (procs s))).
    - destruct Hpc as (Hperm & _). by exists alive.
    - destruct Hpc as (Hperm & _). exists []. by rewrite app_nil_r.
    - destruct Hpc as [-> _]. by exists (seq 0 (length (procs s))). }
  destruct Hsub as [rest Hperm].
  assert (Hnd : NoDup (dead_reports msgs ++ rest)).
  { rewrite Hperm. apply NoDup_seq. }
  split_and!.
  - by apply NoDup_app in Hnd as [? _].
  - intros i Hi. rewrite Forall_forall in Hdead. specialize (Hdead i Hi).
    assert (Hin : i ∈ seq 0 (num_processes self)).
    { rewrite <- Hperm. apply elem_of_app. by left. }
    apply elem_of_seq in Hin.
    destruct (lookup_lt_is_Some_2 (procs s) i) as [st Hst]; [lia|].
    exists st. split; [done|]. unfold worker_dead in Hdead.
    rewrite Hst in Hdead. by destruct (is_alive st).
  - intros Hdone. rewrite Hdone in Hpc. destruct Hpc as (Hp & _).
    by rewrite <- Hlen.
Qed.

Lemma every_death_is_reported_once_witness :
  ∃ s msgs,
    exec self_drain sched_complete
      (init_state self_drain empty_world (enumerate_files self_drain tree_drain))
    = Some s
    ∧ stdout (world s) = stdout empty_world ++ msgs
    ∧ dead_reports msgs ≡ₚ [0%nat].
Proof.
  destruct (exec self_drain sched_complete
              (init_state self_drain empty_world
                 (enumerate_files self_drain tree_drain))) as [s|] eqn:Hexec;
    [|by vm_compute in Hexec].
  destruct (every_death_is_reported_once self_drain empty_world tree_drain s)
    as (msgs & Hout & _ & _ & Hdone); [by exists sched_complete|].
  exists s, msgs. split_and!; [done..|]. apply Hdone.
  vm_compute in Hexec. by injection Hexec as <-.
Defined.

(** X16.  Between the steps of a run the open files are those open
    before it: the worker closes the placeholder and the log it opens, the
    dispatcher opens nothing. *)
Theorem run_leaves_no_file_open self w0 t s :
  run_reaches self w0 t s →
  open_handles (world s) = open_handles w0.
Proof.
  intros [acts Hexec]. revert acts s Hexec. apply exec_invariant_reach; [done|].
  intros acts a s s' Hexec Hinv Hstep. rewrite <- Hinv.
  destruct a as [|i]; simpl in Hstep.
  - apply dispatcher_step_inv in Hstep; [|by eapply run_cur_dirs_ok].
    destruct Hstep as [[Hpc ->]|[(e & g & Hpc & ->)
      |[(p & g & w1 & Hpc & (_ & _ & _ & Hh & _) & _ & ->)
      |[(p & g & w1 & Hpc & (_ & _ & _ & Hh & _) & _ & ->)
      |[(next & g & Hpc & Hfull & ->)
      |[(alive & Hpc & Hfull & ->)|(alive & Hpc & Hfull & ->)]]]]]]; try done.
    + by destruct (drain_next_fields (seq 0 (length (procs s))) s)
        as (_ & _ & _ & _ & _ & _ & _ & _ & _ & Hh & _).
    + match goal with |- context [drain_next ?k ?s0] =>
        destruct (drain_next_fields k s0)
          as (_ & _ & _ & _ & _ & _ & _ & _ & _ & Hh & _) end.
      by rewrite Hh.
  - apply worker_step_inv in Hstep as (_ & next & q & _ & Hs').
    destruct next as [[src_path dest_path]|]; subst s'; cbn [world]; [|done].
    by destruct (worker_item_frame self i src_path dest_path (world s))
      as (_ & Hh & _).
Qed.

Lemma run_leaves_no_file_open_witness :
  ∃ s,
    exec self_drain sched_complete
      (init_state self_drain empty_world (enumerate_files self_drain tree_drain))
    = Some s
    ∧ open_handles (world s) = [].
Proof.
  destruct (exec self_drain sched_complete
              (init_state self_drain empty_world
                 (enumerate_files self_drain tree_drain))) as [s|] eqn:Hexec;
    [|by vm_compute in Hexec].
  exists s. split; [done|].
  apply (run_leaves_no_file_open self_drain empty_world tree_drain s).
  by exists sched_complete.
Defined.

(** ** [run] does not raise *)

Lemma raise_free_step self a s s' :
  cur_dirs_ok self (cur_dirs s) →
  raise_free (pc s) → step self a s = Some s' → raise_free (pc s').
Proof.
  intros Hcur [Hab Hgen] Hstep. destruct a as [|i]; simpl in Hstep.
  - apply dispatcher_step_inv in Hstep; [|done].
    destruct Hstep as [[Hpc ->]|[(e & g & Hpc & ->)|[(p & g & w1 & Hpc & _ & _ & ->)
      |[(p & g & w1 & Hpc & _ & _ & ->)|[(next & g & Hpc & Hfull & ->)
      |[(alive & Hpc & Hfull & ->)|(alive & Hpc & Hfull & ->)]]]]]].
    + match goal with |- context [drain_next ?k ?s0] =>
        destruct (drain_next_fields k s0)
          as (_ & _ & _ & _ & _ & _ & _ & _ & _ & _ & ->) end.
      split; [by destruct (seq _ _)|]. intros e. destruct (seq _ _); apply not_elem_of_nil.
    + rewrite Hpc in Hgen. destruct (Hgen e). apply list_elem_of_here.
    + rewrite Hpc in Hgen. split; [done|]. intros e He. apply (Hgen e).
      by apply list_elem_of_further.
    + rewrite Hpc in Hgen. split; [done|]. intros e He. apply (Hgen e).
      by apply list_elem_of_further.
    + rewrite Hpc in Hgen. split; [done|]. intros e. apply (Hgen e).
    + match goal with |- context [drain_next ?k ?s0] =>
        destruct (drain_next_fields k s0)
          as (_ & _ & _ & _ & _ & _ & _ & _ & _ & _ & ->) end.
      split; [by destruct (poll_pass _ _).1|]. intros e.
      destruct (poll_pass _ _).1; apply not_elem_of_nil.
    + split; [exact Hab|exact Hgen].
  - apply worker_step_inv in Hstep as (_ & next & q & _ & Hs').
    destruct next; subst s'; (split; [exact Hab|exact Hgen]).
Qed.

Lemma run_raise_free self w0 t acts s :
  tree_valid t →
  exec self acts (init_state self w0 (enumerate_files self t)) = Some s →
  raise_free (pc s).
Proof.
  intros Hv. revert acts s. apply exec_invariant_reach.
  - split; [done|]. intros e. cbn. rewrite enumerate_files_spec by done.
    rewrite list_elem_of_fmap. intros (df & Heq & _). discriminate.
  - intros acts a s s' Hexec Hinv Hstep.
    eapply raise_free_step; [|done..]. by eapply run_cur_dirs_ok.
Qed.

(** X17.  Over a valid tree [run] never raises: the assertion of the
    generator holds and the loop body has no failing operation (errors of
    the operating system and the timing arithmetic of the progress line are
    not part of the model).  The dispatcher can take its next step at any
    time, unless it is done or stands at [queue.put] with the queue full. *)
Theorem dispatcher_never_raises self w0 t s :
  tree_valid t →
  run_reaches self w0 t s →
  (∀ e, pc s ≠ Aborted e)
  ∧ (pc s ≠ Done →
     (∀ next g, pc s = Putting next g → queue_full (queue s) = false) →
     is_Some (dispatcher_step self s)).
Proof.
  intros Hv [acts Hexec].
  pose proof (run_raise_free _ _ _ _ _ Hv Hexec) as Hfree.
  destruct Hfree as [Hab Hgen]. split; [done|]. intros Hnd Hput.
  unfold dispatcher_step.
  destruct (pc s) as [[|[p|e] g]|next g|alive| |e] eqn:Hpc.
  - done.
  - destruct (examine_spec self (cur_dirs s) (count s) p (world s))
      as (w1 & _ & ->); [by eapply run_cur_dirs_ok|].
    by destruct (fs_exists _ _).
  - destruct (Hgen e). apply list_elem_of_here.
  - by rewrite (Hput next g eq_refl).
  - destruct (queue_full (queue s)); [|done]. by destruct (poll_pass _ _).
  - done.
  - by destruct (Hab e).
Qed.

Lemma dispatcher_never_raises_witness :
  is_Some (dispatcher_step self_drain
             (init_state self_drain empty_world
                (enumerate_files self_drain tree_drain))).
Proof.
  destruct (dispatcher_never_raises self_drain empty_world tree_drain
              (init_state self_drain empty_world
                 (enumerate_files self_drain tree_drain)))
    as [_ Hstep].
  - repeat split; repeat constructor; done.
  - by exists [].
  - apply Hstep; [done|]. intros next g Hpc. by vm_compute in Hpc.
Defined.

(** ** Destination directories *)
















(** ** The records of the log *)




(** ** No path is enumerated twice *)

Lemma startswith_inv s pre : startswith s pre = true → ∃ r, s = pre +:+ r.
Proof.
  revert s. induction pre as [|a pre IH]; intros s; [by exists s|].
  destruct s as [|b s]; [done|]. simpl.
  rewrite andb_true_iff, bool_decide_eq_true. intros [-> Hs].
  destruct (IH s Hs) as [r ->]. by exists r.
Qed.

Lemma str_app_inv_head a b c : a +:+ b = a +:+ c → b = c.
Proof. induction a as [|x a IH]; [done|]. intros [= H]. by apply IH. Qed.

Lemma str_app_length_ne a b : b ≠ "" → a +:+ b ≠ a.
Proof.
  intros Hb Heq. apply (f_equal String.length) in Heq.
  rewrite str_length_app in Heq. destruct b; [done|]. simpl in Heq. lia.
Qed.

Lemma app_sep_inj a b x y :
  rfind os_path.sep a = None → rfind os_path.sep b = None →
  (x = "" ∨ startswith x "/" = true) → (y = "" ∨ startswith y "/" = true) →
  a +:+ x = b +:+ y → a = b.
Proof.
  revert b. induction a as [|c a IH]; intros [|c' b] Ha Hb Hx Hy Heq; try done.
  - change (x = String c' (b +:+ y)) in Heq. exfalso.
    destruct Hx as [->|Hx]; [done|]. subst x. simpl in Hx, Hb.
    apply andb_true_iff in Hx as [Hc' _]. apply bool_decide_eq_true in Hc'.
    subst c'. destruct (rfind os_path.sep b); [done|].
    by rewrite bool_decide_eq_true_2 in Hb.
  - change (String c (a +:+ x) = y) in Heq. exfalso.
    destruct Hy as [->|Hy]; [done|]. subst y. simpl in Hy, Ha.
    apply andb_true_iff in Hy as [Hc' _]. apply bool_decide_eq_true in Hc'.
    subst c. destruct (rfind os_path.sep a); [done|].
    by rewrite bool_decide_eq_true_2 in Ha.
  - change (String c (a +:+ x) = String c' (b +:+ y)) in Heq.
    injection Heq as -> Heq. f_equal. apply IH; try done.
    + simpl in Ha. by destruct (rfind os_path.sep a).
    + simpl in Hb. by destruct (rfind os_path.sep b).
Qed.

Lemma join_proper top n :
  proper_dir top → valid_name n →
  os_path.join top n = top +:+ "/" +:+ n ∧ proper_dir (os_path.join top n).
Proof.
  intros [Hne Hend] Hn. rewrite (join_valid _ _ Hn), Hend.
  rewrite bool_decide_eq_false_2 by done. cbn [orb]. split; [done|].
  destruct Hn as [Hnne Hsep]. split.
  - intros [? _]%str_app_eq_nil. done.
  - rewrite endswith_char_app by done.
    change ("/" +:+ n) with (String os_path.sep n).
    destruct n as [|c n]; [done|]. cbn [endswith_char].
    by apply rfind_None_endswith in Hsep.
Qed.

Lemma split_join_proper d f :
  proper_dir d → valid_name f → os_path.split (os_path.join d f) = (d, f).
Proof.
  intros Hd Hf. destruct (join_proper d f Hd Hf) as [-> _].
  destruct Hd, Hf. by apply split_sep.
Qed.

Lemma inside_join d top n :
  proper_dir top → valid_name n →
  inside d (os_path.join top n) →
  ∃ x, d = top +:+ "/" +:+ n +:+ x ∧ (x = "" ∨ startswith x "/" = true).
Proof.
  intros Htop Hn. destruct (join_proper top n Htop Hn) as [-> _].
  intros [->|Hs].
  - exists "". rewrite str_app_nil_r. by split; [|left].
  - apply startswith_inv in Hs as [r ->]. exists ("/" +:+ r).
    rewrite !str_app_assoc. by split; [|right].
Qed.

Lemma tree_files_inside top t d f :
  tree_valid t → proper_dir top →
  (d, f) ∈ tree_files top t →
  inside d top ∧ proper_dir d ∧ valid_name f.
Proof.
  revert top. induction t as [filenames subdirs IH] using tree_induction.
  intros top [Hfiles Hvalid] Htop. simpl. rewrite elem_of_app.
  intros [Hin|Hin].
  - apply list_elem_of_fmap in Hin as (f' & [= -> ->] & Hf).
    split_and!; [by left|done|]. by eapply Forall_forall in Hfiles.
  - induction subdirs as [|[n t] ds IHds]; [by apply elem_of_nil in Hin|].
    simpl in *. destruct Hvalid as (Hn & Ht & Hds).
    apply Forall_cons in IH as [IHt IHrest].
    apply elem_of_app in Hin as [Hin|Hin]; [|by apply IHds].
    destruct (join_proper top n Htop Hn) as [Hjoin Hproper].
    destruct (IHt _ Ht Hproper Hin) as (Hinside & Hd & Hf).
    split_and!; [|done..]. right.
    destruct (inside_join d top n Htop Hn Hinside) as (x & -> & _).
    rewrite <- str_app_assoc. apply startswith_app.
Qed.

Lemma inside_not_top d top n :
  proper_dir top → valid_name n → inside d (os_path.join top n) → d ≠ top.
Proof.
  intros Htop Hn (x & -> & _)%inside_join; [|done..].
  apply str_app_length_ne. done.
Qed.

Lemma inside_disjoint d top n1 n2 :
  proper_dir top → valid_name n1 → valid_name n2 →
  inside d (os_path.join top n1) → inside d (os_path.join top n2) → n1 = n2.
Proof.
  intros Htop Hn1 Hn2 (x & -> & Hx)%inside_join (y & Heq & Hy)%inside_join;
    try done.
  apply str_app_inv_head in Heq. apply (str_app_inv_head "/") in Heq.
  destruct Hn1 as [_ H1], Hn2 as [_ H2].
  exact (app_sep_inj n1 n2 x y H1 H2 Hx Hy Heq).
Qed.

Lemma tree_files_NoDup top t :
  tree_valid t → tree_nodup t → proper_dir top → NoDup (tree_files top t).
Proof.
  revert top. induction t as [filenames subdirs IH] using tree_induction.
  intros top [Hfiles Hvalid] (Hndf & Hndd & Hnd) Htop. simpl.
  apply NoDup_app. split_and!.
  - apply NoDup_fmap_2; [|done]. by intros ?? [= ->].
  - intros [d f] (f' & [= -> ->] & _)%list_elem_of_fmap Hin.
    clear IH Hnd Hndd. induction subdirs as [|[n t] ds IHds];
      [by apply elem_of_nil in Hin|].
    simpl in *. destruct Hvalid as (Hn & Ht & Hds).
    apply elem_of_app in Hin as [Hin|Hin]; [|by apply IHds].
    apply tree_files_inside in Hin as (Hinside & _); [|done|by apply join_proper].
    by eapply inside_not_top.
  - induction subdirs as [|[n t] ds IHds]; [constructor|].
    simpl in *. destruct Hvalid as (Hn & Ht & Hds).
    destruct Hnd as [Hndt Hndrest].
    apply NoDup_cons in Hndd as [Hnin Hndd].
    apply Forall_cons in IH as [IHt IHrest].
    apply NoDup_app. split_and!.
    + apply IHt; [done..|by apply join_proper].
    + intros [d f] Hin1 Hin2.
      apply tree_files_inside in Hin1 as (Hins1 & _); [|done|by apply join_proper].
      clear IHds IHrest Hndrest Hndd IHt.
      induction ds as [|[n' t'] ds IHds]; [by apply elem_of_nil in Hin2|].
      simpl in *. destruct Hds as (Hn' & Ht' & Hds).
      apply not_elem_of_cons in Hnin as [Hne Hnin].
      apply elem_of_app in Hin2 as [Hin2|Hin2]; [|by apply IHds].
      apply tree_files_inside in Hin2 as (Hins2 & _); [|done|by apply join_proper].
      apply Hne. by eapply inside_disjoint.
    + by apply IHds.
Qed.

Lemma enumeration_nodup_helper self t :
  tree_valid t → tree_nodup t → proper_dir (src_dir self) →
  NoDup (yielded (enumerate_files self t)).
Proof.
  intros Hv Hnd Htop. rewrite enumerate_files_spec by done.
  rewrite list_fmap_compose, yielded_fmap.
  apply NoDup_fmap_2_strong.
  - intros [d f] [d' f'] [_ Hin]%list_elem_of_filter [_ Hin']%list_elem_of_filter Heq.
    apply tree_files_inside in Hin as (_ & Hd & Hf); [|done..].
    apply tree_files_inside in Hin' as (_ & Hd' & Hf'); [|done..].
    cbn [fst snd] in Heq. apply (f_equal os_path.split) in Heq.
    by rewrite !split_join_proper in Heq.
  - apply NoDup_filter. by apply tree_files_NoDup.
Qed.

(** X20.  Over a valid tree in which no directory lists a name twice, below
    a source directory with no separator at its end, the enumerator yields
    no path twice. *)
Theorem enumeration_has_no_duplicates self t :
  tree_valid t → tree_nodup t → proper_dir (src_dir self) →
  NoDup (yielded (enumerate_files self t)).
Proof. apply enumeration_nodup_helper. Qed.

Lemma enumeration_has_no_duplicates_witness :
  NoDup (yielded (enumerate_files self_usage_example tree_example)).
Proof.
  apply (enumeration_has_no_duplicates self_usage_example tree_example).
  - apply tree_example_valid.
  - cbn. repeat split; apply (bool_decide_unpack _); by vm_compute.
  - by split.
Defined.

(** X21.  Over a valid tree in which no directory lists a name twice
    (the source directory with no separator at its end), no source path is
    handled twice in a run, and every handled item is an enumerated path
    with its mapped destination. *)
Theorem each_file_is_handled_at_most_once self w0 t s :
  tree_valid t → tree_nodup t → proper_dir (src_dir self) →
  run_reaches self w0 t s →
  NoDup (handled s).*2.*1
  ∧ ∀ i it, (i, it) ∈ handled s →
            it.1 ∈ yielded (enumerate_files self t)
            ∧ it.2 = dest_path_of self it.1.
Proof.
  intros Hv Hnd Htop [acts Hexec].
  pose proof (enumeration_nodup_helper self t Hv Hnd Htop) as Hyn.
  destruct (run_paths_partition _ _ _ _ _ Hyn Hexec) as (Hpart & _ & Hh).
  destruct (run_dispatch_inv _ _ _ _ _ Hexec) as (_ & _ & Hfifo & _).
  destruct (run_items_mapped _ _ _ _ _ Hexec) as (Hmapped & _).
  split.
  - apply NoDup_app in Hpart as (_ & _ & Hpart).
    apply NoDup_app in Hpart as (Henq & _).
    rewrite Hfifo, fmap_app in Henq. by apply NoDup_app in Henq as [? _].
  - intros i it Hin. apply Hmapped. by eapply Hh.
Qed.

Lemma each_file_is_handled_at_most_once_witness :
  ∃ s,
    exec self_leak [Dispatch; Dispatch; Dispatch; Dispatch; Work 0; Work 1]
      (init_state self_leak empty_world (enumerate_files self_leak tree_leak))
    = Some s
    ∧ (handled s).*2.*1 = ["/src/1.jpg"; "/src/2.jpg"]
    ∧ NoDup (handled s).*2.*1.
Proof.
  destruct (exec self_leak [Dispatch; Dispatch; Dispatch; Dispatch; Work 0; Work 1]
              (init_state self_leak empty_world
                 (enumerate_files self_leak tree_leak))) as [s|] eqn:Hexec;
    [|by vm_compute in Hexec].
  exists s. split; [done|].
  destruct (each_file_is_handled_at_most_once self_leak empty_world tree_leak s)
    as [Hnd _].
  - repeat split; repeat constructor; done.
  - cbn. repeat split; apply (bool_decide_unpack _); by vm_compute.
  - by split.
  - by eexists.
  - split; [|done]. vm_compute in Hexec. by injection Hexec as <-.
Defined.

(** ** The usage example *)








(** ** The liveness poll *)

Lemma poll_pass_all_dead dead n alive :
  (length alive ≤ n)%nat →
  (∀ i, i ∈ alive → dead i = true) →
  length (poll_pass dead alive).2 = Nat.div2 (S (length alive))
  ∧ length (poll_pass dead alive).1 = Nat.div2 (length alive).
Proof.
  revert alive. induction n as [|n IH]; intros alive Hlen Hdead.
  { destruct alive; [done|simpl in Hlen; lia]. }
  destruct alive as [|p [|q rest]]; [done| |].
  - cbn [poll_pass]. rewrite Hdead by apply list_elem_of_here. done.
  - cbn [poll_pass]. rewrite Hdead by apply list_elem_of_here.
    destruct (IH rest) as [IH1 IH2].
    + simpl in Hlen. lia.
    + intros i Hi. apply Hdead. by do 2 apply list_elem_of_further.
    + destruct (poll_pass dead rest) as [kept removed]. cbn [fst snd length] in *.
      rewrite IH1, IH2. done.
Qed.

(** X23.  One pass of the liveness poll.  The processes it keeps and
    those it removes are the pending ones; it removes dead ones only; when
    the process under the iterator is removed, the one after it is not
    examined in this pass, dead or not.  So when all [n] pending processes
    are dead, one pass reports [(n+1)/2] of them and keeps [n/2]. *)
Theorem poll_pass_skips_after_removal dead alive :
  alive ≡ₚ (poll_pass dead alive).1 ++ (poll_pass dead alive).2
  ∧ (∀ i, i ∈ (poll_pass dead alive).2 → dead i = true)
  ∧ (∀ p q rest,
       alive = p :: q :: rest → dead p = true →
       (poll_pass dead alive).1 = q :: (poll_pass dead rest).1
       ∧ (poll_pass dead alive).2 = p :: (poll_pass dead rest).2)
  ∧ ((∀ i, i ∈ alive → dead i = true) →
     length (poll_pass dead alive).2 = Nat.div2 (S (length alive))
     ∧ length (poll_pass dead alive).1 = Nat.div2 (length alive)).
Proof.
  destruct (poll_pass_spec dead alive) as (Hperm & Hdead & _).
  split_and!; [done| | |].
  - intros i Hi. rewrite Forall_forall in Hdead. by apply Hdead.
  - intros p q rest -> Hp. cbn [poll_pass]. rewrite Hp.
    by destruct (poll_pass dead rest).
  - by apply (poll_pass_all_dead dead (length alive)).
Qed.

(** ** Progress lines *)

Lemma enter_dir_no_progress self dir : prints_only no_progress (enter_dir self dir).
Proof.
  unfold enter_dir. apply prints_only_bind; [by apply prints_only_silent|].
  intros ex. apply prints_only_bind; [|intros; apply prints_only_ret].
  destruct ex; cbn [negb]; [apply prints_only_ret|].
  apply prints_only_bind; [by apply prints_only_print|].
  intros _. by apply prints_only_silent.
Qed.

(** What [examine] prints: the progress line when it is due, then lines of
    other kinds. *)
Lemma examine_progress self cur count src_path w :
  ∃ rest,
    stdout (examine self cur count src_path w).2
    = stdout w ++ (if progress_due count then [MsgProgress count] else [])
        ++ rest
    ∧ Forall no_progress rest.
Proof.
  unfold examine, progress_due. unfold mbind at 1.
  match goal with |- context [@M_bind _ _ ?k _ w] => set (tail := k) end.
  unfold M_bind at 1.
  assert (Htail : prints_only no_progress (tail tt)).
  { subst tail. cbv beta. destruct (os_path.split src_path) as [dir filename].
    apply prints_only_bind.
    { destruct cur as [[d dd]|]; [|apply enter_dir_no_progress].
      case_bool_decide; [apply enter_dir_no_progress|apply prints_only_ret]. }
    intros cur'. destruct (os_path.splitext filename) as [filebase ext].
    apply prints_only_bind; [by apply prints_only_silent|].
    intros [].
    - apply prints_only_bind; [by apply prints_only_print|].
      intros _. apply prints_only_ret.
    - apply prints_only_ret. }
  destruct (_ && _).
  - munfold. cbv beta iota.
    destruct (Htail (set_stdout (λ out, out ++ [MsgProgress count]) w))
      as (rest & Hout & Hrest).
    exists rest. rewrite Hout. cbn [stdout set_stdout].
    by rewrite <- app_assoc.
  - munfold. cbv beta iota. destruct (Htail w) as (rest & Hout & Hrest).
    exists rest. by rewrite Hout.
Qed.

Lemma no_progress_not_in msgs c : Forall no_progress msgs → MsgProgress c ∉ msgs.
Proof. intros Hq Hin. rewrite Forall_forall in Hq. by apply (Hq _ Hin). Qed.

Lemma progress_inv_quiet w0 s s' msgs :
  progress_inv w0 s →
  stdout (world s') = stdout (world s) ++ msgs →
  Forall no_progress msgs →
  (count s ≤ count s')%nat →
  progress_inv w0 s'.
Proof.
  intros (m0 & Hout & Hprog) Hout' Hq Hle. exists (m0 ++ msgs).
  rewrite Hout', Hout, <- app_assoc. split; [done|].
  intros c [Hc|Hc]%elem_of_app.
  - destruct (Hprog c Hc) as (? & ? & ?). split_and!; [done..|lia].
  - by apply no_progress_not_in in Hc.
Qed.

Lemma progress_inv_step self w0 a s s' :
  progress_inv w0 s → step self a s = Some s' → progress_inv w0 s'.
Proof.
  intros Hinv Hstep. destruct a as [|i]; simpl in Hstep.
  - unfold dispatcher_step in Hstep.
    destruct (pc s) as [[|[p|e] g]|next g|alive| |] eqn:Hpcs; try done.
    + injection Hstep as <-.
      destruct (drain_next_fields (seq 0 (length (procs s))) s)
        as (_ & _ & Hc & _).
      destruct (seq 0 (length (procs s))) as [|? ?] eqn:Hseq.
      * eapply (progress_inv_quiet w0 s _ [MsgDone]); [done|done| |by rewrite Hc].
        by repeat constructor.
      * eapply (progress_inv_quiet w0 s _ []); [done| |constructor|by rewrite Hc].
        by rewrite app_nil_r.
    + destruct (examine_progress self (cur_dirs s) (count s) p (world s))
        as (rest & Hout & Hrest).
      assert (Hnew : ∀ s1, stdout (world s1)
                           = stdout (world s)
                               ++ (if progress_due (count s)
                                   then [MsgProgress (count s)] else []) ++ rest →
                count s1 = count s → progress_inv w0 s1).
      { intros s1 Ho1 Hc1. destruct Hinv as (m0 & Hout0 & Hprog).
        eexists. rewrite Ho1, Hout0, <- app_assoc. split; [done|].
        rewrite Hc1. intros c [Hc|[Hc|Hc]%elem_of_app]%elem_of_app.
        - by apply Hprog.
        - unfold progress_due in Hc.
          destruct (bool_decide (0 < count s)%nat) eqn:H0; [|by apply elem_of_nil in Hc].
          destruct (bool_decide (count s `mod` 1000 = 0)%nat) eqn:H1;
            [|by apply elem_of_nil in Hc].
          apply list_elem_of_singleton in Hc. injection Hc as ->.
          apply bool_decide_eq_true in H0, H1. by split_and!.
        - by apply no_progress_not_in in Hc. }
      destruct (examine _ _ _ _ _) as [[[cur [next|]]|e|] w] eqn:Hex;
        simpl in Hout; simplify_eq; by apply Hnew.
    + injection Hstep as <-.
      eapply (progress_inv_quiet w0 s _ []); [done| |constructor|done].
      by rewrite app_nil_r.
    + destruct (queue_full (queue s)); [done|]. injection Hstep as <-.
      eapply (progress_inv_quiet w0 s _ []); [done| |constructor|cbn; lia].
      by rewrite app_nil_r.
    + destruct (queue_full (queue s)).
      * destruct (poll_pass (worker_dead s) alive) as [kept removed].
        injection Hstep as <-.
        match goal with |- progress_inv _ (drain_next ?k ?s0) =>
          destruct (drain_next_fields k s0) as (_ & _ & Hc & _);
          assert (Hs0 : progress_inv w0 s0) end.
        { eapply (progress_inv_quiet w0 s _ (MsgProcessDead <$> removed));
            [done|done| |done].
          apply Forall_fmap, Forall_forall. done. }
        destruct kept as [|? ?].
        -- eapply (progress_inv_quiet w0 _ _ [MsgDone]); [exact Hs0|done| |done].
           by repeat constructor.
        -- eapply (progress_inv_quiet w0 _ _ []); [exact Hs0| |constructor|done].
           by rewrite app_nil_r.
      * injection Hstep as <-.
        eapply (progress_inv_quiet w0 s _ []); [done| |constructor|done].
        by rewrite app_nil_r.
  - apply worker_step_inv in Hstep as (_ & next & q & _ & Hs').
    destruct next as [[src_path dest_path]|]; subst s'.
    + destruct (worker_item_frame self i src_path dest_path (world s)) as (Hout & _).
      eapply progress_inv_quiet; [done|exact Hout| |done].
      constructor; [done|].
      destruct (preprocess_fn _ _ _ _).1 as [[] ? ?|?]; simpl; repeat constructor.
    + eapply (progress_inv_quiet w0 s _ [MsgGotTermination i]); [done|done| |done].
      by repeat constructor.
Qed.

(** X24.  Progress lines.  The loop body of [run] prints the progress
    line first, exactly when [count] is a positive multiple of 1000,
    whatever it does with the path afterwards, and prints no other progress
    line: the line comes again for every path examined while [count] stays
    there, since skipped paths do not advance it.  In a run every progress
    line is for a positive multiple of 1000 that the number of enqueued
    items has reached, so a run that enqueues fewer than 1000 items prints
    none.  The timing figures of the line are not part of the model. *)
Theorem progress_lines self :
  (∀ cur count src_path w,
     ∃ rest,
       stdout (examine self cur count src_path w).2
       = stdout w
           ++ (if bool_decide (0 < count)%nat
                  && bool_decide (count `mod` 1000 = 0)%nat
               then [MsgProgress count] else [])
           ++ rest
       ∧ ∀ c, MsgProgress c ∉ rest)
  ∧ (∀ w0 t s,
       run_reaches self w0 t s →
       ∃ msgs,
         stdout (world s) = stdout w0 ++ msgs
         ∧ ∀ c, MsgProgress c ∈ msgs →
                (0 < c)%nat ∧ (c `mod` 1000 = 0)%nat
                ∧ (c ≤ length (enqueued s))%nat).
Proof.
  split.
  - intros cur count src_path w.
    destruct (examine_progress self cur count src_path w) as (rest & Hout & Hrest).
    exists rest. split; [done|]. intros c. by apply no_progress_not_in.
  - intros w0 t s [acts Hexec].
    destruct (run_dispatch_inv _ _ _ _ _ Hexec) as (Hcount & _).
    rewrite <- Hcount.
    change (progress_inv w0 s).
    eapply (exec_invariant self (progress_inv w0)); [| |exact Hexec].
    + exists []. cbn. rewrite app_nil_r. split; [done|].
      intros c Hc. by apply elem_of_nil in Hc.
    + intros a s1 s2. apply progress_inv_step.
Qed.

(** ** Completing a run *)

Lemma drain_pc_stopping (alive : list nat) :
  stopping match alive with [] => Done | _ :: _ => Draining alive end.
Proof. by destruct alive. Qed.

Lemma queue_items_shape (its : list item) k :
  queue_items ((Some <$> its) ++ replicate k None) = its.
Proof.
  unfold queue_items. rewrite omap_app.
  assert (H1 : omap id (Some <$> its) = its).
  { induction its as [|it its IH]; [done|]. simpl. f_equal. exact IH. }
  assert (H2 : omap id (replicate k (None : option item)) = []).
  { induction k as [|k IH]; [done|]. simpl. exact IH. }
  by rewrite H1, H2, app_nil_r.
Qed.

Lemma queue_shape_step self a s s' :
  cur_dirs_ok self (cur_dirs s) →
  queue_shape s → step self a s = Some s' → queue_shape s'.
Proof.
  intros Hcur (its & k & Hq & Hk & Hex) Hstep.
  destruct a as [|i]; simpl in Hstep.
  - pose proof (dispatcher_step_workers _ _ _ Hstep) as [Hprocs _].
    apply dispatcher_step_inv in Hstep; [|done].
    assert (Hpre : ¬ stopping (pc s) →
              k = 0%nat ∧ ¬ ∃ i, procs s !! i = Some Exited).
    { intros Hns. split.
      - destruct (decide (k = 0%nat)); [done|]. by destruct Hns; apply Hk.
      - intros He. by destruct (Hex He). }
    destruct Hstep as [[Hpc ->]|[(e & g & Hpc & ->)|[(p & g & w1 & Hpc & _ & _ & ->)
      |[(p & g & w1 & Hpc & _ & _ & ->)|[(next & g & Hpc & Hfull & ->)
      |[(alive & Hpc & Hfull & ->)|(alive & Hpc & Hfull & ->)]]]]]].
    + destruct (drain_next_fields (seq 0 (length (procs s))) s)
        as (Hq' & _ & _ & Hp' & _ & _ & _ & _ & _ & _ & Hpc').
      exists its, k. rewrite Hq', Hp', Hpc'.
      split_and!; [done|intros; apply drain_pc_stopping|].
      intros He. split; [by apply Hex|apply drain_pc_stopping].
    + destruct Hpre as [-> Hno]; [rewrite Hpc; by intros []|].
      exists its, 0%nat. split_and!; [done|done|]. intros He. by destruct Hno.
    + destruct Hpre as [-> Hno]; [rewrite Hpc; by intros []|].
      exists its, 0%nat. split_and!; [done|done|]. intros He. by destruct Hno.
    + destruct Hpre as [-> Hno]; [rewrite Hpc; by intros []|].
      exists its, 0%nat. split_and!; [done|done|]. intros He. by destruct Hno.
    + destruct Hpre as [-> Hno]; [rewrite Hpc; by intros []|].
      exists (its ++ [next]), 0%nat. cbn [queue procs pc].
      split_and!; [|done|intros He; by destruct Hno].
      rewrite Hq. cbn [replicate]. by rewrite !app_nil_r, fmap_app.
    + match goal with |- queue_shape (drain_next ?al ?s0) =>
        destruct (drain_next_fields al s0)
          as (Hq' & _ & _ & Hp' & _ & _ & _ & _ & _ & _ & Hpc') end.
      exists its, k. rewrite Hq', Hp', Hpc'. cbn [queue procs set_world].
      split_and!; [done|intros; apply drain_pc_stopping|].
      intros He. split; [by apply Hex|apply drain_pc_stopping].
    + exists its, (S k). cbn [queue procs pc set_queue]. rewrite Hpc.
      split_and!; [|done|].
      * rewrite Hq, <- app_assoc. f_equal.
        change [None] with (replicate 1 (None : option item)).
        rewrite <- replicate_add. f_equal. lia.
      * intros He. split; [by apply Hex|done].
  - apply worker_step_inv in Hstep as (Hrun & next & q & Hq' & Hs').
    rewrite Hq in Hq'.
    destruct next as [it|]; subst s'; cbn [queue procs pc].
    + destruct its as [|it' its'].
      { destruct k; simpl in Hq'; [done|]. by injection Hq'. }
      rewrite fmap_cons in Hq'. injection Hq' as -> <-.
      assert (Hno : ¬ ∃ j, procs s !! j = Some Exited).
      { intros He. by destruct (Hex He). }
      exists its', k. split_and!; [done..|].
      intros [j Hj]. destruct Hno. cbn [procs] in Hj.
      destruct (decide (j = i)) as [->|Hne].
      * rewrite list_lookup_insert_eq in Hj by (by eapply lookup_lt_Some).
        injection Hj. by destruct (worker_item _ _ _ _).1.
      * rewrite list_lookup_insert_ne in Hj by done. by exists j.
    + destruct its as [|it' its']; [|done].
      destruct k as [|k]; [done|]. simpl in Hq'. injection Hq' as <-.
      assert (Hstop : stopping (pc s)) by (by apply Hk).
      exists [], k. by split_and!.
Qed.

Lemma run_queue_shape self w0 gen0 acts s :
  exec self acts (init_state self w0 gen0) = Some s → queue_shape s.
Proof.
  revert acts s. apply exec_invariant_reach.
  - exists [], 0%nat. cbn. split_and!; [done..|].
    intros [i Hi]. apply lookup_replicate in Hi as [? _]. done.
  - intros acts a s s' Hexec Hinv Hstep.
    eapply queue_shape_step; [|done..]. by eapply run_cur_dirs_ok.
Qed.

(** X25.  When a run is done and some worker has left on a termination
    signal, every enqueued item has been handled: the queue holds
    termination signals only, and the enumerated paths are, up to order, the
    skipped ones and the handled ones.  Nothing is assumed of the
    capability. *)
Theorem completed_run_handled_every_item self w0 t s :
  run_reaches self w0 t s →
  pc s = Done →
  (∃ i, procs s !! i = Some Exited) →
  enqueued s = (handled s).*2
  ∧ (∀ e, e ∈ queue s → e = None)
  ∧ yielded (enumerate_files self t) ≡ₚ skipped s ++ (handled s).*2.*1.
Proof.
  intros [acts Hexec] Hdone Hex.
  destruct (run_queue_shape _ _ _ _ _ Hexec) as (its & k & Hq & _ & Hshape).
  destruct (Hshape Hex) as [-> _].
  destruct (run_dispatch_inv _ _ _ _ _ Hexec) as (_ & Hperm & Hfifo & _).
  rewrite Hq, queue_items_shape, app_nil_r in Hfifo.
  split_and!.
  - done.
  - intros e. rewrite Hq. cbn. by intros [-> _]%elem_of_replicate.
  - rewrite Hdone, !app_nil_r in Hperm. by rewrite Hperm, Hfifo.
Qed.

Lemma completed_run_handled_every_item_witness :
  ∃ s,
    exec self_drain sched_complete
      (init_state self_drain empty_world (enumerate_files self_drain tree_drain))
    = Some s
    ∧ enqueued s = (handled s).*2
    ∧ (handled s).*2 = [("/src/1.jpg", "/out/1.png")].
Proof.
  destruct (exec self_drain sched_complete
              (init_state self_drain empty_world
                 (enumerate_files self_drain tree_drain))) as [s|] eqn:Hexec;
    [|by vm_compute in Hexec].
  exists s. split; [done|].
  destruct (completed_run_handled_every_item self_drain empty_world tree_drain s)
    as (Henq & _); [by exists sched_complete| | |].
  - vm_compute in Hexec. by injection Hexec as <-.
  - exists 0%nat. vm_compute in Hexec. by injection Hexec as <-.
  - split; [done|]. vm_compute in Hexec. by injection Hexec as <-.
Defined.

Lemma live_inv_step self a s s' :
  constructed self → declared_attributes self →
  live_inv self s → step self a s = Some s' → live_inv self s'.
Proof.
  intros Hc Hdecl (Hcur & Hinv & Hfree & Hshape) Hstep. split_and!.
  - by eapply step_cur_dirs_ok.
  - by eapply drain_inv_step.
  - by eapply raise_free_step.
  - by eapply queue_shape_step.
Qed.

Lemma can_complete_step self a s s' :
  step self a s = Some s' → can_complete self s' → can_complete self s.
Proof.
  intros Hstep (acts & s1 & Hexec & Hdone). exists (a :: acts), s1.
  simpl. by rewrite Hstep.
Qed.

Lemma can_complete_stopping self s :
  constructed self → declared_attributes self →
  live_inv self s → stopping (pc s) → can_complete self s.
Proof.
  intros Hc Hdecl (Hcur & Hinv & _) Hstop.
  destruct (drain_completes self (drain_measure s) s)
    as (acts & s1 & Hexec & Hdone & _); try done.
  - destruct (pc s); try done; [right; by eexists|by left].
  - by exists acts, s1.
Qed.

(** Before the stopping loop a worker is in its loop. *)
Lemma worker_running_before_stop self s i :
  is_Some (metadata_columns self) →
  live_inv self s → ¬ stopping (pc s) →
  (i < num_processes self)%nat →
  procs s !! i = Some Running.
Proof.
  intros Hcols (_ & (_ & Hst & _ & Hlen & _) & _ & (its & k & _ & _ & Hex)) Hns Hi.
  destruct (lookup_lt_is_Some_2 (procs s) i) as [st Hsti]; [lia|].
  destruct (Hst i st Hsti) as [->|[->|[_ Hnone]]]; [done| |].
  - destruct Hns. apply Hex. by exists i.
  - rewrite Hnone in Hcols. by destruct Hcols.
Qed.

Lemma can_complete_put self g s next :
  constructed self → declared_attributes self →
  is_Some (metadata_columns self) → (1 ≤ num_processes self)%nat →
  (∀ s', pc s' = Enumerating g → live_inv self s' → can_complete self s') →
  pc s = Putting next g → live_inv self s → can_complete self s.
Proof.
  intros Hc Hdecl Hcols Hn Henum Hpc Hlive.
  assert (Hput : ∀ s0, pc s0 = Putting next g → live_inv self s0 →
            queue_full (queue s0) = false → can_complete self s0).
  { intros s0 Hpc0 Hlive0 Hfull.
    assert (Hstep : step self Dispatch s0
                    = Some (mkRun (world s0) (queue s0 ++ [Some next])
                              (Enumerating g) (cur_dirs s0) (S (count s0))
                              (procs s0) (enqueued s0 ++ [next])
                              (handled s0) (skipped s0))).
    { simpl. unfold dispatcher_step. by rewrite Hpc0, Hfull. }
    eapply can_complete_step; [exact Hstep|]. apply Henum; [done|].
    by eapply live_inv_step. }
  destruct (queue_full (queue s)) eqn:Hfull; [|by apply Hput].
  assert (Hrun : procs s !! 0%nat = Some Running).
  { apply (worker_running_before_stop self s 0 Hcols Hlive); [|lia].
    rewrite Hpc. by intros []. }
  pose proof Hlive as (_ & (_ & _ & Hlen & _) & _).
  apply queue_full_true in Hfull.
  destruct (queue s) as [|next_obj q] eqn:Hq; [simpl in Hfull; unfold maxsize in Hfull; lia|].
  assert (Hw : ∃ s', step self (Work 0) s = Some s').
  { simpl. unfold worker_step. rewrite Hrun, Hq.
    destruct next_obj as [it|]; [|by eexists].
    destruct (worker_item self 0 it (world s)). by eexists. }
  destruct Hw as [s' Hs'].
  assert (Hlive' : live_inv self s').
  { by eapply live_inv_step. }
  eapply can_complete_step; [exact Hs'|].
  simpl in Hs'. apply worker_step_inv in Hs' as (_ & nx & q' & Hq' & Heq).
  rewrite Hq in Hq'. injection Hq' as <- <-.
  apply Hput; [by destruct next_obj; subst s'|done|].
  assert (Hqs : queue s' = q) by (by destruct next_obj; subst s').
  rewrite Hqs. apply bool_decide_eq_false_2. simpl in Hlen. lia.
Qed.

Lemma can_complete_enum self g :
  constructed self → declared_attributes self →
  is_Some (metadata_columns self) → (1 ≤ num_processes self)%nat →
  ∀ s, pc s = Enumerating g → live_inv self s → can_complete self s.
Proof.
  intros Hc Hdecl Hcols Hn. induction g as [|[p|e] g IH]; intros s Hpc Hlive.
  - assert (Hstep : step self Dispatch s
                    = Some (drain_next (seq 0 (length (procs s))) s)).
    { simpl. unfold dispatcher_step. by rewrite Hpc. }
    eapply can_complete_step; [exact Hstep|].
    apply can_complete_stopping; [done..|by eapply live_inv_step|].
    destruct (drain_next_fields (seq 0 (length (procs s))) s)
      as (_ & _ & _ & _ & _ & _ & _ & _ & _ & _ & ->).
    apply drain_pc_stopping.
  - destruct Hlive as (Hcur & Hrest).
    assert (Hs : ∃ s', step self Dispatch s = Some s'
                       ∧ (pc s' = Enumerating g
                          ∨ ∃ next, pc s' = Putting next g)).
    { simpl. unfold dispatcher_step. rewrite Hpc.
      destruct (examine_spec self (cur_dirs s) (count s) p (world s) Hcur)
        as (w1 & _ & ->).
      destruct (fs_exists _ _); eexists; (split; [reflexivity|]);
        [by left|right; by eexists]. }
    destruct Hs as (s' & Hs' & Hpc').
    assert (Hlive' : live_inv self s').
    { eapply live_inv_step; [done..| |exact Hs']. by split. }
    eapply can_complete_step; [exact Hs'|].
    destruct Hpc' as [Hpc'|[next Hpc']]; [by apply IH|].
    by eapply can_complete_put.
  - destruct Hlive as (_ & _ & [_ Hgen] & _). rewrite Hpc in Hgen.
    destruct (Hgen e). apply list_elem_of_here.
Qed.

(** X26.  A run can always be completed.  With a column list, declared
    attributes, at least one worker and a valid tree, every state of a run
    has a continuation that ends with [Done.]: the dispatcher and the workers
    never lock each other out.  At that end every worker has left on a
    termination signal and every enumerated path was skipped or handled,
    once. *)
Theorem run_can_always_complete self w0 t s :
  constructed self →
  declared_attributes self →
  is_Some (metadata_columns self) →
  (1 ≤ num_processes self)%nat →
  tree_valid t →
  run_reaches self w0 t s →
  ∃ acts s1,
    exec self acts s = Some s1
    ∧ pc s1 = Done
    ∧ (∀ i, (i < num_processes self)%nat → procs s1 !! i = Some Exited)
    ∧ enqueued s1 = (handled s1).*2
    ∧ yielded (enumerate_files self t) ≡ₚ skipped s1 ++ (handled s1).*2.*1.
Proof.
  intros Hc Hdecl Hcols Hn Hv [acts0 Hexec].
  assert (Hlive : live_inv self s).
  { split_and!.
    - by eapply run_cur_dirs_ok.
    - by eapply run_drain_inv.
    - by eapply run_raise_free.
    - by eapply run_queue_shape. }
  assert (Hcan : can_complete self s).
  { destruct (pc s) as [g|next g|alive| |e] eqn:Hpc.
    - by eapply can_complete_enum.
    - eapply can_complete_put; try done. intros s' ? ?.
      by eapply can_complete_enum.
    - apply can_complete_stopping; try done. by rewrite Hpc.
    - apply can_complete_stopping; try done. by rewrite Hpc.
    - destruct Hlive as (_ & _ & [Hab _] & _). rewrite Hpc in Hab.
      by destruct (Hab e). }
  destruct Hcan as (acts & s1 & Hexec1 & Hdone).
  exists acts, s1. split; [done|]. split; [done|].
  assert (Hreach : exec self (acts0 ++ acts)
                     (init_state self w0 (enumerate_files self t)) = Some s1).
  { by rewrite exec_app, Hexec. }
  pose proof (run_drain_inv _ _ _ _ _ Hc Hdecl Hreach)
    as (_ & Hst & _ & Hlen & Hdn).
  rewrite Hdone in Hdn.
  assert (Hall : ∀ i, (i < num_processes self)%nat → procs s1 !! i = Some Exited).
  { intros i Hi.
    destruct (lookup_lt_is_Some_2 (procs s1) i) as [st Hsti]; [lia|].
    destruct (Hst i st Hsti) as [->|[->|[_ Hnone]]];
      [by apply Hdn in Hsti|done|].
    rewrite Hnone in Hcols. by destruct Hcols. }
  split; [done|].
  destruct (run_queue_shape _ _ _ _ _ Hreach) as (its & k & Hq & _ & Hshape).
  destruct Hshape as [-> _]; [exists 0%nat; apply Hall; lia|].
  destruct (run_dispatch_inv _ _ _ _ _ Hreach) as (_ & Hperm & Hfifo & _).
  rewrite Hq, queue_items_shape, app_nil_r in Hfifo.
  split; [done|].
  rewrite Hdone, !app_nil_r in Hperm. by rewrite Hperm, Hfifo.
Qed.

Lemma run_can_always_complete_witness :
  ∃ acts s1,
    exec self_drain acts
      (init_state self_drain empty_world (enumerate_files self_drain tree_drain))
    = Some s1
    ∧ pc s1 = Done
    ∧ procs s1 !! 0%nat = Some Exited.
Proof.
  destruct (run_can_always_complete self_drain empty_world tree_drain
              (init_state self_drain empty_world
                 (enumerate_files self_drain tree_drain)))
    as (acts & s1 & Hexec & Hdone & Hall & _).
  - apply self_with_constructed. right. by eexists.
  - intros co src_path dest_path f success message attrs f' Hco Hcap.
    injection Hco as <-. injection Hcap as <- <- <- <-.
    apply (bool_decide_unpack _). by vm_compute.
  - by eexists.
  - simpl. lia.
  - repeat split; repeat constructor; done.
  - by exists [].
  - exists acts, s1. split_and!; [done..|]. apply Hall. simpl. lia.
Defined.
